(** * NeuroLingo: connection, routing and log-cache layer

    A shallow embedding of the background service of the NeuroLingo browser
    extension:

    - [JS]: the JavaScript values that travel through the layer, with the
      host's [JSON.stringify] and [JSON.parse] on the fragment used by the
      wire protocol;
    - [CONFIG]: src/config.js;
    - [Neuro]: the [NeuroConnection] class of src/neuro-connection.js,
      run against a small model of the host (sockets, timers, effects);
    - [MessageHandler]: src/message-handler.js, [handleAction] and the
      handlers of the messages of the content scripts;
    - [Popup]: [addLogEntry] of src/popup-manager.js (and its inline twin of
      src/background-main.js);
    - [Service]: the popup manager of src/background-main.js with its
      ports;
    - [Content]: the observer of src/main.js and [registerActions] of
      src/actions.js;
    - [Actions]: the message listener of src/main.js and the action
      handlers of src/actions.js.

    Definitions come first, the theorems about them follow. *)

From Stdlib Require Import ZArith QArith Qminmax String Ascii List Lia.
From Stdlib Require Import DecimalString DecimalZ DecimalPos DecimalN DecimalFacts.
From stdpp Require Import base gmap strings list.

Local Open Scope Z_scope.
Local Open Scope string_scope.

(* ===================================================================== *)
(** * JavaScript values and JSON *)
(* ===================================================================== *)

Module JS.

(** A JavaScript value, as far as this layer handles it.  Numbers are the
    integers (the protocol carries no fractions); an object is its list of
    own properties in insertion order.  A string is held as its UTF-8
    encoding, one [ascii] for each byte, which is how it travels in a text
    frame of the socket: a string of the source is ASCII and stands for
    itself.  The layer only compares strings with such literals, tests them
    for emptiness and passes them on, and the encoding keeps all that.  (A
    string with a lone surrogate has no encoding and is outside the
    model.) *)
#[local] Unset Elimination Schemes.
Inductive jsval : Type :=
| JUndefined
| JNull
| JBool (b : bool)
| JNum (n : Z)
| JStr (s : string)
| JArr (elems : list jsval)
| JObj (props : list (string * jsval)).
#[local] Set Elimination Schemes.

(** A result of evaluating JavaScript: a value, or a thrown exception. *)
Inductive exn := TypeError | SyntaxError.

Inductive outcome (A : Type) : Type :=
| Return (a : A)
| Throw (e : exn).
Arguments Return {A} a.
Arguments Throw {A} e.

(** [ToBoolean]: what [if (v)], [!v] and [v || d] test. *)
Definition truthy (v : jsval) : bool :=
  match v with
  | JUndefined | JNull => false
  | JBool b => b
  | JNum n => negb (n =? 0)%Z
  | JStr s => negb (String.eqb s "")
  | JArr _ | JObj _ => true
  end.

(** [a || b] *)
Definition js_or (a b : jsval) : jsval := if truthy a then a else b.

(** Own-property lookup [o[k]] on a property list; [undefined] if absent. *)
Fixpoint obj_get (k : string) (props : list (string * jsval)) : jsval :=
  match props with
  | [] => JUndefined
  | (k', v) :: rest => if String.eqb k k' then v else obj_get k rest
  end.

(** [o[k] = v]: an existing property keeps its place, a new one goes last. *)
Fixpoint obj_set (k : string) (v : jsval) (props : list (string * jsval))
  : list (string * jsval) :=
  match props with
  | [] => [(k, v)]
  | (k', v') :: rest =>
      if String.eqb k k' then (k, v) :: rest else (k', v') :: obj_set k v rest
  end.

(** [v.k] for the property names this layer reads ([command], [game],
    [data], [id]): a [TypeError] on [undefined] and [null], the own property
    on an object, and [undefined] on every other value (none of them has a
    property of these names). *)
Definition get_prop (v : jsval) (k : string) : outcome jsval :=
  match v with
  | JUndefined | JNull => Throw TypeError
  | JObj props => Return (obj_get k props)
  | _ => Return JUndefined
  end.

(** ** JSON.stringify *)

(** The double quote, byte 34. *)
Definition dquote : ascii := ascii_of_N 34.

Definition hex_digit (n : N) : ascii :=
  match n with
  | 0%N => "0" | 1%N => "1" | 2%N => "2" | 3%N => "3" | 4%N => "4"
  | 5%N => "5" | 6%N => "6" | 7%N => "7" | 8%N => "8" | 9%N => "9"
  | 10%N => "a" | 11%N => "b" | 12%N => "c" | 13%N => "d" | 14%N => "e"
  | _ => "f"
  end%char.

(** [QuoteJSONString] on one byte of a string: the bytes of a character
    from 128 on go out as they are, as the character does. *)
Definition quote_char (c : ascii) : string :=
  let n := N_of_ascii c in
  if (n =? 8)%N then "\b"
  else if (n =? 9)%N then "\t"
  else if (n =? 10)%N then "\n"
  else if (n =? 12)%N then "\f"
  else if (n =? 13)%N then "\r"
  else if (n =? 34)%N then String "\" (String dquote "")
  else if (n =? 92)%N then "\\"
  else if (n <? 32)%N then
    String "\" (String "u" (String "0" (String "0"
      (String (hex_digit (n / 16)) (String (hex_digit (n mod 16)) "")))))
  else String c "".

Fixpoint quote_chars (s : string) : string :=
  match s with
  | "" => ""
  | String c rest => quote_char c +:+ quote_chars rest
  end.

Definition quote (s : string) : string :=
  String dquote (quote_chars s +:+ String dquote "").

(** [Number::toString] on an integer: plain decimal digits. *)
Definition number_to_string (n : Z) : string :=
  NilEmpty.string_of_int (Z.to_int n).

(** [SerializeJSONProperty]: [undefined] prints as [null] inside an array and
    is left out of an object. *)
Fixpoint serialize (v : jsval) : string :=
  match v with
  | JUndefined => "null"
  | JNull => "null"
  | JBool true => "true"
  | JBool false => "false"
  | JNum n => number_to_string n
  | JStr s => quote s
  | JArr elems =>
      "[" +:+ String.concat "," (map serialize elems) +:+ "]"
  | JObj props =>
      "{" +:+ String.concat ","
                ((fix members (ps : list (string * jsval)) : list string :=
                    match ps with
                    | [] => []
                    | (k, JUndefined) :: rest => members rest
                    | (k, x) :: rest =>
                        (quote k +:+ ":" +:+ serialize x) :: members rest
                    end) props)
          +:+ "}"
  end.

(** [JSON.stringify(v)]; it yields [undefined] (here [None]) on [undefined]. *)
Definition JSON_stringify (v : jsval) : option string :=
  match v with
  | JUndefined => None
  | _ => Some (serialize v)
  end.

(** ** JSON.parse

    The parser follows the JSON grammar of ECMA-262 on the fragment that the
    value type can hold: white space between tokens, the three literals,
    string literals with their escapes, integer literals, arrays and objects.
    It answers [None] for a [SyntaxError], and also for a text outside the
    fragment: a fraction or exponent, an integer beyond 2^53 (which the host
    would round), an all-digit property name (which the host would move to
    the front of the object), or the escape of a surrogate that is not half
    of a pair. *)

Definition is_ws (c : ascii) : bool :=
  let n := N_of_ascii c in
  ((n =? 32) || (n =? 9) || (n =? 10) || (n =? 13))%N.

Fixpoint skip_ws (s : string) : string :=
  match s with
  | "" => ""
  | String c rest => if is_ws c then skip_ws rest else s
  end.

Definition hex_value (c : ascii) : option N :=
  let n := N_of_ascii c in
  if ((48 <=? n) && (n <=? 57))%N then Some (n - 48)%N
  else if ((97 <=? n) && (n <=? 102))%N then Some (n - 87)%N
  else if ((65 <=? n) && (n <=? 70))%N then Some (n - 55)%N
  else None.

Definition hex4 (a b c d : ascii) : option N :=
  match hex_value a, hex_value b, hex_value c, hex_value d with
  | Some x, Some y, Some z, Some t => Some (((x * 16 + y) * 16 + z) * 16 + t)%N
  | _, _, _, _ => None
  end.

(** The character a one-letter escape stands for. *)
Definition simple_escape (e : ascii) : option ascii :=
  let n := N_of_ascii e in
  if (n =? 34)%N then Some dquote
  else if (n =? 92)%N then Some "\"%char
  else if (n =? 47)%N then Some "/"%char
  else if (n =? 98)%N then Some (ascii_of_N 8)
  else if (n =? 102)%N then Some (ascii_of_N 12)
  else if (n =? 110)%N then Some (ascii_of_N 10)
  else if (n =? 114)%N then Some (ascii_of_N 13)
  else if (n =? 116)%N then Some (ascii_of_N 9)
  else None.

Definition prepend (c : ascii) (r : option (string * string))
  : option (string * string) :=
  match r with
  | Some (str, rest) => Some (String c str, rest)
  | None => None
  end.

Definition prepend_all (p : string) (r : option (string * string))
  : option (string * string) :=
  match r with
  | Some (str, rest) => Some (p +:+ str, rest)
  | None => None
  end.

(** The UTF-8 encoding of a code point from 128 on. *)
Definition utf8 (cp : N) : string :=
  if (cp <? 2048)%N then
    String (ascii_of_N (192 + cp / 64))
      (String (ascii_of_N (128 + cp mod 64)) "")
  else if (cp <? 65536)%N then
    String (ascii_of_N (224 + cp / 4096))
      (String (ascii_of_N (128 + (cp / 64) mod 64))
         (String (ascii_of_N (128 + cp mod 64)) ""))
  else
    String (ascii_of_N (240 + cp / 262144))
      (String (ascii_of_N (128 + (cp / 4096) mod 64))
         (String (ascii_of_N (128 + (cp / 64) mod 64))
            (String (ascii_of_N (128 + cp mod 64)) ""))).

(** The two halves of a surrogate pair, and the code point they make. *)
Definition high_surrogate (code : N) : bool :=
  ((55296 <=? code) && (code <? 56320))%N.

Definition low_surrogate (code : N) : bool :=
  ((56320 <=? code) && (code <? 57344))%N.

Definition pair_code_point (high low : N) : N :=
  (65536 + (high - 55296) * 1024 + (low - 56320))%N.

(** The characters of a string literal, after its opening quote, up to and
    including the closing quote.  A [\u] escape stands for a code unit: below
    128 it is a byte of the string, a high surrogate takes the escape of a
    low surrogate after it and the two make one code point, and a code point
    from 128 on goes into the string in its encoding. *)
Fixpoint parse_chars (s : string) : option (string * string) :=
  match s with
  | "" => None
  | String c rest =>
      let n := N_of_ascii c in
      if (n =? 34)%N then Some ("", rest)
      else if (n =? 92)%N then
        match rest with
        | "" => None
        | String e rest1 =>
            match simple_escape e with
            | Some c' => prepend c' (parse_chars rest1)
            | None =>
                if (N_of_ascii e =? 117)%N then
                  match rest1 with
                  | String h1 (String h2 (String h3 (String h4 rest2))) =>
                      match hex4 h1 h2 h3 h4 with
                      | Some code =>
                          if (code <? 128)%N
                          then prepend (ascii_of_N code) (parse_chars rest2)
                          else if high_surrogate code then
                            match rest2 with
                            | String b (String u (String l1 (String l2
                                (String l3 (String l4 rest3))))) =>
                                if ((N_of_ascii b =? 92)
                                    && (N_of_ascii u =? 117))%N
                                then
                                  match hex4 l1 l2 l3 l4 with
                                  | Some low =>
                                      if low_surrogate low
                                      then prepend_all
                                             (utf8 (pair_code_point code low))
                                             (parse_chars rest3)
                                      else None
                                  | None => None
                                  end
                                else None
                            | _ => None
                            end
                          else if low_surrogate code then None
                          else prepend_all (utf8 code) (parse_chars rest2)
                      | None => None
                      end
                  | _ => None
                  end
                else None
            end
        end
      else if (n <? 32)%N then None
      else prepend c (parse_chars rest)
  end.

Definition digit_of_char (c : ascii) : option (Decimal.uint -> Decimal.uint) :=
  match c with
  | "0" => Some Decimal.D0 | "1" => Some Decimal.D1 | "2" => Some Decimal.D2
  | "3" => Some Decimal.D3 | "4" => Some Decimal.D4 | "5" => Some Decimal.D5
  | "6" => Some Decimal.D6 | "7" => Some Decimal.D7 | "8" => Some Decimal.D8
  | "9" => Some Decimal.D9
  | _ => None
  end%char.

(** The longest run of decimal digits at the front of [s]. *)
Fixpoint read_digits (s : string) : Decimal.uint * string :=
  match s with
  | "" => (Decimal.Nil, "")
  | String c rest =>
      match digit_of_char c with
      | Some d => let '(ds, r) := read_digits rest in (d ds, r)
      | None => (Decimal.Nil, s)
      end
  end.

Definition starts_fraction (s : string) : bool :=
  match s with
  | String c _ =>
      let n := N_of_ascii c in ((n =? 46) || (n =? 101) || (n =? 69))%N
  | "" => false
  end.

Definition MAX_EXACT : Z := 9007199254740992.

(** An integer literal, after its sign. *)
Definition parse_number (negative : bool) (s : string)
  : option (jsval * string) :=
  let '(ds, rest) := read_digits s in
  match ds with
  | Decimal.Nil => None
  | _ =>
      let leading_zero :=
        match ds with
        | Decimal.D0 Decimal.Nil => false
        | Decimal.D0 _ => true
        | _ => false
        end in
      if leading_zero then None
      else if starts_fraction rest then None
      else
        let n := Z.of_uint ds in
        if (MAX_EXACT <? n)%Z then None
        else Some (JNum (if negative then (- n)%Z else n), rest)
  end.

Definition is_digit (c : ascii) : bool :=
  match digit_of_char c with Some _ => true | None => false end.

Fixpoint all_digits (s : string) : bool :=
  match s with
  | "" => true
  | String c rest => is_digit c && all_digits rest
  end.

(** A property name made of digits only: an array index, or close to one. *)
Definition index_like (k : string) : bool :=
  negb (String.eqb k "") && all_digits k.

(** The object that the members of an object literal build, in text order:
    a repeated name overwrites the earlier value in place. *)
Definition build_object (members : list (string * jsval))
  : list (string * jsval) :=
  fold_left (fun o kv => obj_set (fst kv) (snd kv) o) members [].

Definition finish_object (r : option (list (string * jsval) * string))
  : option (jsval * string) :=
  match r with
  | Some (members, rest) =>
      if existsb (fun kv => index_like (fst kv)) members then None
      else Some (JObj (build_object members), rest)
  | None => None
  end.

Definition finish_array (r : option (list jsval * string))
  : option (jsval * string) :=
  match r with
  | Some (elems, rest) => Some (JArr elems, rest)
  | None => None
  end.

Definition parse_literal (s : string) : option (jsval * string) :=
  match s with
  | String "t" (String "r" (String "u" (String "e" rest))) =>
      Some (JBool true, rest)
  | String "f" (String "a" (String "l" (String "s" (String "e" rest)))) =>
      Some (JBool false, rest)
  | String "n" (String "u" (String "l" (String "l" rest))) =>
      Some (JNull, rest)
  | _ => None
  end.

(** After white space, the character [c]: what follows it. *)
Definition peek (c : ascii) (s : string) : option string :=
  match skip_ws s with
  | "" => None
  | String c' rest => if Ascii.eqb c' c then Some rest else None
  end.

(** Recursive descent.  [fuel] bounds the number of nested calls; every call
    but the first has consumed a character, and [JSON_parse] below hands out
    more fuel than the text has characters. *)
Fixpoint parse_value (fuel : nat) (s : string) : option (jsval * string) :=
  match fuel with
  | O => None
  | S fuel =>
      match skip_ws s with
      | "" => None
      | String c rest =>
          if Ascii.eqb c "{" then
            match peek "}" rest with
            | Some rest1 => Some (JObj [], rest1)
            | None => finish_object (parse_members fuel rest)
            end
          else if Ascii.eqb c "[" then
            match peek "]" rest with
            | Some rest1 => Some (JArr [], rest1)
            | None => finish_array (parse_elements fuel rest)
            end
          else if Ascii.eqb c dquote then
            match parse_chars rest with
            | Some (str, rest1) => Some (JStr str, rest1)
            | None => None
            end
          else if Ascii.eqb c "-" then parse_number true rest
          else if is_digit c then parse_number false (String c rest)
          else parse_literal (String c rest)
      end
  end
with parse_elements (fuel : nat) (s : string) : option (list jsval * string) :=
  match fuel with
  | O => None
  | S fuel =>
      match parse_value fuel s with
      | None => None
      | Some (v, rest) =>
          match peek "," rest with
          | Some rest1 =>
              match parse_elements fuel rest1 with
              | Some (vs, rest2) => Some (v :: vs, rest2)
              | None => None
              end
          | None =>
              match peek "]" rest with
              | Some rest1 => Some ([v], rest1)
              | None => None
              end
          end
      end
  end
with parse_members (fuel : nat) (s : string)
  : option (list (string * jsval) * string) :=
  match fuel with
  | O => None
  | S fuel =>
      match peek dquote s with
      | None => None
      | Some rest =>
          match parse_chars rest with
          | None => None
          | Some (k, rest1) =>
              match peek ":" rest1 with
              | None => None
              | Some rest2 =>
                  match parse_value fuel rest2 with
                  | None => None
                  | Some (v, rest3) =>
                      match peek "," rest3 with
                      | Some rest4 =>
                          match parse_members fuel rest4 with
                          | Some (ms, rest5) => Some ((k, v) :: ms, rest5)
                          | None => None
                          end
                      | None =>
                          match peek "}" rest3 with
                          | Some rest4 => Some ([(k, v)], rest4)
                          | None => None
                          end
                      end
                  end
              end
          end
      end
  end.

(** [JSON.parse(text)]: one value, with nothing but white space after it. *)
Definition JSON_parse (text : string) : option jsval :=
  match parse_value (S (2 * String.length text)) text with
  | Some (v, rest) =>
      match skip_ws rest with
      | "" => Some v
      | _ => None
      end
  | None => None
  end.

(** ** The values that [JSON.parse] can produce on the fragment

    No [undefined]; integers that the host holds exactly; property names
    distinct and not all digits. *)

Fixpoint distinct (ks : list string) : bool :=
  match ks with
  | [] => true
  | k :: rest => negb (existsb (String.eqb k) rest) && distinct rest
  end.

Fixpoint json_value (v : jsval) : bool :=
  match v with
  | JUndefined => false
  | JNull | JBool _ | JStr _ => true
  | JNum n => (Z.abs n <=? MAX_EXACT)%Z
  | JArr elems => forallb json_value elems
  | JObj props =>
      distinct (map fst props)
      && (fix members (ps : list (string * jsval)) : bool :=
            match ps with
            | [] => true
            | (k, x) :: rest =>
                negb (index_like k) && json_value x && members rest
            end) props
  end.

(** The fuel that parsing a value back takes, at most. *)
Fixpoint value_size (v : jsval) : nat :=
  match v with
  | JArr elems =>
      S ((fix sum (l : list jsval) : nat :=
            match l with
            | [] => O
            | x :: rest => S (value_size x + sum rest)
            end) elems)
  | JObj props =>
      S ((fix sum (ps : list (string * jsval)) : nat :=
            match ps with
            | [] => O
            | (_, x) :: rest => S (value_size x + sum rest)
            end) props)
  | _ => 1
  end.

(** A text that cannot continue a number: it does not start with a digit,
    a point or an exponent mark. *)
Definition delimited (s : string) : bool :=
  match s with
  | "" => true
  | String c _ => negb (is_digit c) && negb (starts_fraction s)
  end.


(** A well-formed frame text with a space after the colon. *)
Definition spaced_ping : string :=
  "{" +:+ quote "command" +:+ ": " +:+ quote "ping" +:+ "}".

(** The members of an object literal as [serialize] prints them, and the
    fuel that a list of elements or members takes. *)
Fixpoint serialize_members (ps : list (string * jsval)) : list string :=
  match ps with
  | [] => []
  | (k, JUndefined) :: rest => serialize_members rest
  | (k, x) :: rest => (quote k +:+ ":" +:+ serialize x) :: serialize_members rest
  end.

Fixpoint elements_size (l : list jsval) : nat :=
  match l with
  | [] => O
  | x :: rest => S (value_size x + elements_size rest)
  end.

Fixpoint members_size (ps : list (string * jsval)) : nat :=
  match ps with
  | [] => O
  | (_, x) :: rest => S (value_size x + members_size rest)
  end.

Fixpoint json_members (ps : list (string * jsval)) : bool :=
  match ps with
  | [] => true
  | (k, x) :: rest =>
      negb (index_like k) && json_value x && json_members rest
  end.

(** How a printed value starts: not with white space, and not with a
    closing bracket. *)
Definition opens_value (s : string) : Prop :=
  exists (c : ascii) (r : string),
    s = String c r /\ is_ws c = false
    /\ Ascii.eqb c "]" = false /\ Ascii.eqb c "}" = false.

(** What the theorem says of one value: its text parses back to it, with
    enough fuel, in front of any text that does not continue a number. *)
Definition parses_back (v : jsval) : Prop :=
  json_value v = true ->
  forall (fuel : nat) (rest : string),
    (value_size v <= fuel)%nat ->
    delimited rest = true ->
    parse_value fuel (serialize v +:+ rest) = Some (v, rest).

(** Whether [Number::toString] prints every integer in [v] in plain decimal
    digits, as [number_to_string] does: the host does so below 10^21, and
    switches to an exponent from there on. *)
Fixpoint plain (v : jsval) : bool :=
  match v with
  | JNum n => (Z.abs n <? 10 ^ 21)%Z
  | JArr elems =>
      (fix all (l : list jsval) : bool :=
         match l with
         | [] => true
         | x :: rest => plain x && all rest
         end) elems
  | JObj props =>
      (fix all (ps : list (string * jsval)) : bool :=
         match ps with
         | [] => true
         | (_, x) :: rest => plain x && all rest
         end) props
  | _ => true
  end.

(** Whether [ToString(v)] returns, as a template literal and
    [Array.prototype.join] apply it.  It throws a [TypeError] on an object
    with an own [toString] property: a value that came in a message is not
    callable, and [Object.prototype.valueOf] gives the object back.  An
    array is joined, its [undefined] and [null] elements as the empty
    string.  The text itself only goes into log lines. *)
Fixpoint stringifies (v : jsval) : bool :=
  match v with
  | JObj props => negb (existsb (fun p => String.eqb (fst p) "toString") props)
  | JArr elems =>
      (fix all (l : list jsval) : bool :=
         match l with
         | [] => true
         | e :: rest => stringifies e && all rest
         end) elems
  | _ => true
  end.

(** ** The JSON grammar

    [JSON_valid] tells whether a text is JSON at all, by the grammar of
    ECMA-404 in full: every character from 32 on inside a string, every
    escape, fractions and exponents, integers of any length, property names
    of any kind.  It takes every text that [JSON_parse] takes and the texts
    outside the fragment as well; where it answers [false], the host's
    [JSON.parse] throws a [SyntaxError]. *)

(** The text after the closing quote of a string literal. *)
Fixpoint scan_chars (s : string) : option string :=
  match s with
  | "" => None
  | String c rest =>
      let n := N_of_ascii c in
      if (n =? 34)%N then Some rest
      else if (n =? 92)%N then
        match rest with
        | "" => None
        | String e rest1 =>
            match simple_escape e with
            | Some _ => scan_chars rest1
            | None =>
                if (N_of_ascii e =? 117)%N then
                  match rest1 with
                  | String h1 (String h2 (String h3 (String h4 rest2))) =>
                      match hex4 h1 h2 h3 h4 with
                      | Some _ => scan_chars rest2
                      | None => None
                      end
                  | _ => None
                  end
                else None
            end
        end
      else if (n <? 32)%N then None
      else scan_chars rest
  end.

(** The text after a run of one or more digits. *)
Definition scan_digits (s : string) : option string :=
  match read_digits s with
  | (Decimal.Nil, _) => None
  | (_, rest) => Some rest
  end.

(** An optional fraction: a point and digits. *)
Definition scan_fraction (s : string) : option string :=
  match s with
  | String c rest => if Ascii.eqb c "." then scan_digits rest else Some s
  | "" => Some s
  end.

(** An optional exponent: [e] or [E], an optional sign, and digits. *)
Definition scan_exponent (s : string) : option string :=
  match s with
  | String c rest =>
      if Ascii.eqb c "e" || Ascii.eqb c "E" then
        match rest with
        | String sign rest1 =>
            if Ascii.eqb sign "+" || Ascii.eqb sign "-"
            then scan_digits rest1
            else scan_digits rest
        | "" => None
        end
      else Some s
  | "" => Some s
  end.

(** A number literal, after its sign: an integer part without a leading
    zero, then the optional fraction and exponent. *)
Definition scan_number (s : string) : option string :=
  let '(ds, rest) := read_digits s in
  match ds with
  | Decimal.Nil => None
  | _ =>
      let leading_zero :=
        match ds with
        | Decimal.D0 Decimal.Nil => false
        | Decimal.D0 _ => true
        | _ => false
        end in
      if leading_zero then None
      else
        match scan_fraction rest with
        | Some rest1 => scan_exponent rest1
        | None => None
        end
  end.

Definition scan_literal (s : string) : option string :=
  match parse_literal s with
  | Some (_, rest) => Some rest
  | None => None
  end.

(** The text after a value, after the elements of an array with its closing
    bracket, after the members of an object with its closing brace.  The
    fuel is spent as in [parse_value]. *)
Fixpoint scan_value (fuel : nat) (s : string) : option string :=
  match fuel with
  | O => None
  | S fuel =>
      match skip_ws s with
      | "" => None
      | String c rest =>
          if Ascii.eqb c "{" then
            match peek "}" rest with
            | Some rest1 => Some rest1
            | None => scan_members fuel rest
            end
          else if Ascii.eqb c "[" then
            match peek "]" rest with
            | Some rest1 => Some rest1
            | None => scan_elements fuel rest
            end
          else if Ascii.eqb c dquote then scan_chars rest
          else if Ascii.eqb c "-" then scan_number rest
          else if is_digit c then scan_number (String c rest)
          else scan_literal (String c rest)
      end
  end
with scan_elements (fuel : nat) (s : string) : option string :=
  match fuel with
  | O => None
  | S fuel =>
      match scan_value fuel s with
      | None => None
      | Some rest =>
          match peek "," rest with
          | Some rest1 => scan_elements fuel rest1
          | None => peek "]" rest
          end
      end
  end
with scan_members (fuel : nat) (s : string) : option string :=
  match fuel with
  | O => None
  | S fuel =>
      match peek dquote s with
      | None => None
      | Some rest =>
          match scan_chars rest with
          | None => None
          | Some rest1 =>
              match peek ":" rest1 with
              | None => None
              | Some rest2 =>
                  match scan_value fuel rest2 with
                  | None => None
                  | Some rest3 =>
                      match peek "," rest3 with
                      | Some rest4 => scan_members fuel rest4
                      | None => peek "}" rest3
                      end
                  end
              end
          end
      end
  end.

(** Whether [JSON.parse(text)] returns: one value, with nothing but white
    space after it. *)
Definition JSON_valid (text : string) : bool :=
  match scan_value (S (2 * String.length text)) text with
  | Some rest =>
      match skip_ws rest with
      | "" => true
      | _ => false
      end
  | None => false
  end.

End JS.

(* ===================================================================== *)
(** * src/config.js *)
(* ===================================================================== *)

Module CONFIG.

Definition NEURO_WS_URL : string := "ws://localhost:8000".
Definition GAME_NAME : string := "Neuro-Duolingo Game".
Definition RECONNECT_INTERVAL : Q := 10000.
Definition MAX_RECONNECT_INTERVAL : Q := 60000.
Definition MAX_RECONNECT_ATTEMPTS : Z := 5.
Definition HEARTBEAT_INTERVAL : Z := 15000.

End CONFIG.

Module NOTIFICATION_IDS.

Definition RECONNECT : string := "neuro_reconnect".
Definition DISCONNECT : string := "neuro_disconnect".

End NOTIFICATION_IDS.

(* ===================================================================== *)
(** * src/neuro-connection.js *)
(* ===================================================================== *)

Module Neuro.
Import JS.

(** ** The host: sockets, timers and observable effects *)

Inductive ReadyState := CONNECTING | OPEN | CLOSING | CLOSED.

(** A live entry of the host's timer table.  [setTimeout] and [setInterval]
    draw their handles from one supply, and [clearTimeout] and
    [clearInterval] both remove whatever entry the handle names. *)
Inductive TimerKind :=
| Timeout (delay : Q)
| Interval (period : Z).

Inductive LogLevel := info | warn | error | debug.

(** What the connection does to the outside, in order.  A log line keeps the
    fixed part of its text. *)
Inductive effect :=
| LoggerLog (level : LogLevel) (message : string)
| BroadcastConnectionStatus (connected showNotification : bool)
| NotificationsCreate (id : string)
| PopupLogNeuroConnection (connected : bool)
| PopupLog (level : LogLevel) (message : string)
| PopupLogDuolingoActivity (active : bool)
| WsSend (socket : positive) (text : string)
| DispatchNeuroMessage (msg : jsval)
| TabsSendMessage (tabId : Z) (data : jsval).

(** The fields of a [NeuroConnection].  [ws] is [null] or a socket of the
    host; a timer field is [null] or a handle, and a handle is a positive
    integer, so a non-null one is truthy.  [popupManager] tells whether a
    popup manager was passed to the constructor. *)
Record NeuroConnection := mkConn {
  ws : option positive;
  isConnected : bool;
  lastMessageTime : option Z;
  reconnectAttempts : Z;
  reconnectTimer : option positive;
  connectionLost : bool;
  heartbeatInterval : option positive;
  popupManager : bool;
  pendingMessage : option jsval
}.

Record World := mkWorld {
  conn : NeuroConnection;
  sockets : gmap positive ReadyState;
  timers : gmap positive TimerKind;
  next_socket : positive;
  next_timer : positive;
  effects : list effect
}.

Definition with_conn (f : NeuroConnection -> NeuroConnection) (w : World)
  : World :=
  mkWorld (f (conn w)) (sockets w) (timers w) (next_socket w) (next_timer w)
          (effects w).

Definition with_sockets (m : gmap positive ReadyState) (w : World) : World :=
  mkWorld (conn w) m (timers w) (next_socket w) (next_timer w) (effects w).

Definition with_timers (m : gmap positive TimerKind) (w : World) : World :=
  mkWorld (conn w) (sockets w) m (next_socket w) (next_timer w) (effects w).

Definition emit (e : effect) (w : World) : World :=
  mkWorld (conn w) (sockets w) (timers w) (next_socket w) (next_timer w)
          (effects w ++ [e]).

Definition set_ws v c :=
  mkConn v (isConnected c) (lastMessageTime c) (reconnectAttempts c)
         (reconnectTimer c) (connectionLost c) (heartbeatInterval c)
         (popupManager c) (pendingMessage c).
Definition set_isConnected v c :=
  mkConn (ws c) v (lastMessageTime c) (reconnectAttempts c)
         (reconnectTimer c) (connectionLost c) (heartbeatInterval c)
         (popupManager c) (pendingMessage c).
Definition set_lastMessageTime v c :=
  mkConn (ws c) (isConnected c) v (reconnectAttempts c)
         (reconnectTimer c) (connectionLost c) (heartbeatInterval c)
         (popupManager c) (pendingMessage c).
Definition set_reconnectAttempts v c :=
  mkConn (ws c) (isConnected c) (lastMessageTime c) v
         (reconnectTimer c) (connectionLost c) (heartbeatInterval c)
         (popupManager c) (pendingMessage c).
Definition set_reconnectTimer v c :=
  mkConn (ws c) (isConnected c) (lastMessageTime c) (reconnectAttempts c)
         v (connectionLost c) (heartbeatInterval c)
         (popupManager c) (pendingMessage c).
Definition set_connectionLost v c :=
  mkConn (ws c) (isConnected c) (lastMessageTime c) (reconnectAttempts c)
         (reconnectTimer c) v (heartbeatInterval c)
         (popupManager c) (pendingMessage c).
Definition set_heartbeatInterval v c :=
  mkConn (ws c) (isConnected c) (lastMessageTime c) (reconnectAttempts c)
         (reconnectTimer c) (connectionLost c) v
         (popupManager c) (pendingMessage c).
Definition set_pendingMessage v c :=
  mkConn (ws c) (isConnected c) (lastMessageTime c) (reconnectAttempts c)
         (reconnectTimer c) (connectionLost c) (heartbeatInterval c)
         (popupManager c) v.

(** [Logger.info] and its siblings. *)
Definition log (level : LogLevel) (message : string) : World -> World :=
  emit (LoggerLog level message).

(** [if (this.popupManager) { ... }] *)
Definition when_popup (e : effect) (w : World) : World :=
  if popupManager (conn w) then emit e w else w.

(** [setTimeout(callback, delay)]: a fresh handle, entered as pending. *)
Definition setTimeout (delay : Q) (w : World) : positive * World :=
  let id := next_timer w in
  (id, mkWorld (conn w) (sockets w) (<[id := Timeout delay]> (timers w))
               (next_socket w) (Pos.succ id) (effects w)).

(** [setInterval(callback, period)] *)
Definition setInterval (period : Z) (w : World) : positive * World :=
  let id := next_timer w in
  (id, mkWorld (conn w) (sockets w) (<[id := Interval period]> (timers w))
               (next_socket w) (Pos.succ id) (effects w)).

(** [clearTimeout(id)] and [clearInterval(id)]: the entry goes, if there. *)
Definition clearTimer (id : positive) (w : World) : World :=
  with_timers (delete id (timers w)) w.

(** [socket.readyState === WebSocket.OPEN] *)
Definition is_open (s : positive) (w : World) : bool :=
  match sockets w !! s with
  | Some OPEN => true
  | _ => false
  end.

(** [socket.close()]: a socket that is connecting or open starts closing;
    its close event comes later, as an event of its own. *)
Definition ws_close (s : positive) (w : World) : World :=
  match sockets w !! s with
  | Some CONNECTING | Some OPEN => with_sockets (<[s := CLOSING]> (sockets w)) w
  | _ => w
  end.

(** ** The methods *)

(** The constructor. *)
Definition new_connection (popup : bool) : NeuroConnection :=
  mkConn None false None 0 None false None popup None.

Definition init (popup : bool) : World :=
  mkWorld (new_connection popup) ∅ ∅ 1%positive 1%positive [].

(** The retry delay of [scheduleReconnect], in milliseconds.  [Math.pow(1.5,
    k)] for [0 <= k <= 8] and its product with 10000 are dyadic rationals of
    a few bits, so the host's floating point computes them exactly. *)
Definition reconnect_delay (attempts : Z) : Q :=
  Qmin CONFIG.MAX_RECONNECT_INTERVAL
       (CONFIG.RECONNECT_INTERVAL * Qpower (3 # 2) (Z.min (attempts - 1) 8)).

Definition scheduleReconnect (w : World) : World :=
  let w := match reconnectTimer (conn w) with
           | Some id => clearTimer id w
           | None => w
           end in
  let w := with_conn (fun c => set_reconnectAttempts (reconnectAttempts c + 1) c) w in
  let delay := reconnect_delay (reconnectAttempts (conn w)) in
  let w := log info "Will attempt to reconnect" w in
  let '(id, w) := setTimeout delay w in
  with_conn (set_reconnectTimer (Some id)) w.

(** [connect()]; [ctor_throws] says whether [new WebSocket(url)] throws.
    The handlers that [setupEventHandlers] installs route every event of the
    new socket to this connection: see [step]. *)
Definition connect (ctor_throws : bool) (w : World) : World :=
  let w := log info "Attempting to connect to Neuro API..." w in
  if ctor_throws then
    scheduleReconnect (log error "Error connecting to WebSocket:" w)
  else
    let s := next_socket w in
    let w := mkWorld (conn w) (<[s := CONNECTING]> (sockets w)) (timers w)
                     (Pos.succ s) (next_timer w) (effects w) in
    with_conn (set_ws (Some s)) w.

Definition startup_message : jsval :=
  JObj [("command", JStr "startup"); ("game", JStr CONFIG.GAME_NAME)].

Definition ping_message : jsval :=
  JObj [("command", JStr "ping"); ("game", JStr CONFIG.GAME_NAME)].

Definition sendStartup (w : World) : World :=
  match ws (conn w) with
  | Some s =>
      if is_open s w then
        log info "Sent startup message to Neuro"
            (emit (WsSend s (serialize startup_message)) w)
      else log warn "Cannot send startup message - WebSocket not ready" w
  | None => log warn "Cannot send startup message - WebSocket not ready" w
  end.

Definition stopHeartbeat (w : World) : World :=
  match heartbeatInterval (conn w) with
  | Some id => with_conn (set_heartbeatInterval None) (clearTimer id w)
  | None => w
  end.

Definition startHeartbeat (w : World) : World :=
  let w := stopHeartbeat w in
  let '(id, w) := setInterval CONFIG.HEARTBEAT_INTERVAL w in
  with_conn (set_heartbeatInterval (Some id)) w.

(** The callback that [startHeartbeat] hands to [setInterval]. *)
Definition heartbeat_tick (now : Z) (w : World) : World :=
  match ws (conn w) with
  | Some s =>
      if isConnected (conn w) && is_open s w then
        let timeSinceLastMessage :=
          match lastMessageTime (conn w) with
          | Some t => if (t =? 0)%Z then 0 else now - t
          | None => 0
          end in
        if (CONFIG.HEARTBEAT_INTERVAL <? timeSinceLastMessage)%Z then
          log debug "Sent ping to keep WebSocket connection alive"
              (emit (WsSend s (serialize ping_message)) w)
        else w
      else w
  | None => w
  end.

Definition showReconnectionNotification : World -> World :=
  emit (NotificationsCreate NOTIFICATION_IDS.RECONNECT).

Definition showDisconnectionNotification : World -> World :=
  emit (NotificationsCreate NOTIFICATION_IDS.DISCONNECT).

Definition handleOpen (now : Z) (w : World) : World :=
  let w := with_conn (set_isConnected true) w in
  let w := with_conn (set_reconnectAttempts 0) w in
  let w := with_conn (set_connectionLost false) w in
  let w := with_conn (set_lastMessageTime (Some now)) w in
  let w := log info "Connected to Neuro API" w in
  let w := when_popup (PopupLogNeuroConnection true) w in
  let w := sendStartup w in
  let w := emit (BroadcastConnectionStatus true true) w in
  let w := if (1 <? reconnectAttempts (conn w))%Z
           then showReconnectionNotification w
           else w in
  startHeartbeat w.

Definition handleClose (w : World) : World :=
  let wasConnected := isConnected (conn w) in
  let w := with_conn (set_isConnected false) w in
  let w := stopHeartbeat w in
  let w :=
    if wasConnected then
      let w := log warn "Disconnected from Neuro API" w in
      let w := when_popup (PopupLogNeuroConnection false) w in
      if negb (connectionLost (conn w))
         && (CONFIG.MAX_RECONNECT_ATTEMPTS <=? reconnectAttempts (conn w))%Z
      then
        let w := with_conn (set_connectionLost true) w in
        let w := emit (BroadcastConnectionStatus false true) w in
        showDisconnectionNotification w
      else if wasConnected then emit (BroadcastConnectionStatus false false) w
      else w
    else w in
  scheduleReconnect w.

Definition handleError (w : World) : World :=
  let w := log error "WebSocket error:" w in
  when_popup (PopupLog error "WebSocket error") w.

(** Whether the [try] block of [handleMessage] gets past its log line with
    the parsed message: [msg.command] can be read and made a string. *)
Definition accepted (msg : jsval) : bool :=
  match get_prop msg "command" with
  | Return command => stringifies command
  | Throw _ => false
  end.

(** [handleMessage(event)], at the time [now] that [Date.now()] reads.  The
    [catch] takes the [SyntaxError] of [JSON.parse], the [TypeError] of
    [msg.command] on [null], and the [TypeError] of the log line, whose
    template literal turns the command into a string.  On JSON outside the
    fragment [JSON_parse] answers [None] as well, and the definition takes
    the [catch] where the code goes on with the message: what is stated
    below about the dispatch of a text is stated for a text that
    [JSON_parse] reads or that [JSON_valid] turns down. *)
Definition handleMessage (now : Z) (data : string) (w : World) : World :=
  let w := with_conn (set_lastMessageTime (Some now)) w in
  match JSON_parse data with
  | None => log error "Error processing WebSocket message:" w
  | Some msg =>
      match get_prop msg "command" with
      | Throw _ => log error "Error processing WebSocket message:" w
      | Return command =>
          if stringifies command then
            let w := log info "Received command from Neuro" w in
            let w := with_conn (set_pendingMessage (Some msg)) w in
            emit (DispatchNeuroMessage msg) w
          else log error "Error processing WebSocket message:" w
      end
  end.

(** [sendToNeuro(msg)]: the returned boolean, or the exception that escapes
    to the caller, with the world it leaves.  The log line after the write
    turns the command into a string, and throws if that cannot be done. *)
Definition sendToNeuro (msg : jsval) (w : World) : outcome bool * World :=
  let not_connected :=
    (Return false,
     log warn "Cannot send message, not connected to Neuro API" w) in
  if isConnected (conn w) then
    match ws (conn w) with
    | None => (Throw TypeError, w)
    | Some s =>
        if is_open s w then
          match msg with
          | JUndefined | JNull => (Throw TypeError, w)
          | JObj props =>
              if negb (truthy (obj_get "command" props)) then
                (Return false,
                 log error "Invalid message format: missing command" w)
              else
                let props :=
                  if negb (truthy (obj_get "game" props))
                  then obj_set "game" (JStr CONFIG.GAME_NAME) props
                  else props in
                let w := emit (WsSend s (serialize (JObj props))) w in
                if stringifies (obj_get "command" props)
                then (Return true, log info "Sent command to Neuro" w)
                else (Throw TypeError, w)
          | _ =>
              (Return false,
               log error "Invalid message format: missing command" w)
          end
        else not_connected
    end
  else not_connected.

Definition disconnect (w : World) : World :=
  let w := stopHeartbeat w in
  let w := match reconnectTimer (conn w) with
           | Some id => with_conn (set_reconnectTimer None) (clearTimer id w)
           | None => w
           end in
  let w := match ws (conn w) with
           | Some s => with_conn (set_ws None) (ws_close s w)
           | None => w
           end in
  with_conn (set_isConnected false) w.

(** ** Events

    Everything that can happen to a connection: a call of one of its public
    methods by the background service, an event of one of the sockets it
    created, or one of its timers coming due.  [step] answers [None] when
    the host cannot deliver the event in that state. *)
Inductive event :=
| Connect (ctor_throws : bool)
| Disconnect
| Send (msg : jsval)
| SocketOpen (s : positive) (now : Z)
| SocketClose (s : positive)
| SocketError (s : positive)
| SocketMessage (s : positive) (now : Z) (data : string)
| TimeoutFires (id : positive) (ctor_throws : bool)
| IntervalFires (id : positive) (now : Z).

Definition step (w : World) (ev : event) : option World :=
  match ev with
  | Connect ctor_throws => Some (connect ctor_throws w)
  | Disconnect => Some (disconnect w)
  | Send msg => Some (snd (sendToNeuro msg w))
  | SocketOpen s now =>
      match sockets w !! s with
      | Some CONNECTING =>
          Some (handleOpen now (with_sockets (<[s := OPEN]> (sockets w)) w))
      | _ => None
      end
  | SocketClose s =>
      match sockets w !! s with
      | Some CONNECTING | Some OPEN | Some CLOSING =>
          Some (handleClose (with_sockets (<[s := CLOSED]> (sockets w)) w))
      | _ => None
      end
  | SocketError s =>
      match sockets w !! s with
      | Some CONNECTING | Some OPEN | Some CLOSING => Some (handleError w)
      | _ => None
      end
  | SocketMessage s now data =>
      match sockets w !! s with
      | Some OPEN | Some CLOSING => Some (handleMessage now data w)
      | _ => None
      end
  | TimeoutFires id ctor_throws =>
      match timers w !! id with
      | Some (Timeout _) => Some (connect ctor_throws (clearTimer id w))
      | _ => None
      end
  | IntervalFires id now =>
      match timers w !! id with
      | Some (Interval _) => Some (heartbeat_tick now w)
      | _ => None
      end
  end.

Fixpoint run (w : World) (evs : list event) : option World :=
  match evs with
  | [] => Some w
  | ev :: rest =>
      match step w ev with
      | Some w' => run w' rest
      | None => None
      end
  end.

(** A world the connection can be in: the constructor's, after any events. *)
Definition reachable (w : World) : Prop :=
  exists popup evs, run (init popup) evs = Some w.

(** The pending reconnect timers and the running heartbeat timers. *)
Definition is_timeout (k : TimerKind) : bool :=
  match k with Timeout _ => true | Interval _ => false end.

Definition pending_timeouts (w : World) : gset positive :=
  dom (filter (fun kv => is_timeout (snd kv) = true) (timers w)).

Definition running_intervals (w : World) : gset positive :=
  dom (filter (fun kv => is_timeout (snd kv) = false) (timers w)).

(** How often a notification of the given id was shown. *)
Definition notification_count (id : string) (es : list effect) : nat :=
  length (List.filter (fun e => match e with
                                | NotificationsCreate id' => String.eqb id id'
                                | _ => false
                                end) es).

(** The texts written to sockets, in order. *)
Definition socket_writes (es : list effect) : list (positive * string) :=
  flat_map (fun e => match e with
                     | WsSend s text => [(s, text)]
                     | _ => []
                     end) es.

(** The delay before the ceiling, [10000 * 1.5^k]. *)
Definition raw_delay (k : nat) : Q :=
  CONFIG.RECONNECT_INTERVAL * Qpower (3 # 2) (Z.of_nat k).

(** An event in which [new WebSocket(url)] does not throw: the constructor
    throws on a malformed URL only, and the configured one is well formed. *)
Definition ctor_ok (ev : event) : bool :=
  match ev with
  | Connect true | TimeoutFires _ true => false
  | _ => true
  end.

(** The [k]-th connection of a session that keeps losing it: socket [k]
    opens at [t], closes, and the retry timer comes due.  Each round takes
    two timer handles, the heartbeat's and the retry's. *)
Definition quick_closure (k : positive) (t : Z) : list event :=
  [SocketOpen k t; SocketClose k; TimeoutFires (2 * k) false].

Definition five_quick_closures : list event :=
  Connect false
  :: quick_closure 1 1000 ++ quick_closure 2 12000 ++ quick_closure 3 28000
  ++ quick_closure 4 44000 ++ quick_closure 5 60000.

(** Three failed attempts, then the socket of the fourth opens. *)
Definition failed_attempts : list event :=
  [Connect false; SocketClose 1; TimeoutFires 1 false;
   SocketClose 2; TimeoutFires 2 false; SocketClose 3; TimeoutFires 3 false].

(** The service connects twice (its constructor and its [onStartup] listener
    both call [initialize]), shuts down while the first socket is still
    connecting, and that socket then opens. *)
Definition open_after_disconnect : list event :=
  [Connect false; Connect false; Disconnect; SocketOpen 1 1000].

(** What the escalation of [handleClose] can rely on between events. *)
Definition quiet (w : World) : Prop :=
  (isConnected (conn w) = true -> reconnectAttempts (conn w) = 0)
  /\ notification_count NOTIFICATION_IDS.DISCONNECT (effects w) = 0%nat.

(** Every live timer is the one whose handle the connection holds: a
    pending timeout is [reconnectTimer], a running interval is
    [heartbeatInterval]. *)
Definition timers_owned (w : World) : Prop :=
  forall (id : positive) (k : TimerKind),
    timers w !! id = Some k ->
    if is_timeout k then reconnectTimer (conn w) = Some id
    else heartbeatInterval (conn w) = Some id.

(** The service connects and shuts down before the socket has opened; the
    close event of that socket follows. *)
Definition close_after_disconnect : list event :=
  [Connect false; Disconnect; SocketClose 1].

(** The messages handed to the background script, in order. *)
Definition dispatched (es : list effect) : list jsval :=
  flat_map (fun e => match e with
                     | DispatchNeuroMessage m => [m]
                     | _ => []
                     end) es.

(** The properties of a frame as [sendToNeuro] writes it: [game] filled in
    when the caller left it out. *)
Definition with_game (props : list (string * jsval)) : list (string * jsval) :=
  if negb (truthy (obj_get "game" props))
  then obj_set "game" (JStr CONFIG.GAME_NAME) props
  else props.

(** Whether the heartbeat callback finds the connection idle at [now]. *)
Definition idle (now : Z) (w : World) : bool :=
  match ws (conn w), lastMessageTime (conn w) with
  | Some s, Some t =>
      isConnected (conn w) && is_open s w && negb (t =? 0)%Z
      && (CONFIG.HEARTBEAT_INTERVAL <? now - t)%Z
  | _, _ => false
  end.

(** Handles come from the counters: every timer, every handle the
    connection holds and every socket is below the next one to hand out, and
    the two handles held differ. *)
Definition handles_fresh (w : World) : Prop :=
  (forall id k, timers w !! id = Some k -> (id < next_timer w)%positive)
  /\ (forall id, reconnectTimer (conn w) = Some id -> (id < next_timer w)%positive)
  /\ (forall id, heartbeatInterval (conn w) = Some id -> (id < next_timer w)%positive)
  /\ (forall a b, reconnectTimer (conn w) = Some a ->
                  heartbeatInterval (conn w) = Some b -> a <> b)
  /\ (forall s st, sockets w !! s = Some st -> (s < next_socket w)%positive)
  /\ (forall s, ws (conn w) = Some s -> is_Some (sockets w !! s)).

(** The heartbeat follows [isConnected]: its interval is live while the
    connection is connected, and there is none while it is not. *)
Definition beating (w : World) : Prop :=
  match heartbeatInterval (conn w) with
  | Some id =>
      isConnected (conn w) = true
      /\ timers w !! id = Some (Interval CONFIG.HEARTBEAT_INTERVAL)
  | None => isConnected (conn w) = false
  end.

(** An event other than a call of [disconnect]. *)
Definition keeps_socket (ev : event) : bool :=
  match ev with
  | Disconnect => false
  | _ => true
  end.

(** While [disconnect] has not been called, a connection without a socket
    has never created one. *)
Definition socket_kept (w : World) : Prop :=
  ws (conn w) = None -> sockets w = ∅ /\ isConnected (conn w) = false.

(** Two worlds with the same sockets, timers and handles. *)
Definition same_handles (w w' : World) : Prop :=
  timers w' = timers w /\ next_timer w' = next_timer w
  /\ sockets w' = sockets w /\ next_socket w' = next_socket w
  /\ ws (conn w') = ws (conn w)
  /\ reconnectTimer (conn w') = reconnectTimer (conn w)
  /\ heartbeatInterval (conn w') = heartbeatInterval (conn w).

End Neuro.

(* ===================================================================== *)
(** * src/message-handler.js *)
(* ===================================================================== *)

Module MessageHandler.
Import JS Neuro.

(** A tab that [chrome.tabs.query] found; [delivers] says whether
    [chrome.tabs.sendMessage] to it resolves (or rejects). *)
Record tab := mkTab { tab_id : Z; delivers : bool }.

(** What [await chrome.tabs.query(...)] produces. *)
Inductive tabs_query :=
| TabsFound (tabs : list tab)
| QueryRejected.

(** The frame of an action result. *)
Definition action_result (id : jsval) (success : bool) (message : string)
  : jsval :=
  JObj [("command", JStr "action/result");
        ("game", JStr CONFIG.GAME_NAME);
        ("data", JObj [("id", id);
                       ("success", JBool success);
                       ("message", JStr message)])].

Definition neuro_action (data : jsval) : jsval :=
  JObj [("type", JStr "neuro_action"); ("data", data)].

(** The [for (const tab of tabs)] loop: the world after it and the number of
    tabs that took the message. *)
Fixpoint forward (popup : bool) (data : jsval) (tabs : list tab)
  (sent : nat) (w : World) : nat * World :=
  match tabs with
  | [] => (sent, w)
  | t :: rest =>
      let w := emit (TabsSendMessage (tab_id t) (neuro_action data)) w in
      if delivers t then
        let w := log debug "Sent action to tab" w in
        let w := if popup then emit (PopupLog info "Sent action to tab") w
                 else w in
        forward popup data rest (S sent) w
      else
        let w := log warn "Failed to send message to tab" w in
        let w := if popup
                 then emit (PopupLog warn "Failed to send message to tab") w
                 else w in
        forward popup data rest sent w
  end.

(** The [catch] block of [handleAction]; an exception of its own
    [sendToNeuro] escapes. *)
Definition handleAction_catch (popup : bool) (id : jsval) (w : World)
  : outcome unit * World :=
  let w := log error "Error handling action:" w in
  let w := if popup then emit (PopupLog error "Error handling action") w
           else w in
  match sendToNeuro (action_result id false "Internal error processing action.") w with
  | (Return _, w) => (Return tt, w)
  | (Throw e, w) => (Throw e, w)
  end.

(** [handleAction(msg, connection, popupManager)], with the answer [query]
    of the tab lookup.  The function is asynchronous: what follows the
    lookup runs in a later turn of the event loop.  It touches the
    connection only through its final [sendToNeuro], so [w] stands for the
    world of that turn. *)
Definition handleAction (popup : bool) (msg : jsval) (query : tabs_query)
  (w : World) : outcome unit * World :=
  match get_prop msg "data" with
  | Throw e => (Throw e, w)
  | Return data =>
      let id := match get_prop data "id" with
                | Return v => v
                | Throw _ => JUndefined
                end in
      if negb (truthy data) || negb (truthy id) then
        let w := log error "Invalid action message: missing data or id" w in
        let w := if popup
                 then emit (PopupLog error "Invalid action message: missing data or id") w
                 else w in
        (Return tt, w)
      else
        match query with
        | QueryRejected => handleAction_catch popup id w
        | TabsFound [] =>
            let w := log warn "No Duolingo tabs found for action" w in
            let w := if popup
                     then emit (PopupLogDuolingoActivity false)
                            (emit (PopupLog warn "No Duolingo tabs found for action") w)
                     else w in
            match sendToNeuro (action_result id false "No Duolingo tab is currently open.") w with
            | (Return _, w) => (Return tt, w)
            | (Throw _, w) => handleAction_catch popup id w
            end
        | TabsFound tabs =>
            let '(messagesSent, w) := forward popup data tabs 0 w in
            if Nat.eqb messagesSent 0 then
              let w := log error "Failed to send action to any tabs" w in
              let w := if popup
                       then emit (PopupLog error "Failed to send action to any tabs") w
                       else w in
              match sendToNeuro (action_result id false "Failed to communicate with Duolingo tabs.") w with
              | (Return _, w) => (Return tt, w)
              | (Throw _, w) => handleAction_catch popup id w
              end
            else (Return tt, w)
        end
  end.

(** The messages handed to tabs, in order. *)
Definition tab_messages (es : list effect) : list (Z * jsval) :=
  flat_map (fun e => match e with
                     | TabsSendMessage t d => [(t, d)]
                     | _ => []
                     end) es.

(** The id that an inbound action frame carries, as [handleAction] tests
    it: [msg.data] and [msg.data.id] both truthy. *)
Definition action_id (msg : jsval) : option jsval :=
  match get_prop msg "data" with
  | Return data =>
      if truthy data then
        match get_prop data "id" with
        | Return id => if truthy id then Some id else None
        | Throw _ => None
        end
      else None
  | Throw _ => None
  end.

(** The failure that [handleAction] reports when no tab is open. *)
Definition no_tab_result (id : jsval) : jsval :=
  action_result id false "No Duolingo tab is currently open.".

(** ** Messages from the content scripts *)

(** A computation on the world that returns or throws; a [throw] ends it
    with the world as it then is. *)
Definition Run (A : Type) : Type := World -> outcome A * World.

Definition ret {A : Type} (a : A) : Run A := fun w => (Return a, w).

Definition lift {A : Type} (o : outcome A) : Run A := fun w => (o, w).

Definition bind {A B : Type} (m : Run A) (k : A -> Run B) : Run B :=
  fun w => match m w with
           | (Return a, w') => k a w'
           | (Throw e, w') => (Throw e, w')
           end.

Definition tell (e : effect) : Run unit := fun w => (Return tt, emit e w).

(** [if (popupManager) { ... }] *)
Definition when (b : bool) (m : Run unit) : Run unit :=
  if b then m else ret tt.

Declare Scope run_scope.
Delimit Scope run_scope with run.
Notation "'let*' x := m 'in' k" := (bind m (fun x => k))
  (at level 10, x name, m at level 100, k at level 200) : run_scope.
Notation "m >> k" := (bind m (fun _ => k))
  (at level 90, right associativity) : run_scope.
Local Open Scope run_scope.

(** [v === s] for a string literal [s]. *)
Definition is_string (s : string) (v : jsval) : bool :=
  match v with
  | JStr t => String.eqb t s
  | _ => false
  end.

(** A template literal over [v]: its [TypeError], if any. *)
Definition interpolate (v : jsval) : Run unit :=
  if stringifies v then ret tt else lift (Throw TypeError).

(** [{ command, game: CONFIG.GAME_NAME, data }] *)
Definition frame (command : string) (data : jsval) : jsval :=
  JObj [("command", JStr command);
        ("game", JStr CONFIG.GAME_NAME);
        ("data", data)].

(** [handleContextMessage(message, connection, popupManager)].
    [popupManager.logContext] builds its text from the challenge type before
    it adds the entry. *)
Definition handleContextMessage (popup : bool) (message : jsval) : Run unit :=
  let* data := lift (get_prop message "data") in
  if negb (truthy data) then
    tell (LoggerLog error "Invalid context message: missing data") >>
    when popup (tell (PopupLog error "Invalid context message: missing data"))
  else
    let* text := lift (get_prop data "message") in
    let* silent := lift (get_prop data "silent") in
    let contextData :=
      JObj [("message", js_or text (JStr ""));
            ("silent", js_or silent (JBool false))] in
    let* _ := sendToNeuro (frame "context" contextData) in
    when popup
      (let* challengeType := lift (get_prop data "challengeType") in
       interpolate (js_or challengeType (JStr "Unknown")) >>
       tell (PopupLog info "Context extracted")).

(** [popupManager.logActionResult(resultData)] *)
Definition logActionResult (resultData : jsval) : Run unit :=
  let* success := lift (get_prop resultData "success") in
  let* id := lift (get_prop resultData "id") in
  interpolate id >>
  tell (if truthy success then PopupLog info "Action SUCCESS"
        else PopupLog error "Action FAILED").

(** [handleActionResult(message, connection, popupManager)] *)
Definition handleActionResult (popup : bool) (message : jsval) : Run unit :=
  let* data := lift (get_prop message "data") in
  let* id := (if truthy data then lift (get_prop data "id") else ret JUndefined) in
  if negb (truthy data) || negb (truthy id) then
    tell (LoggerLog error "Invalid action result format:") >>
    when popup (tell (PopupLog error "Invalid action result format"))
  else
    let* success := lift (get_prop data "success") in
    let* text := lift (get_prop data "message") in
    let resultData :=
      JObj [("id", id);
            ("success", js_or success (JBool false));
            ("message", js_or text (JStr ""))] in
    let* _ := sendToNeuro (frame "action/result" resultData) in
    when popup (logActionResult resultData).

(** [Array.isArray(v)] *)
Definition is_array (v : jsval) : bool :=
  match v with
  | JArr _ => true
  | _ => false
  end.

(** [actions.map(a => a.name)] *)
Fixpoint action_names (actions : list jsval) : outcome (list jsval) :=
  match actions with
  | [] => Return []
  | a :: rest =>
      match get_prop a "name" with
      | Throw e => Throw e
      | Return name =>
          match action_names rest with
          | Throw e => Throw e
          | Return names => Return (name :: names)
          end
      end
  end.

(** [handleRegisterActions(message, connection, popupManager)].  The calls
    of [Logger.broadcastLog] and [popupManager.updateLastEvent] leave no
    trace in the world. *)
Definition handleRegisterActions (popup : bool) (message : jsval) : Run unit :=
  let* data := lift (get_prop message "data") in
  let* actions := (if truthy data then lift (get_prop data "actions")
              else ret JUndefined) in
  if negb (truthy data) || negb (truthy actions) || negb (is_array actions)
  then
    tell (LoggerLog error "Invalid register actions format:") >>
    when popup (tell (PopupLog error "Failed to register actions: invalid format"))
  else
    let* success := sendToNeuro (frame "actions/register"
                                  (JObj [("actions", actions)])) in
    if success then
      let* names := lift (action_names match actions with
                                  | JArr elems => elems
                                  | _ => []
                                  end) in
      interpolate (JArr names) >>
      tell (LoggerLog info "Registered actions with Neuro") >>
      when popup (tell (PopupLog info "Registered actions with Neuro"))
    else
      tell (LoggerLog error "Failed to send action registration to Neuro") >>
      when popup (tell (PopupLog error "Failed to register actions: connection error")).

(** [handleForceAction(message, connection, popupManager)] *)
Definition handleForceAction (popup : bool) (message : jsval) : Run unit :=
  let* data := lift (get_prop message "data") in
  if negb (truthy data) then
    tell (LoggerLog error "Invalid force action message: missing data") >>
    when popup (tell (PopupLog error "Invalid force action message: missing data"))
  else
    let* state := lift (get_prop data "state") in
    let* query := lift (get_prop data "query") in
    let* ephemeral_context := lift (get_prop data "ephemeral_context") in
    let* names := lift (get_prop data "action_names") in
    let forceData :=
      JObj [("state", js_or state JNull);
            ("query", js_or query (JStr "Continue to next action"));
            ("ephemeral_context", js_or ephemeral_context (JBool false));
            ("action_names", js_or names (JArr []))] in
    let* success := sendToNeuro (frame "actions/force" forceData) in
    if success then
      interpolate (js_or query (JStr "Continue to next action")) >>
      tell (LoggerLog info "Forced Neuro action with query") >>
      when popup (tell (PopupLog info "Forced Neuro action with query"))
    else
      tell (LoggerLog error "Failed to send force action to Neuro") >>
      when popup (tell (PopupLog error "Failed to send force action to Neuro")).

(** How the first [try] block of [handleRuntimeMessage] ends: it falls out
    of the [switch], returns from the function, or throws into the
    [catch]. *)
Inductive switch_exit :=
| Break
| ReturnValue (b : bool)
| Caught.

(** What a call of [handleRuntimeMessage] did: its result, the arguments
    with which it called [sendResponse], in order, the arguments with which
    it called [popupManager.addLogEntry] itself, and the world it left. *)
Record Handled := mkHandled {
  returned : outcome bool;
  responses : list jsval;
  entries : list jsval;
  world : World
}.

(** A case of the [switch] that calls a handler and breaks. *)
Definition handler (m : Run unit) (w : World)
  : switch_exit * list jsval * list jsval * World :=
  match m w with
  | (Return _, w') => (Break, [], [], w')
  | (Throw _, w') => (Caught, [], [], w')
  end.

(** The body of the first [try] of [handleRuntimeMessage], with the
    responses and entries it made.  [responds] tells whether [sendResponse]
    returns (or throws because the sender is gone).  [logNeuroConnection]
    is recorded by the truth value of its argument, by which it chooses its
    text. *)
Definition dispatch (popup responds : bool) (message : jsval) (w : World)
  : switch_exit * list jsval * list jsval * World :=
  match get_prop message "type" with
  | Throw _ => (Caught, [], [], w)
  | Return type =>
      if is_string "neuro_context" type then
        handler (handleContextMessage popup message) w
      else if is_string "neuro_action_result" type then
        handler (handleActionResult popup message) w
      else if is_string "neuro_register_actions" type then
        handler (handleRegisterActions popup message) w
      else if is_string "neuro_force_action" type then
        handler (handleForceAction popup message) w
      else if is_string "neuro_log" type then
        match get_prop message "data" with
        | Throw _ => (Caught, [], [], w)
        | Return data =>
            if popup && truthy data then
              match get_prop data "level", get_prop data "message",
                    get_prop data "data", get_prop data "source" with
              | Return level, Return text, Return d, Return source =>
                  (Break, [],
                   [JObj [("level", js_or level (JStr "info"));
                          ("message", js_or text (JStr ""));
                          ("data", d);
                          ("source", js_or source (JStr "content"))]], w)
              | _, _, _, _ => (Caught, [], [], w)
              end
            else (Break, [], [], w)
        end
      else if is_string "neuro_connection_update" type then
        match get_prop message "data" with
        | Throw _ => (Caught, [], [], w)
        | Return data =>
            if popup && truthy data then
              match get_prop data "connected" with
              | Return connected =>
                  (Break, [], [],
                   emit (PopupLogNeuroConnection (truthy connected)) w)
              | Throw _ => (Caught, [], [], w)
              end
            else (Break, [], [], w)
        end
      else if is_string "get_neuro_status" type then
        let response := JObj [("connected", JBool (isConnected (conn w)))] in
        if responds then (ReturnValue true, [response], [], w)
        else (Caught, [response], [], w)
      else
        handler (interpolate type >>
                 tell (LoggerLog debug "Unknown message type") >>
                 when popup (tell (PopupLog debug "Unknown message type"))) w
  end.

(** [handleRuntimeMessage(message, sender, sendResponse, connection,
    popupManager)].  The [catch] reads [message.type] again for the popup
    entry, outside any [try]; the last [sendResponse] has a [try] of its
    own. *)
Definition handleRuntimeMessage (popup responds : bool) (message : jsval)
  (w : World) : Handled :=
  let ok := JObj [("ok", JBool true)] in
  match dispatch popup responds message w with
  | (ReturnValue b, rs, es, w) => mkHandled (Return b) rs es w
  | (Break, rs, es, w) => mkHandled (Return false) (rs ++ [ok]) es w
  | (Caught, rs, es, w) =>
      let w := log error "Error handling runtime message:" w in
      if popup then
        match get_prop message "type" with
        | Throw e => mkHandled (Throw e) rs es w
        | Return _ =>
            mkHandled (Return false) (rs ++ [ok]) es
                      (emit (PopupLog error "Error handling runtime message") w)
        end
      else mkHandled (Return false) (rs ++ [ok]) es w
  end.

(** The socket on which the connection can write, if there is one: what the
    guard of [sendToNeuro] tests. *)
Definition line (w : World) : option positive :=
  if isConnected (conn w) then
    match ws (conn w) with
    | Some s => if is_open s w then Some s else None
    | None => None
    end
  else None.

(** [data.k] on a value that is neither [undefined] nor [null]. *)
Definition field (k : string) (data : jsval) : jsval :=
  match get_prop data k with
  | Return v => v
  | Throw _ => JUndefined
  end.

(** The frame that a message of a content script is passed on as, if it is
    one of the four kinds that are passed on and has what its handler asks
    for. *)
Definition relayed (message : jsval) : option jsval :=
  let type := field "type" message in
  let data := field "data" message in
  if negb (truthy data) then None
  else if is_string "neuro_context" type then
    Some (frame "context"
            (JObj [("message", js_or (field "message" data) (JStr ""));
                   ("silent", js_or (field "silent" data) (JBool false))]))
  else if is_string "neuro_action_result" type then
    if truthy (field "id" data) then
      Some (frame "action/result"
              (JObj [("id", field "id" data);
                     ("success", js_or (field "success" data) (JBool false));
                     ("message", js_or (field "message" data) (JStr ""))]))
    else None
  else if is_string "neuro_register_actions" type then
    if is_array (field "actions" data) then
      Some (frame "actions/register" (JObj [("actions", field "actions" data)]))
    else None
  else if is_string "neuro_force_action" type then
    Some (frame "actions/force"
            (JObj [("state", js_or (field "state" data) JNull);
                   ("query", js_or (field "query" data)
                                   (JStr "Continue to next action"));
                   ("ephemeral_context",
                    js_or (field "ephemeral_context" data) (JBool false));
                   ("action_names",
                    js_or (field "action_names" data) (JArr []))]))
  else None.

(** Two worlds that differ in their traces of effects only. *)
Definition same_state (w w' : World) : Prop :=
  conn w' = conn w /\ sockets w' = sockets w /\ timers w' = timers w
  /\ next_socket w' = next_socket w /\ next_timer w' = next_timer w.

(** The failure that [handleAction] reports to Neuro, if any, by the answer
    of the tab lookup: none when some tab took the action. *)
Definition failure (query : tabs_query) : option string :=
  match query with
  | QueryRejected => Some "Internal error processing action."
  | TabsFound [] => Some "No Duolingo tab is currently open."
  | TabsFound tabs =>
      if existsb delivers tabs then None
      else Some "Failed to communicate with Duolingo tabs."
  end.

(** The tabs that [handleAction] messages, by the answer of the lookup. *)
Definition found (query : tabs_query) : list tab :=
  match query with
  | QueryRejected => []
  | TabsFound tabs => tabs
  end.

(** An action frame as Neuro sends it. *)
Definition sample_action : jsval :=
  JObj [("command", JStr "action");
        ("data", JObj [("id", JStr "42"); ("name", JStr "submit_answer")])].

(** The action arrives on the open socket, and the socket closes while
    [handleAction] awaits the tab lookup. *)
Definition closed_during_lookup : list event :=
  [Connect false; SocketOpen 1 1000;
   SocketMessage 1 2000 (serialize sample_action); SocketClose 1].

(** The service has connected twice (see [open_after_disconnect]); the
    first socket opens and brings the action while the second, the one the
    connection holds, is still connecting. *)
Definition second_socket_connecting : list event :=
  [Connect false; Connect false; SocketOpen 1 1000;
   SocketMessage 1 2000 (serialize sample_action)].

End MessageHandler.

(* ===================================================================== *)
(** * src/popup-manager.js, and its inline twin in src/background-main.js *)
(* ===================================================================== *)

Module Popup.
Import JS.

(** The argument of [addLogEntry]; an absent field is [undefined]. *)
Record LogData := mkLogData {
  ld_level : jsval;
  ld_message : jsval;
  ld_data : jsval;
  ld_source : jsval
}.

Record LogEntry := mkLogEntry {
  timestamp : string;
  level : jsval;
  message : jsval;
  data : jsval;
  source : jsval
}.

(** The fields of the popup manager that [addLogEntry] reads and writes;
    [broadcasts] collects the [new_log] messages sent to an open popup. *)
Record PopupManager := mkPopup {
  logCache : list LogEntry;
  maxCacheSize : Z;
  isPopupOpen : bool;
  broadcasts : list LogEntry
}.

(** The constructor (and the object literal of [createPopupManager]). *)
Definition new_manager : PopupManager := mkPopup [] 200 false [].

(** [array.slice(start)]: a negative [start] counts from the end, and [-0]
    is [0]. *)
Definition slice {A : Type} (start : Z) (l : list A) : list A :=
  let len := Z.of_nat (length l) in
  let k := if (start <? 0)%Z then Z.max (len + start) 0 else Z.min start len in
  drop (Z.to_nat k) l.

(** [addLogEntry(logData)], at the time [now] that [new Date().toISOString()]
    reads: the entry returned and the manager it leaves. *)
Definition addLogEntry (now : string) (logData : LogData) (pm : PopupManager)
  : LogEntry * PopupManager :=
  let logEntry :=
    mkLogEntry now
               (js_or (ld_level logData) (JStr "info"))
               (ld_message logData)
               (ld_data logData)
               (js_or (ld_source logData) (JStr "system")) in
  let cache := (logCache pm ++ [logEntry])%list in
  let cache :=
    if (maxCacheSize pm <? Z.of_nat (length cache))%Z
    then slice (- maxCacheSize pm) cache
    else cache in
  let sent := if isPopupOpen pm then (broadcasts pm ++ [logEntry])%list
              else broadcasts pm in
  (logEntry, mkPopup cache (maxCacheSize pm) (isPopupOpen pm) sent).

(** A series of calls, oldest first. *)
Fixpoint addLogEntries (calls : list (string * LogData)) (pm : PopupManager)
  : PopupManager :=
  match calls with
  | [] => pm
  | (now, d) :: rest => addLogEntries rest (snd (addLogEntry now d pm))
  end.

(** The entry that a call builds. *)
Definition entry_of (call : string * LogData) : LogEntry :=
  fst (addLogEntry (fst call) (snd call) new_manager).

(** The last [n] elements of a list, in their order. *)
Definition last_entries {A : Type} (n : nat) (l : list A) : list A :=
  drop (length l - n) l.

(** [n] calls whose messages are the numbers 1 to [n]. *)
Definition numbered_calls (n : nat) : list (string * LogData) :=
  map (fun i => ("2025-01-01T00:00:00.000Z",
                 mkLogData JUndefined (JNum (Z.of_nat i)) JUndefined JUndefined))
      (seq 1 n).

End Popup.

(* ===================================================================== *)
(** * The popup manager of src/background-main.js, with its ports *)
(* ===================================================================== *)

Module Service.
Import JS Popup.

(** [statusCache] *)
Record StatusCache := mkStatus {
  neuroConnected : jsval;
  duolingoActive : jsval;
  lastEventTime : jsval;
  lastEventType : string
}.

(** A message posted to a port; a posted status is the cache as it was when
    posted. *)
Inductive port_message :=
| StatusUpdate (status : StatusCache)
| CachedLog (entry : LogEntry)
| NewLog (entry : LogEntry).

(** The object that [createPopupManager] returns, with the host around it.
    [manager] holds [logCache], [maxCacheSize] and [isPopupOpen];
    [popupPorts] is the [Set], in insertion order; [watched] are the ports
    that have a disconnect listener of the manager; [listeners] counts the
    calls of [setupPopupListeners], each of which adds a connect listener;
    the host numbers the ports it opens from [next_port]; [posted] collects
    the calls of [port.postMessage] that returned. *)
Record PopupService := mkService {
  manager : PopupManager;
  statusCache : StatusCache;
  popupPorts : list positive;
  watched : list positive;
  listeners : nat;
  next_port : positive;
  posted : list (positive * port_message)
}.

Definition createPopupManager : PopupService :=
  mkService new_manager
            (mkStatus (JBool false) (JBool false) JNull "None")
            [] [] 0 1 [].

Definition with_manager (pm : PopupManager) (s : PopupService)
  : PopupService :=
  mkService pm (statusCache s) (popupPorts s) (watched s) (listeners s)
            (next_port s) (posted s).

Definition with_status (st : StatusCache) (s : PopupService) : PopupService :=
  mkService (manager s) st (popupPorts s) (watched s) (listeners s)
            (next_port s) (posted s).

Definition with_ports (ports : list positive) (s : PopupService)
  : PopupService :=
  mkService (manager s) (statusCache s) ports (watched s) (listeners s)
            (next_port s) (posted s).

Definition set_open (b : bool) (s : PopupService) : PopupService :=
  with_manager (mkPopup (logCache (manager s)) (maxCacheSize (manager s)) b
                        (broadcasts (manager s))) s.

(** [port.postMessage(message)], when it returns. *)
Definition post (p : positive) (m : port_message) (s : PopupService)
  : PopupService :=
  mkService (manager s) (statusCache s) (popupPorts s) (watched s)
            (listeners s) (next_port s) (posted s ++ [(p, m)]).

(** [popupPorts.add(port)] *)
Definition add_port (p : positive) (ports : list positive) : list positive :=
  if existsb (Pos.eqb p) ports then ports else ports ++ [p].

(** [popupPorts.delete(port)] *)
Definition delete_port (p : positive) (ports : list positive)
  : list positive :=
  List.filter (fun q => negb (Pos.eqb p q)) ports.

(** [sendCachedData(port)] *)
Definition sendCachedData (p : positive) (s : PopupService) : PopupService :=
  let s := post p (StatusUpdate (statusCache s)) s in
  fold_left (fun s e => post p (CachedLog e) s) (logCache (manager s)) s.

(** [broadcastToPopup(message)]: [throws] tells of which ports
    [postMessage] throws in this call; such a port is dropped from the set. *)
Definition broadcastToPopup (throws : positive -> bool) (m : port_message)
  (s : PopupService) : PopupService :=
  fold_left (fun s p => if throws p
                        then with_ports (delete_port p (popupPorts s)) s
                        else post p m s)
            (popupPorts s) s.

(** [addLogEntry(logData)]: the code of [PopupManager.addLogEntry], with
    the broadcast of this manager. *)
Definition addLogEntry (throws : positive -> bool) (now : string)
  (logData : LogData) (s : PopupService) : LogEntry * PopupService :=
  let '(logEntry, pm) := Popup.addLogEntry now logData (manager s) in
  let s := with_manager pm s in
  (logEntry,
   if isPopupOpen pm then broadcastToPopup throws (NewLog logEntry) s else s).

(** [updateLastEvent(eventType, eventTime)], [now] being
    [eventTime.toISOString()]. *)
Definition updateLastEvent (throws : positive -> bool) (eventType now : string)
  (s : PopupService) : PopupService :=
  let st := statusCache s in
  let s := with_status (mkStatus (neuroConnected st) (duolingoActive st)
                                 (JStr now) eventType) s in
  if isPopupOpen (manager s)
  then broadcastToPopup throws (StatusUpdate (statusCache s)) s
  else s.

(** [logNeuroConnection(connected)] *)
Definition logNeuroConnection (throws1 throws2 : positive -> bool)
  (now1 now2 : string) (connected : jsval) (s : PopupService) : PopupService :=
  let st := statusCache s in
  let s := with_status (mkStatus connected (duolingoActive st)
                                 (lastEventTime st) (lastEventType st)) s in
  let d := mkLogData (JStr (if truthy connected then "info" else "warn"))
                     (JStr (if truthy connected
                            then "Neuro connection: Connected"
                            else "Neuro connection: Disconnected"))
                     JUndefined (JStr "neuro") in
  let s := snd (addLogEntry throws1 now1 d s) in
  updateLastEvent throws2
                  (if truthy connected then "Neuro Connected"
                   else "Neuro Disconnected") now2 s.

(** [logDuolingoActivity(active)] *)
Definition logDuolingoActivity (throws : positive -> bool) (now : string)
  (active : jsval) (s : PopupService) : PopupService :=
  let st := statusCache s in
  let s := with_status (mkStatus (neuroConnected st) active
                                 (lastEventTime st) (lastEventType st)) s in
  let d := mkLogData (JStr "info")
                     (JStr (if truthy active then "Duolingo: Active"
                            else "Duolingo: Not Detected"))
                     JUndefined (JStr "duolingo") in
  snd (addLogEntry throws now d s).

(** One connect listener, for a port of the given name. *)
Definition on_connect (name : string) (p : positive) (s : PopupService)
  : PopupService :=
  if String.eqb name "popup" then
    let s := set_open true s in
    let s := with_ports (add_port p (popupPorts s)) s in
    let s := sendCachedData p s in
    mkService (manager s) (statusCache s) (popupPorts s) (p :: watched s)
              (listeners s) (next_port s) (posted s)
  else s.

(** The disconnect listener of a port. *)
Definition on_disconnect (p : positive) (s : PopupService) : PopupService :=
  let s := with_ports (delete_port p (popupPorts s)) s in
  set_open (negb (Nat.eqb (length (popupPorts s)) 0)) s.

(** ** Events *)

Inductive call :=
| SetupPopupListeners
| PortConnects (name : string)
| PortDisconnects (p : positive)
| AddLogEntry (throws : positive -> bool) (now : string) (logData : LogData)
| UpdateLastEvent (throws : positive -> bool) (eventType now : string)
| LogNeuroConnection (throws1 throws2 : positive -> bool) (now1 now2 : string)
                     (connected : jsval)
| LogDuolingoActivity (throws : positive -> bool) (now : string)
                      (active : jsval).

(** A port that the host opens runs every connect listener; a port that
    goes away runs its disconnect listeners, one for each connect listener
    that watched it, and is not heard of again. *)
Definition serve (s : PopupService) (c : call) : PopupService :=
  match c with
  | SetupPopupListeners =>
      mkService (manager s) (statusCache s) (popupPorts s) (watched s)
                (S (listeners s)) (next_port s) (posted s)
  | PortConnects name =>
      let p := next_port s in
      let s := mkService (manager s) (statusCache s) (popupPorts s)
                         (watched s) (listeners s) (Pos.succ p) (posted s) in
      Nat.iter (listeners s) (on_connect name p) s
  | PortDisconnects p =>
      let n := length (List.filter (Pos.eqb p) (watched s)) in
      let s := mkService (manager s) (statusCache s) (popupPorts s)
                         (delete_port p (watched s)) (listeners s)
                         (next_port s) (posted s) in
      Nat.iter n (on_disconnect p) s
  | AddLogEntry throws now logData => snd (addLogEntry throws now logData s)
  | UpdateLastEvent throws eventType now =>
      updateLastEvent throws eventType now s
  | LogNeuroConnection throws1 throws2 now1 now2 connected =>
      logNeuroConnection throws1 throws2 now1 now2 connected s
  | LogDuolingoActivity throws now active =>
      logDuolingoActivity throws now active s
  end.

Definition serve_all (s : PopupService) (calls : list call) : PopupService :=
  fold_left serve calls s.

(** The log entries that a port was sent, cached or new, in order. *)
Definition seen (p : positive) (s : PopupService) : list LogEntry :=
  flat_map (fun pm => match pm with
                      | (q, CachedLog e) | (q, NewLog e) =>
                          if Pos.eqb p q then [e] else []
                      | _ => []
                      end) (posted s).

(** The log entry that a call adds, if it adds one. *)
Definition logged (c : call) : list LogEntry :=
  match c with
  | AddLogEntry _ now logData => [entry_of (now, logData)]
  | LogNeuroConnection _ _ now _ connected =>
      [entry_of (now,
                 mkLogData (JStr (if truthy connected then "info" else "warn"))
                           (JStr (if truthy connected
                                  then "Neuro connection: Connected"
                                  else "Neuro connection: Disconnected"))
                           JUndefined (JStr "neuro"))]
  | LogDuolingoActivity _ now active =>
      [entry_of (now,
                 mkLogData (JStr "info")
                           (JStr (if truthy active then "Duolingo: Active"
                                  else "Duolingo: Not Detected"))
                           JUndefined (JStr "duolingo"))]
  | _ => []
  end.

(** Whether a call leaves the port [p] alone: it is not its disconnection,
    and no [postMessage] on it throws. *)
Definition spares (p : positive) (c : call) : bool :=
  match c with
  | SetupPopupListeners | PortConnects _ => true
  | PortDisconnects q => negb (Pos.eqb p q)
  | AddLogEntry throws _ _ | UpdateLastEvent throws _ _
  | LogDuolingoActivity throws _ _ => negb (throws p)
  | LogNeuroConnection throws1 throws2 _ _ _ =>
      negb (throws1 p) && negb (throws2 p)
  end.

(** What holds of the manager whatever is called: the cache is within its
    bound, the flag is up while a port is in the set, and a port in the set
    is one that the host has opened and not seen go away. *)
Definition sound (s : PopupService) : Prop :=
  (length (logCache (manager s)) <= 200)%nat
  /\ maxCacheSize (manager s) = 200
  /\ (popupPorts s <> [] -> isPopupOpen (manager s) = true)
  /\ NoDup (popupPorts s)
  /\ (forall p, In p (popupPorts s) -> In p (watched s))
  /\ (forall p, In p (watched s) -> (p < next_port s)%positive)
  /\ (forall p m, In (p, m) (posted s) -> (p < next_port s)%positive).

End Service.

(* ===================================================================== *)
(** * src/main.js and src/actions.js: what the content script sends, and when *)
(* ===================================================================== *)

Module Content.

Definition DEBOUNCE_DELAY : Z := 1000.
Definition CONTEXT_CHANGE_THRESHOLD : Z := 5000.
Definition ACTION_REGISTRATION_THRESHOLD : Z := 10000.
Definition ANSWER_COOLDOWN_PERIOD : Z := 3000.

(** A call of [chrome.runtime.sendMessage], by the type of the message:
    [neuro_context] with its text and [silent], [neuro_register_actions]
    (always with the same three actions), [neuro_log] with its level and
    text. *)
Inductive message :=
| NeuroContext (text : string) (silent : bool)
| NeuroRegisterActions
| NeuroLog (level text : string).

(** The variables of the content script, the registrations whose promise is
    not settled, the retry timers that are armed, and the messages sent to
    the background, each with the time at which it was sent. *)
Record Page := mkPage {
  lastQuestionHash : string;
  lastContextSentTime : Z;
  lastActionRegistrationTime : Z;
  lastAnswerSubmittedTime : Z;
  awaiting : nat;
  retrying : nat;
  outbox : list (Z * message)
}.

Definition fresh : Page := mkPage "" 0 0 0 0 0 [].

Definition send (at_ : Z) (m : message) (pg : Page) : Page :=
  mkPage (lastQuestionHash pg) (lastContextSentTime pg)
         (lastActionRegistrationTime pg) (lastAnswerSubmittedTime pg)
         (awaiting pg) (retrying pg) (outbox pg ++ [(at_, m)]).

(** [sendContext(message, silent)] *)
Definition sendContext (at_ : Z) (text : string) (silent : bool) : Page -> Page :=
  send at_ (NeuroContext text (silent || false)).

(** [logToPopup(level, message)] *)
Definition logToPopup (at_ : Z) (level text : string) : Page -> Page :=
  send at_ (NeuroLog level ("[Content] " ++ text)).

(** [registerActions()], [now] being what its [Date.now()] reads. *)
Definition registerActions (now : Z) (pg : Page) : Page :=
  if (now - lastActionRegistrationTime pg <? ACTION_REGISTRATION_THRESHOLD)%Z then
    logToPopup now "debug" "Skipping action registration - registered recently" pg
  else
    let pg := mkPage (lastQuestionHash pg) (lastContextSentTime pg) now
                     (lastAnswerSubmittedTime pg) (awaiting pg) (retrying pg)
                     (outbox pg) in
    let pg := logToPopup now "info" "Registering actions with Neuro API" pg in
    let pg := send now NeuroRegisterActions pg in
    mkPage (lastQuestionHash pg) (lastContextSentTime pg)
           (lastActionRegistrationTime pg) (lastAnswerSubmittedTime pg)
           (S (awaiting pg)) (retrying pg) (outbox pg).

(** The [then] callback of the registration. *)
Definition registration_resolved (at_ : Z) (pg : Page) : Page :=
  let pg := sendContext at_
              "Actions registered with Neuro: submit_answer, get_question_context, continue_lesson"
              true pg in
  logToPopup at_ "info" "Actions successfully registered with Neuro" pg.

(** The [catch] callback of the registration: it arms the retry. *)
Definition registration_rejected (at_ : Z) (pg : Page) : Page :=
  let pg := logToPopup at_ "error"
              "Error registering actions with background script" pg in
  mkPage (lastQuestionHash pg) (lastContextSentTime pg)
         (lastActionRegistrationTime pg) (lastAnswerSubmittedTime pg)
         (awaiting pg) (S (retrying pg)) (outbox pg).

(** [updateLastAnswerSubmittedTime()] *)
Definition updateLastAnswerSubmittedTime (now : Z) (pg : Page) : Page :=
  let pg := mkPage (lastQuestionHash pg) (lastContextSentTime pg)
                   (lastActionRegistrationTime pg) now
                   (awaiting pg) (retrying pg) (outbox pg) in
  logToPopup now "debug" "Updated last answer submitted time" pg.

(** What the observer callback finds on the page: whether
    [context.question] is non-empty, [JSON.stringify(context)], the
    challenge type and the text that the callback builds for Neuro. *)
Record Snapshot := mkSnapshot {
  has_question : bool;
  hash : string;
  contextType : string;
  text : string
}.

(** The function that the observer arms with [setTimeout] on each batch of
    mutations; [now] is what its own [Date.now()] reads, or that of
    [registerActions] if it has none, [later] what [registerActions] reads
    after it. *)
Definition observe (snap : Snapshot) (now later : Z) (pg : Page) : Page :=
  if negb (has_question snap) then registerActions now pg
  else if negb (String.eqb (hash snap) (lastQuestionHash pg)) then
    if negb (lastAnswerSubmittedTime pg =? 0)%Z
       && (now - lastAnswerSubmittedTime pg <? ANSWER_COOLDOWN_PERIOD)%Z
    then logToPopup now "debug"
           "Delaying context send - answer was recently submitted" pg
    else if (CONTEXT_CHANGE_THRESHOLD <? now - lastContextSentTime pg)%Z then
      let pg := mkPage (hash snap) now (lastActionRegistrationTime pg)
                       (lastAnswerSubmittedTime pg) (awaiting pg)
                       (retrying pg) (outbox pg) in
      let pg := logToPopup now "info"
                  ("New " ++ contextType snap ++ " question detected") pg in
      let pg := sendContext now (text snap) false pg in
      registerActions later pg
    else pg
  else pg.

(** ** Events *)

Inductive event :=
| RegisterActions (now : Z)
| Observed (snap : Snapshot) (now later : Z)
| AnswerSubmitted (now : Z)
| RegistrationResolved (at_ : Z)
| RegistrationRejected (at_ : Z)
| RetryFires (at_ : Z).

(** [None] when the host cannot deliver the event: no registration is
    waiting for its answer, or no retry is armed. *)
Definition react (pg : Page) (ev : event) : option Page :=
  match ev with
  | RegisterActions now => Some (registerActions now pg)
  | Observed snap now later => Some (observe snap now later pg)
  | AnswerSubmitted now => Some (updateLastAnswerSubmittedTime now pg)
  | RegistrationResolved at_ =>
      match awaiting pg with
      | O => None
      | S n =>
          Some (registration_resolved at_
                  (mkPage (lastQuestionHash pg) (lastContextSentTime pg)
                          (lastActionRegistrationTime pg)
                          (lastAnswerSubmittedTime pg) n (retrying pg)
                          (outbox pg)))
      end
  | RegistrationRejected at_ =>
      match awaiting pg with
      | O => None
      | S n =>
          Some (registration_rejected at_
                  (mkPage (lastQuestionHash pg) (lastContextSentTime pg)
                          (lastActionRegistrationTime pg)
                          (lastAnswerSubmittedTime pg) n (retrying pg)
                          (outbox pg)))
      end
  | RetryFires at_ =>
      match retrying pg with
      | O => None
      | S n =>
          Some (send at_ NeuroRegisterActions
                  (mkPage (lastQuestionHash pg) (lastContextSentTime pg)
                          (lastActionRegistrationTime pg)
                          (lastAnswerSubmittedTime pg) (awaiting pg) n
                          (outbox pg)))
      end
  end.

Fixpoint play (pg : Page) (evs : list event) : option Page :=
  match evs with
  | [] => Some pg
  | ev :: rest =>
      match react pg ev with
      | Some pg' => play pg' rest
      | None => None
      end
  end.

(** The clock readings of an event, in the order in which they are made. *)
Definition readings (ev : event) : list Z :=
  match ev with
  | RegisterActions now | AnswerSubmitted now => [now]
  | Observed _ now later => [now; later]
  | RegistrationResolved at_ | RegistrationRejected at_ | RetryFires at_ =>
      [at_]
  end.

(** Each element stands in [R] to the next. *)
Fixpoint chained (R : Z -> Z -> Prop) (ts : list Z) : Prop :=
  match ts with
  | t1 :: (t2 :: _) as rest => R t1 t2 /\ chained R rest
  | _ => True
  end.

(** The clock does not run backwards, and reads a time after the epoch. *)
Definition clocked (evs : list event) : Prop :=
  chained Z.le (1 :: flat_map readings evs).

(** The times at which the observer sent a context: the contexts that are
    not silent. *)
Definition context_times (box : list (Z * message)) : list Z :=
  flat_map (fun tm => match tm with
                      | (t, NeuroContext _ false) => [t]
                      | _ => []
                      end) box.

(** The times at which [registerActions] let a registration through, each
    marked by its log line. *)
Definition registration_times (box : list (Z * message)) : list Z :=
  flat_map (fun tm => match tm with
                      | (t, NeuroLog level text) =>
                          if String.eqb level "info"
                             && String.eqb text "[Content] Registering actions with Neuro API"
                          then [t] else []
                      | _ => []
                      end) box.

(** The times at which an answer was submitted, each marked by its log
    line. *)
Definition answer_times (box : list (Z * message)) : list Z :=
  flat_map (fun tm => match tm with
                      | (t, NeuroLog level text) =>
                          if String.eqb level "debug"
                             && String.eqb text "[Content] Updated last answer submitted time"
                          then [t] else []
                      | _ => []
                      end) box.

(** A context sent by the observer is at least the cooldown after every
    answer submitted before it. *)
Definition cooled (box : list (Z * message)) : Prop :=
  forall (before after : list (Z * message)) (a c : Z) (m : string),
    box = (before ++ after)%list ->
    In a (answer_times before) ->
    In (c, NeuroContext m false) after ->
    ANSWER_COOLDOWN_PERIOD <= c - a.

(** What the variables of the page hold between events, at a time [t]
    that the clock has reached: no message was sent after [t]; the times
    of the last context and of the last registration are what the
    variables say, 0 if there was none; no answer was submitted after the
    time in its variable; and the messages sent are paced. *)
Definition paced (t : Z) (pg : Page) : Prop :=
  0 < t
  /\ Forall (fun tm => 0 < fst tm <= t) (outbox pg)
  /\ lastContextSentTime pg = List.last (context_times (outbox pg)) 0
  /\ lastActionRegistrationTime pg
     = List.last (registration_times (outbox pg)) 0
  /\ Forall (fun a => a <= lastAnswerSubmittedTime pg)
            (answer_times (outbox pg))
  /\ chained (fun a b => CONTEXT_CHANGE_THRESHOLD < b - a)
             (context_times (outbox pg))
  /\ chained (fun a b => ACTION_REGISTRATION_THRESHOLD <= b - a)
             (registration_times (outbox pg))
  /\ cooled (outbox pg).

End Content.

(* ===================================================================== *)
(** * src/main.js and src/actions.js: the actions that Neuro asks for *)
(* ===================================================================== *)

Module Actions.
Import JS MessageHandler.
Local Open Scope list_scope.

(** What the handlers find on the page: the challenge type that
    [extractQuestionContext] reports, whether its [options] and its
    [tokens] are non-empty, and whether the button
    [[data-test="player-next"]] is there.  The tokens of a context are
    strings (the cleaned text of the token buttons). *)
Record Dom := mkDom {
  contextType : string;
  has_options : bool;
  has_tokens : bool;
  next_button : bool
}.

(** What a handler does that can be seen from outside the page, in order:
    a message sent to the background with [chrome.runtime.sendMessage]
    (results and the force request), [sendContext] (its text left out),
    [logToPopup], the click on the next button,
    [updateLastAnswerSubmittedTime], and the timer armed for
    [forceNeuroToContinue].  Selecting an option and typing into the text
    input leave no trace here. *)
Inductive act :=
| Sent (m : jsval)
| ContextSent (silent : bool)
| Logged (level text : string)
| NextClicked
| AnswerTimeUpdated
| ForceArmed.

(** [{ type: 'neuro_action_result', data: { id, success, message } }] *)
Definition result_message (id : jsval) (success : bool) (text : string)
  : jsval :=
  JObj [("type", JStr "neuro_action_result");
        ("data", JObj [("id", id);
                       ("success", JBool success);
                       ("message", JStr text)])].

(** The message of [forceNeuroToContinue]. *)
Definition force_message : jsval :=
  JObj [("type", JStr "neuro_force_action");
        ("data", JObj [("state", JStr "answer_submitted");
                       ("query", JStr "Please continue to the next question");
                       ("ephemeral_context", JBool true);
                       ("action_names", JArr [JStr "continue_lesson";
                                              JStr "get_question_context"])])].

(** [forceNeuroToContinue()] *)
Definition forceNeuroToContinue : list act :=
  [Logged "info" "Forcing Neuro to continue to next question";
   Sent force_message].

(** [continue_lesson(actionId)] *)
Definition continue_lesson (dom : Dom) (actionId : jsval) : list act :=
  if next_button dom then
    [NextClicked; Sent (result_message actionId true "Continued lesson successfully")]
  else [Sent (result_message actionId false "Continue button not found")].

(** [get_question_context(actionId)] *)
Definition get_question_context (actionId : jsval) : list act :=
  [ContextSent false;
   Sent (result_message actionId true "Question context retrieved successfully")].

(** [typeof v === 'string'] *)
Definition is_text (v : jsval) : bool :=
  match v with
  | JStr _ => true
  | _ => false
  end.

(** [(typeof parameters === 'string') ? parameters : parameters?.answer] *)
Definition answer_of (parameters : jsval) : jsval :=
  match parameters with
  | JStr _ => parameters
  | JUndefined | JNull => JUndefined
  | _ => field "answer" parameters
  end.

(** [v === undefined || v === null] *)
Definition nullish (v : jsval) : bool :=
  match v with
  | JUndefined | JNull => true
  | _ => false
  end.

(** The [switch (contextType)] of [submit_answer]: whether it throws.  The
    first option is compared with [answer.toLowerCase()]; the answer of a
    tap challenge is split with [answer.split(',')], and each of its parts
    is looked up with [tokens.find(btn => btn.innerText.trim() ...)], where
    a token is a string, so that [btn.innerText] is [undefined]; on a text
    challenge (the type that [extractQuestionContext] reports when it finds
    the text input) [textInput.value = answer] turns the answer into a
    string. *)
Definition selection_throws (dom : Dom) (answer : jsval) : bool :=
  if String.eqb (contextType dom) "choice" then
    has_options dom && negb (is_text answer)
  else if String.eqb (contextType dom) "tap" then
    negb (is_text answer) || has_tokens dom
  else if String.eqb (contextType dom) "text" then
    negb (stringifies answer)
  else false.

(** [submit_answer(parameters, actionId)]: what it did, and whether it
    returned or threw. *)
Definition submit_answer (dom : Dom) (parameters actionId : jsval)
  : outcome unit * list act :=
  if negb (stringifies actionId) then (Throw TypeError, [])
  else
    let acts := [Logged "info" "Submitting answer for action"] in
    let answer := answer_of parameters in
    if nullish answer then
      (Return tt,
       acts ++ [Logged "error" "No answer provided by Neuro";
                ContextSent true;
                Sent (result_message actionId false
                                     "No answer data provided by Neuro")])
    else if selection_throws dom answer then (Throw TypeError, acts)
    else if next_button dom then
      let acts := acts ++ [NextClicked] in
      if negb (stringifies answer) then (Throw TypeError, acts)
      else
        (Return tt,
         acts ++ [Logged "info" "Answer submitted";
                  AnswerTimeUpdated;
                  ForceArmed;
                  Sent (result_message actionId true
                                       "Answer submitted successfully")])
    else
      (Return tt,
       acts ++ [Logged "warn" "Submit button not found after selecting answer";
                Sent (result_message actionId true
                                     "Answer submitted successfully")]).

(** The listener of [chrome.runtime.onMessage] in src/main.js.  The text of
    a log line is built before [logToPopup] is called, outside its [try].
    On a string payload that is JSON outside the fragment [JSON_parse]
    answers [None], and the definition takes the [catch] of the listener
    where the code goes on to the handler: what is stated below about a
    string payload is stated for one that [JSON_parse] reads or that
    [JSON_valid] turns down, unless it holds of both paths. *)
Definition on_message (dom : Dom) (request : jsval)
  : outcome unit * list act :=
  match get_prop request "type", get_prop request "data" with
  | Return type, Return data =>
      if negb (stringifies type) then (Throw TypeError, [])
      else
        let acts := [Logged "debug" "Received message type"] in
        if is_string "neuro_action" type && truthy data then
          let id := field "id" data in
          let name := field "name" data in
          let payload := field "data" data in
          if negb (stringifies name) then (Throw TypeError, acts)
          else
            let acts := acts ++ [Logged "info" "Executing action"] in
            let parsed :=
              match payload with
              | JStr text =>
                  match JSON_parse text with
                  | Some v => Some (v, [Logged "debug" "Successfully parsed action parameters"])
                  | None => None
                  end
              | _ => Some (payload, [])
              end in
            match parsed with
            | None =>
                (Return tt,
                 acts ++ [Logged "error" "Failed to parse action data";
                          Sent (result_message id false
                                               "Failed to parse action data")])
            | Some (parameters, more) =>
                let acts := acts ++ more in
                if is_string "submit_answer" name then
                  let '(r, done) := submit_answer dom parameters id in
                  (r, acts ++ done)
                else if is_string "get_question_context" name then
                  (Return tt, acts ++ get_question_context id)
                else if is_string "continue_lesson" name then
                  (Return tt, acts ++ continue_lesson dom id)
                else (Return tt, acts)
            end
        else (Return tt, acts)
  | _, _ => (Throw TypeError, [])
  end.

(** The results that were sent: the messages of type [neuro_action_result]. *)
Definition results (acts : list act) : list jsval :=
  flat_map (fun a => match a with
                     | Sent m =>
                         if is_string "neuro_action_result" (field "type" m)
                         then [m] else []
                     | _ => []
                     end) acts.

(** Whether the next button was clicked. *)
Definition clicked (acts : list act) : bool :=
  existsb (fun a => match a with NextClicked => true | _ => false end) acts.

(** The parameters that the listener hands to a handler: the payload of the
    action, parsed if it is a string. *)
Definition parameters_of (payload : jsval) : option jsval :=
  match payload with
  | JStr text => JSON_parse text
  | _ => Some payload
  end.

(** A payload on which the [JSON.parse] of the listener throws: a string
    that is not JSON. *)
Definition unparsable (payload : jsval) : bool :=
  match payload with
  | JStr text => negb (JSON_valid text)
  | _ => false
  end.

End Actions.

(* ===================================================================== *)
(** * The reconnection backoff *)
(* ===================================================================== *)

Module Backoff.
Import JS Neuro.

(** The exponent that [scheduleReconnect] feeds to [Math.pow], for an
    attempt count of at least one. *)
Lemma exponent_cases (a : Z) :
  1 <= a ->
  exists k : nat, (k <= 8)%nat /\ Z.min (a - 1) 8 = Z.of_nat k.
Proof.
  intros Ha. exists (Z.to_nat (Z.min (a - 1) 8)). split; lia.
Qed.

Lemma exponent_mono (a b : Z) : a <= b -> Z.min (a - 1) 8 <= Z.min (b - 1) 8.
Proof. lia. Qed.

(** The uncapped delay grows with the exponent; nine exponents occur. *)
Lemma raw_delay_mono (j k : nat) :
  (j <= k)%nat -> (k <= 8)%nat -> (raw_delay j <= raw_delay k)%Q.
Proof.
  intros Hjk Hk. apply Qle_bool_iff.
  do 9 (destruct k as [|k]; [ do 9 (destruct j as [|j]; [ reflexivity || lia | ]); lia | ]).
  lia.
Qed.

Lemma reconnect_delay_raw (a : Z) (k : nat) :
  Z.min (a - 1) 8 = Z.of_nat k ->
  reconnect_delay a = Qmin CONFIG.MAX_RECONNECT_INTERVAL (raw_delay k).
Proof. intros H. unfold reconnect_delay, raw_delay. now rewrite H. Qed.

Lemma reconnect_delay_mono (a b : Z) :
  1 <= a -> a <= b -> (reconnect_delay a <= reconnect_delay b)%Q.
Proof.
  intros Ha Hab.
  destruct (exponent_cases a Ha) as (j & Hj & Ej).
  destruct (exponent_cases b ltac:(lia)) as (k & Hk & Ek).
  rewrite (reconnect_delay_raw a j Ej), (reconnect_delay_raw b k Ek).
  apply Q.min_le_compat_l, raw_delay_mono; [ | exact Hk ].
  pose proof (exponent_mono a b Hab). lia.
Qed.

Lemma reconnect_delay_bounded (a : Z) :
  (reconnect_delay a <= CONFIG.MAX_RECONNECT_INTERVAL)%Q.
Proof. apply Q.le_min_l. Qed.

(** What [scheduleReconnect] leaves behind: one more attempt, and a pending
    timeout under the handle it stores, with the delay of the new count. *)
Lemma scheduleReconnect_spec (w : World) :
  let w' := scheduleReconnect w in
  reconnectAttempts (conn w') = reconnectAttempts (conn w) + 1
  /\ reconnectTimer (conn w') = Some (next_timer w)
  /\ timers w' !! next_timer w
     = Some (Timeout (reconnect_delay (reconnectAttempts (conn w) + 1))).
Proof.
  unfold scheduleReconnect.
  destruct (reconnectTimer (conn w)); cbn; rewrite lookup_insert_eq; auto.
Qed.

Lemma stopHeartbeat_attempts (w : World) :
  reconnectAttempts (conn (stopHeartbeat w)) = reconnectAttempts (conn w).
Proof. unfold stopHeartbeat. now destruct (heartbeatInterval (conn w)). Qed.

Lemma handleClose_attempts (w : World) :
  reconnectAttempts (conn (handleClose w)) = reconnectAttempts (conn w) + 1.
Proof.
  unfold handleClose.
  match goal with |- context [scheduleReconnect ?x] =>
    destruct (scheduleReconnect_spec x) as (-> & _) end.
  f_equal.
  destruct (isConnected (conn w)); cbn.
  - unfold when_popup.
    repeat match goal with
           | |- context [if ?b then _ else _] => destruct b; cbn
           end; now rewrite stopHeartbeat_attempts.
  - now rewrite stopHeartbeat_attempts.
Qed.

(** C3. Every close event makes [scheduleReconnect] count one more attempt
    and arm a timer whose delay is
    [min(60000, 10000 * 1.5^min(attempts-1, 8))] of the new count; the
    delays of attempts 1 to 4 are 10000, 15000, 22500 and 33750 ms; the
    delay never decreases as the count grows and never exceeds 60000 ms. *)
Theorem backoff_delay_schedule :
  (forall w : World,
      let w' := handleClose w in
      let n := reconnectAttempts (conn w) + 1 in
      reconnectAttempts (conn w') = n
      /\ exists id, reconnectTimer (conn w') = Some id
                    /\ timers w' !! id = Some (Timeout (reconnect_delay n)))
  /\ (forall n : Z,
         reconnect_delay n
         = Qmin 60000 (10000 * Qpower (3 # 2) (Z.min (n - 1) 8)))
  /\ (reconnect_delay 1 == 10000 /\ reconnect_delay 2 == 15000
      /\ reconnect_delay 3 == 22500 /\ reconnect_delay 4 == 33750)%Q
  /\ (forall a b : Z, 1 <= a -> a <= b ->
                      (reconnect_delay a <= reconnect_delay b)%Q)
  /\ (forall a : Z, (reconnect_delay a <= 60000)%Q).
Proof.
  split; [ | split; [ | split; [ | split ] ] ].
  - intros w w' n. split; [ apply handleClose_attempts | ].
    subst w' n. unfold handleClose.
    match goal with |- context [scheduleReconnect ?x] =>
      destruct (scheduleReconnect_spec x) as (Ha & Ht & Hd);
      exists (next_timer x); split; [ exact Ht | ];
      rewrite Hd; do 3 f_equal end.
    pose proof (handleClose_attempts w) as Hc. unfold handleClose in Hc.
    rewrite Ha in Hc. lia.
  - reflexivity.
  - repeat split; reflexivity.
  - exact reconnect_delay_mono.
  - exact reconnect_delay_bounded.
Qed.

Lemma backoff_delay_schedule_witness :
  (reconnect_delay 2 <= reconnect_delay 7)%Q.
Proof.
  destruct backoff_delay_schedule as (_ & _ & _ & Hmono & _).
  apply (Hmono 2 7); lia.
Defined.

End Backoff.

(* ===================================================================== *)
(** * Notifications *)
(* ===================================================================== *)

Module Notifications.
Import JS Neuro.

#[local] Arguments notification_count : simpl never.
#[local] Arguments serialize : simpl never.
#[local] Arguments JSON_parse : simpl never.

Lemma notification_count_snoc (id : string) (es : list effect) (e : effect) :
  notification_count id (es ++ [e])
  = (notification_count id es
     + match e with
       | NotificationsCreate id' => if String.eqb id id' then 1 else 0
       | _ => 0
       end)%nat.
Proof.
  unfold notification_count. rewrite List.filter_app, length_app. f_equal.
  destruct e; cbn; try reflexivity. now destruct (String.eqb id id0).
Qed.

(** Case analysis on every test a method makes, then the count of the
    effects it appended. *)
Ltac branches :=
  repeat match goal with
         | |- context [match ?x with _ => _ end] => destruct x eqn:?; cbn in *
         end.

Ltac count_effects :=
  cbn; branches; rewrite ?notification_count_snoc; cbn; try lia.

Lemma handleOpen_notifications (id : string) (now : Z) (w : World) :
  notification_count id (effects (handleOpen now w))
  = notification_count id (effects w).
Proof.
  unfold handleOpen, startHeartbeat, stopHeartbeat, sendStartup, when_popup,
    showReconnectionNotification, log, is_open.
  count_effects.
Qed.

(** C4. [handleOpen] never shows the "connection restored" notification: it
    resets [reconnectAttempts] to 0 before it tests [reconnectAttempts > 1].
    So the notification is missing also when the socket opens after two or
    more failed attempts. *)
Theorem restored_notification_never_shown :
  (forall (now : Z) (w : World),
      notification_count NOTIFICATION_IDS.RECONNECT (effects (handleOpen now w))
      = notification_count NOTIFICATION_IDS.RECONNECT (effects w))
  /\ exists w w' : World,
      run (init true) failed_attempts = Some w
      /\ reconnectAttempts (conn w) = 3
      /\ step w (SocketOpen 4 50000) = Some w'
      /\ isConnected (conn w') = true
      /\ notification_count NOTIFICATION_IDS.RECONNECT (effects w') = 0%nat.
Proof.
  split.
  - intros now w. apply handleOpen_notifications.
  - eexists. eexists.
    split; [ vm_compute; reflexivity | ].
    split; [ reflexivity | ].
    split; [ vm_compute; reflexivity | ].
    split; reflexivity.
Qed.

Lemma quiet_init (popup : bool) : quiet (init popup).
Proof. split; [ discriminate | reflexivity ]. Qed.

(** [quiet] looks at the connection and at the effects only. *)
Lemma quiet_ext (w w' : World) :
  conn w' = conn w -> effects w' = effects w -> quiet w -> quiet w'.
Proof. unfold quiet. now intros -> ->. Qed.

(** Each method keeps [quiet]: [handleOpen] zeroes the count, [handleClose]
    tests it only where [wasConnected] holds, and a call of [connect] that
    does not throw leaves it alone. *)
Ltac quiet_method w :=
  let Hzero := fresh "Hzero" in
  let Hcount := fresh "Hcount" in
  intros [Hzero Hcount];
  destruct w as [[sock ic lmt ra rt cl hb pm pend] socks tims ns nt es];
  unfold quiet; cbn in Hzero, Hcount;
  unfold connect, disconnect, sendToNeuro, handleOpen, handleClose,
    handleError, handleMessage, heartbeat_tick, scheduleReconnect,
    startHeartbeat, stopHeartbeat, sendStartup, when_popup, ws_close,
    showReconnectionNotification, showDisconnectionNotification,
    setTimeout, setInterval, clearTimer, log, is_open;
  cbn;
  try (destruct ic; [ rewrite (Hzero eq_refl) in * | ]);
  cbn; branches; cbn;
  rewrite ?notification_count_snoc; cbn;
  (split; [ first [ discriminate | reflexivity | assumption ] | lia ]).

Lemma quiet_connect (w : World) : quiet w -> quiet (connect false w).
Proof. quiet_method w. Qed.

Lemma quiet_disconnect (w : World) : quiet w -> quiet (disconnect w).
Proof. quiet_method w. Qed.

Lemma quiet_sendToNeuro (msg : jsval) (w : World) :
  quiet w -> quiet (snd (sendToNeuro msg w)).
Proof. quiet_method w. Qed.

Lemma quiet_handleOpen (now : Z) (w : World) :
  quiet w -> quiet (handleOpen now w).
Proof. quiet_method w. Qed.

Lemma quiet_handleClose (w : World) : quiet w -> quiet (handleClose w).
Proof. quiet_method w. Qed.

Lemma quiet_handleError (w : World) : quiet w -> quiet (handleError w).
Proof. quiet_method w. Qed.

Lemma quiet_handleMessage (now : Z) (data : string) (w : World) :
  quiet w -> quiet (handleMessage now data w).
Proof. quiet_method w. Qed.

Lemma quiet_heartbeat_tick (now : Z) (w : World) :
  quiet w -> quiet (heartbeat_tick now w).
Proof. quiet_method w. Qed.

Lemma quiet_step (w w' : World) (ev : event) :
  ctor_ok ev = true -> quiet w -> step w ev = Some w' -> quiet w'.
Proof.
  intros Hok Hq Hstep.
  destruct ev as [[|] | | msg | s now | s | s | s now data | id [|] | id now];
    try discriminate Hok; unfold step in Hstep;
    repeat match type of Hstep with
           | match ?x with _ => _ end = _ => destruct x; try discriminate Hstep
           end;
    injection Hstep as <-.
  - now apply quiet_connect.
  - now apply quiet_disconnect.
  - now apply quiet_sendToNeuro.
  - apply quiet_handleOpen. revert Hq. now apply quiet_ext.
  - apply quiet_handleClose. revert Hq. now apply quiet_ext.
  - apply quiet_handleClose. revert Hq. now apply quiet_ext.
  - apply quiet_handleClose. revert Hq. now apply quiet_ext.
  - now apply quiet_handleError.
  - now apply quiet_handleError.
  - now apply quiet_handleError.
  - now apply quiet_handleMessage.
  - now apply quiet_handleMessage.
  - apply quiet_connect. revert Hq. now apply quiet_ext.
  - now apply quiet_heartbeat_tick.
Qed.

Lemma quiet_run (evs : list event) (w w' : World) :
  forallb ctor_ok evs = true -> quiet w -> run w evs = Some w' -> quiet w'.
Proof.
  revert w. induction evs as [| ev evs IH]; intros w Hok Hq Hrun; cbn in *.
  - now injection Hrun as <-.
  - apply andb_true_iff in Hok as [Hev Hevs].
    destruct (step w ev) as [w1|] eqn:Hstep; [ | discriminate ].
    apply (IH w1); [ exact Hevs | | exact Hrun ].
    now apply (quiet_step w w1 ev).
Qed.

(** C1. The "connection lost" escalation of [handleClose] never fires: it
    sits under [if (wasConnected)], and a connection that was connected went
    through [handleOpen], which zeroed [reconnectAttempts]; the test
    [reconnectAttempts >= MAX_RECONNECT_ATTEMPTS] then reads 0.  In
    particular five quick open/close rounds raise no notification, where the
    fifth closure should. *)
Theorem lost_notification_never_shown (popup : bool) (evs : list event)
  (w : World) :
  forallb ctor_ok evs = true ->
  run (init popup) evs = Some w ->
  notification_count NOTIFICATION_IDS.DISCONNECT (effects w) = 0%nat
  /\ (isConnected (conn w) = true -> reconnectAttempts (conn w) = 0).
Proof.
  intros Hok Hrun.
  destruct (quiet_run evs (init popup) w Hok (quiet_init popup) Hrun).
  auto.
Qed.

Lemma lost_notification_never_shown_witness :
  exists w : World,
    run (init true) five_quick_closures = Some w
    /\ notification_count NOTIFICATION_IDS.DISCONNECT (effects w) = 0%nat.
Proof.
  eexists. split.
  - vm_compute. reflexivity.
  - eapply (lost_notification_never_shown true five_quick_closures).
    + reflexivity.
    + vm_compute. reflexivity.
Defined.

End Notifications.

(* ===================================================================== *)
(** * Timers *)
(* ===================================================================== *)

Module Timers.
Import JS Neuro.

#[local] Arguments serialize : simpl never.
#[local] Arguments JSON_parse : simpl never.
#[local] Arguments reconnect_delay : simpl never.

(** Induction over the runs of the connection. *)
Lemma run_invariant (P : World -> Prop) :
  (forall w ev w', P w -> step w ev = Some w' -> P w') ->
  forall evs w w', P w -> run w evs = Some w' -> P w'.
Proof.
  intros Hstep evs. induction evs as [| ev evs IH]; intros w w' Hw Hrun.
  - cbn in Hrun. now injection Hrun as <-.
  - cbn in Hrun. destruct (step w ev) as [w1|] eqn:E; [ | discriminate ].
    eapply IH; [ eapply Hstep; eassumption | exact Hrun ].
Qed.

Lemma reachable_invariant (P : World -> Prop) :
  (forall popup, P (init popup)) ->
  (forall w ev w', P w -> step w ev = Some w' -> P w') ->
  forall w, reachable w -> P w.
Proof.
  intros Hinit Hstep w (popup & evs & Hrun).
  eapply run_invariant; [ exact Hstep | apply Hinit | exact Hrun ].
Qed.

Lemma reachable_step (w w' : World) (ev : event) :
  reachable w -> step w ev = Some w' -> reachable w'.
Proof.
  intros (popup & evs & Hrun) Hstep. exists popup, (evs ++ [ev])%list.
  revert Hrun. generalize (init popup). induction evs as [| e evs IH];
    intros w0 Hrun; cbn in *.
  - injection Hrun as ->. now rewrite Hstep.
  - destruct (step w0 e); [ now apply IH | discriminate ].
Qed.

Lemma elem_of_pending (w : World) (id : positive) :
  id ∈ pending_timeouts w <-> exists d, timers w !! id = Some (Timeout d).
Proof.
  unfold pending_timeouts. rewrite elem_of_dom. split.
  - intros [k Hk]. apply map_lookup_filter_Some in Hk as [Hk Ht].
    destruct k; [ eauto | discriminate ].
  - intros [d Hd]. exists (Timeout d). now apply map_lookup_filter_Some.
Qed.

Lemma elem_of_running (w : World) (id : positive) :
  id ∈ running_intervals w <-> exists p, timers w !! id = Some (Interval p).
Proof.
  unfold running_intervals. rewrite elem_of_dom. split.
  - intros [k Hk]. apply map_lookup_filter_Some in Hk as [Hk Ht].
    destruct k; [ discriminate | eauto ].
  - intros [p Hp]. exists (Interval p). now apply map_lookup_filter_Some.
Qed.

(** Reading a timer table that the methods have inserted into and deleted
    from. *)
Ltac lookups H :=
  cbn in H;
  repeat (rewrite lookup_insert in H || rewrite lookup_delete in H);
  repeat case_decide; simplify_eq.

Ltac unfold_methods :=
  unfold connect, disconnect, sendToNeuro, handleOpen, handleClose,
    handleError, handleMessage, heartbeat_tick, scheduleReconnect,
    startHeartbeat, stopHeartbeat, sendStartup, when_popup, ws_close,
    showReconnectionNotification, showDisconnectionNotification,
    setTimeout, setInterval, clearTimer, log, is_open in *.

Ltac branches_in H :=
  repeat match type of H with
         | context [match ?x with _ => _ end] => destruct x eqn:?; cbn in H
         end.

Lemma timers_owned_init (popup : bool) : timers_owned (init popup).
Proof. intros id k H. cbn in H. now rewrite lookup_empty in H. Qed.

(** [timers_owned] looks at the timer table and the two handles only. *)
Lemma timers_owned_ext (w w' : World) :
  timers w' = timers w ->
  reconnectTimer (conn w') = reconnectTimer (conn w) ->
  heartbeatInterval (conn w') = heartbeatInterval (conn w) ->
  timers_owned w -> timers_owned w'.
Proof. unfold timers_owned. now intros -> -> ->. Qed.

(** Each method keeps [timers_owned]: it arms a timer only after clearing
    the handle that the new one replaces. *)
Ltac owned_method w :=
  let Hown := fresh "Hown" in
  let Hi := fresh "Hi" in
  intros Hown;
  destruct w as [[sock ic lmt ra rt cl hb pm pend] socks tims ns nt es];
  unfold timers_owned in *; cbn in Hown;
  unfold_methods; cbn;
  Notifications.branches; cbn;
  intros i k Hi; lookups Hi; cbn;
  try (specialize (Hown _ _ Hi); cbn in Hown);
  try reflexivity;
  try solve [ destruct k; cbn in *; congruence ].

Lemma owned_clearTimer (id : positive) (w : World) :
  timers_owned w -> timers_owned (clearTimer id w).
Proof. owned_method w. Qed.

Lemma owned_connect (thr : bool) (w : World) :
  timers_owned w -> timers_owned (connect thr w).
Proof. owned_method w. Qed.

Lemma owned_disconnect (w : World) :
  timers_owned w -> timers_owned (disconnect w).
Proof. owned_method w. Qed.

Lemma owned_sendToNeuro (msg : jsval) (w : World) :
  timers_owned w -> timers_owned (snd (sendToNeuro msg w)).
Proof. owned_method w. Qed.

Lemma owned_handleOpen (now : Z) (w : World) :
  timers_owned w -> timers_owned (handleOpen now w).
Proof. owned_method w. Qed.

Lemma owned_handleClose (w : World) :
  timers_owned w -> timers_owned (handleClose w).
Proof. owned_method w. Qed.

Lemma owned_handleError (w : World) :
  timers_owned w -> timers_owned (handleError w).
Proof. owned_method w. Qed.

Lemma owned_handleMessage (now : Z) (data : string) (w : World) :
  timers_owned w -> timers_owned (handleMessage now data w).
Proof. owned_method w. Qed.

Lemma owned_heartbeat_tick (now : Z) (w : World) :
  timers_owned w -> timers_owned (heartbeat_tick now w).
Proof. owned_method w. Qed.

Lemma timers_owned_step (w w' : World) (ev : event) :
  timers_owned w -> step w ev = Some w' -> timers_owned w'.
Proof.
  intros Hown Hstep.
  destruct ev as [thr | | msg | s now | s | s | s now data | id thr | id now];
    unfold step in Hstep;
    repeat match type of Hstep with
           | match ?x with _ => _ end = _ => destruct x; try discriminate Hstep
           end;
    injection Hstep as <-.
  - now apply owned_connect.
  - now apply owned_disconnect.
  - now apply owned_sendToNeuro.
  - apply owned_handleOpen. revert Hown. now apply timers_owned_ext.
  - apply owned_handleClose. revert Hown. now apply timers_owned_ext.
  - apply owned_handleClose. revert Hown. now apply timers_owned_ext.
  - apply owned_handleClose. revert Hown. now apply timers_owned_ext.
  - now apply owned_handleError.
  - now apply owned_handleError.
  - now apply owned_handleError.
  - now apply owned_handleMessage.
  - now apply owned_handleMessage.
  - now apply owned_connect, owned_clearTimer.
  - now apply owned_heartbeat_tick.
Qed.

Lemma timers_owned_reachable (w : World) : reachable w -> timers_owned w.
Proof.
  apply reachable_invariant; [ apply timers_owned_init | ].
  intros ? ? ?; apply timers_owned_step.
Qed.

Lemma size_at_most_one (X : gset positive) (o : option positive) :
  (forall i, i ∈ X -> o = Some i) -> (size X <= 1)%nat.
Proof.
  intros H. destruct o as [j|].
  - rewrite <- (size_singleton (C := gset positive) j).
    apply subseteq_size. intros i Hi. apply H in Hi. set_solver.
  - replace X with (∅ : gset positive); [ rewrite size_empty; lia | ].
    apply set_eq. intros i. split; [ set_solver | ].
    intros Hi. now apply H in Hi.
Qed.

Lemma pending_at_most_one (w : World) :
  timers_owned w -> (size (pending_timeouts w) <= 1)%nat.
Proof.
  intros Hown. apply (size_at_most_one _ (reconnectTimer (conn w))).
  intros i Hi. apply elem_of_pending in Hi as [d Hd]. exact (Hown _ _ Hd).
Qed.

Lemma running_at_most_one (w : World) :
  timers_owned w -> (size (running_intervals w) <= 1)%nat.
Proof.
  intros Hown. apply (size_at_most_one _ (heartbeatInterval (conn w))).
  intros i Hi. apply elem_of_running in Hi as [d Hd]. exact (Hown _ _ Hd).
Qed.

(** A timer table that held owned timers only, after a method has cleared
    the handle it holds and armed a fresh timer. *)
Ltac owned_lookups Hown H :=
  lookups H;
  try (specialize (Hown _ _ H); cbn in Hown; congruence).

Ltac fresh_timer_only Hown :=
  Notifications.branches; cbn;
  (split;
   [ let d := fresh "d" in
     let Hd := fresh "Hd" in
     intros [d Hd]; owned_lookups Hown Hd; reflexivity
   | intros ->; rewrite lookup_insert_eq; eauto ]).

Lemma scheduleReconnect_pending (w : World) :
  timers_owned w ->
  pending_timeouts (scheduleReconnect w) = {[ next_timer w ]}.
Proof.
  intros Hown. apply set_eq. intros i.
  rewrite elem_of_pending, elem_of_singleton.
  destruct w as [[sock ic lmt ra rt cl hb pm pend] socks tims ns nt es].
  unfold timers_owned in Hown. cbn in Hown.
  unfold_methods. cbn. fresh_timer_only Hown.
Qed.

Lemma handleClose_pending (w : World) :
  timers_owned w -> pending_timeouts (handleClose w) = {[ next_timer w ]}.
Proof.
  intros Hown. apply set_eq. intros i.
  rewrite elem_of_pending, elem_of_singleton.
  destruct w as [[sock ic lmt ra rt cl hb pm pend] socks tims ns nt es].
  unfold timers_owned in Hown. cbn in Hown.
  unfold_methods. cbn. fresh_timer_only Hown.
Qed.

Lemma handleOpen_running (now : Z) (w : World) :
  timers_owned w -> running_intervals (handleOpen now w) = {[ next_timer w ]}.
Proof.
  intros Hown. apply set_eq. intros i.
  rewrite elem_of_running, elem_of_singleton.
  destruct w as [[sock ic lmt ra rt cl hb pm pend] socks tims ns nt es].
  unfold timers_owned in Hown. cbn in Hown.
  unfold_methods. cbn. fresh_timer_only Hown.
Qed.

Lemma handleOpen_fields (now : Z) (w : World) :
  let c := conn (handleOpen now w) in
  isConnected c = true /\ reconnectAttempts c = 0
  /\ connectionLost c = false /\ lastMessageTime c = Some now
  /\ heartbeatInterval c = Some (next_timer w)
  /\ timers (handleOpen now w) !! next_timer w
     = Some (Interval CONFIG.HEARTBEAT_INTERVAL).
Proof.
  destruct w as [[sock ic lmt ra rt cl hb pm pend] socks tims ns nt es].
  unfold_methods. cbn.
  Notifications.branches; cbn; rewrite lookup_insert_eq; repeat split.
Qed.

Lemma handleClose_fields (w : World) :
  reconnectTimer (conn (handleClose w)) = Some (next_timer w).
Proof.
  destruct w as [[sock ic lmt ra rt cl hb pm pend] socks tims ns nt es].
  unfold_methods. cbn. Notifications.branches; reflexivity.
Qed.

(** C7. In every state the connection can reach, at most one retry timer is
    pending.  [scheduleReconnect] cancels the timer whose handle it holds
    before it arms the next one, so after it (and so after every close
    event, also one that comes before the previous retry has fired) the
    pending retry timers are exactly the new one. *)
Theorem one_pending_retry_timer (w : World) :
  reachable w ->
  (size (pending_timeouts w) <= 1)%nat
  /\ pending_timeouts (scheduleReconnect w) = {[ next_timer w ]}
  /\ forall (s : positive) (w' : World),
      step w (SocketClose s) = Some w' ->
      pending_timeouts w' = {[ next_timer w ]}
      /\ reconnectTimer (conn w') = Some (next_timer w).
Proof.
  intros Hreach. pose proof (timers_owned_reachable w Hreach) as Hown.
  split; [ now apply pending_at_most_one | ].
  split; [ now apply scheduleReconnect_pending | ].
  intros s w' Hstep. unfold step in Hstep.
  assert (Hc : forall m, pending_timeouts (handleClose (with_sockets m w))
                         = {[ next_timer w ]}
                         /\ reconnectTimer (conn (handleClose (with_sockets m w)))
                            = Some (next_timer w)).
  { intros m. split.
    - exact (handleClose_pending (with_sockets m w) Hown).
    - exact (handleClose_fields (with_sockets m w)). }
  destruct (sockets w !! s) as [[| | |]|]; try discriminate Hstep;
    injection Hstep as <-; apply Hc.
Qed.

Lemma one_pending_retry_timer_witness :
  exists w : World,
    run (init true) five_quick_closures = Some w
    /\ (size (pending_timeouts w) <= 1)%nat.
Proof.
  eexists. split.
  - vm_compute. reflexivity.
  - apply one_pending_retry_timer.
    exists true, five_quick_closures. vm_compute. reflexivity.
Defined.

(** C8. When a socket opens, [handleOpen] leaves [reconnectAttempts] at 0,
    [connectionLost] cleared, [lastMessageTime] at the time of the event,
    and exactly one heartbeat interval running, the one whose handle it has
    just stored; this holds in every state the connection can reach, so
    after any number of connect/close/connect rounds.  No reachable state
    has two heartbeat intervals. *)
Theorem open_resets_and_starts_one_heartbeat (w : World) :
  reachable w ->
  (size (running_intervals w) <= 1)%nat
  /\ forall (s : positive) (now : Z) (w' : World),
      step w (SocketOpen s now) = Some w' ->
      isConnected (conn w') = true
      /\ reconnectAttempts (conn w') = 0
      /\ connectionLost (conn w') = false
      /\ lastMessageTime (conn w') = Some now
      /\ exists id : positive,
          heartbeatInterval (conn w') = Some id
          /\ timers w' !! id = Some (Interval CONFIG.HEARTBEAT_INTERVAL)
          /\ running_intervals w' = {[ id ]}.
Proof.
  intros Hreach. pose proof (timers_owned_reachable w Hreach) as Hown.
  split; [ now apply running_at_most_one | ].
  intros s now w' Hstep. unfold step in Hstep.
  destruct (sockets w !! s) as [[| | |]|]; try discriminate Hstep.
  injection Hstep as <-.
  pose proof (handleOpen_fields now (with_sockets (<[s:=OPEN]> (sockets w)) w))
    as (H1 & H2 & H3 & H4 & H5 & H6).
  split; [ exact H1 | ]. split; [ exact H2 | ].
  split; [ exact H3 | ]. split; [ exact H4 | ].
  exists (next_timer w).
  split; [ exact H5 | ]. split; [ exact H6 | ].
  exact (handleOpen_running now (with_sockets (<[s:=OPEN]> (sockets w)) w) Hown).
Qed.

Lemma open_resets_and_starts_one_heartbeat_witness :
  exists w : World,
    run (init true) five_quick_closures = Some w
    /\ (size (running_intervals w) <= 1)%nat.
Proof.
  eexists. split.
  - vm_compute. reflexivity.
  - apply open_resets_and_starts_one_heartbeat.
    exists true, five_quick_closures. vm_compute. reflexivity.
Defined.

Lemma disconnect_fields (w : World) :
  let c := conn (disconnect w) in
  isConnected c = false /\ ws c = None
  /\ reconnectTimer c = None /\ heartbeatInterval c = None
  /\ effects (disconnect w) = effects w.
Proof.
  destruct w as [[sock ic lmt ra rt cl hb pm pend] socks tims ns nt es].
  destruct sock as [s|], rt, hb; unfold_methods; cbn;
    try (destruct (socks !! s) as [[| | |]|]); repeat split.
Qed.

(** With nothing to clear, [disconnect] changes nothing. *)
Lemma disconnect_cleared (w : World) :
  isConnected (conn w) = false -> ws (conn w) = None ->
  reconnectTimer (conn w) = None -> heartbeatInterval (conn w) = None ->
  disconnect w = w.
Proof.
  destruct w as [[sock ic lmt ra rt cl hb pm pend] socks tims ns nt es].
  cbn. intros -> -> -> ->. reflexivity.
Qed.

Lemma disconnect_idempotent (w : World) :
  disconnect (disconnect w) = disconnect w.
Proof.
  destruct (disconnect_fields w) as (H1 & H2 & H3 & H4 & _).
  now apply disconnect_cleared.
Qed.

Lemma disconnect_closes_socket (w : World) (s : positive) :
  ws (conn w) = Some s ->
  sockets w !! s = Some CONNECTING \/ sockets w !! s = Some OPEN ->
  sockets (disconnect w) !! s = Some CLOSING.
Proof.
  destruct w as [[sock ic lmt ra rt cl hb pm pend] socks tims ns nt es].
  cbn. intros -> Hs. unfold_methods.
  destruct hb, rt; cbn; destruct Hs as [-> | ->]; cbn;
    apply lookup_insert_eq.
Qed.

Lemma disconnect_timers (w : World) :
  timers_owned w -> timers (disconnect w) = ∅.
Proof.
  intros Hown. apply map_eq. intros i. rewrite lookup_empty.
  destruct (timers (disconnect w) !! i) as [k|] eqn:Hi; [ exfalso | done ].
  revert Hi.
  destruct w as [[sock ic lmt ra rt cl hb pm pend] socks tims ns nt es].
  unfold timers_owned in Hown. cbn in Hown.
  unfold_methods. cbn.
  Notifications.branches; cbn; intros Hi; lookups Hi;
    specialize (Hown _ _ Hi); destruct k; cbn in Hown; congruence.
Qed.

(** C2.  [disconnect] is idempotent, a second call changes nothing; one
    call clears the retry timer and the heartbeat (no timer of the
    connection is live when it returns), starts closing the socket it
    holds, forgets it, and sets [isConnected] to false.  But it leaves the
    handlers on the socket it closes: the close event that its own
    [ws.close()] brings about runs [handleClose], and that schedules a
    reconnect.  After [connect(); disconnect()] and the close event of the
    socket, a retry timer is pending again, and when it comes due the
    connection connects anew. *)
Theorem disconnect_clears_and_is_idempotent :
  (forall w : World,
      reachable w ->
      let w' := disconnect w in
      disconnect w' = w'
      /\ isConnected (conn w') = false
      /\ ws (conn w') = None
      /\ reconnectTimer (conn w') = None
      /\ heartbeatInterval (conn w') = None
      /\ timers w' = ∅
      /\ pending_timeouts w' = ∅
      /\ running_intervals w' = ∅
      /\ (forall s : positive,
             ws (conn w) = Some s ->
             sockets w !! s = Some CONNECTING \/ sockets w !! s = Some OPEN ->
             sockets w' !! s = Some CLOSING))
  /\ exists w1 w2 w3 : World,
      run (init true) [Connect false; Disconnect] = Some w1
      /\ sockets w1 !! 1%positive = Some CLOSING
      /\ timers w1 = ∅
      /\ step w1 (SocketClose 1) = Some w2
      /\ reconnectTimer (conn w2) = Some 1%positive
      /\ timers w2 !! 1%positive = Some (Timeout (reconnect_delay 1))
      /\ step w2 (TimeoutFires 1 false) = Some w3
      /\ ws (conn w3) = Some 2%positive
      /\ sockets w3 !! 2%positive = Some CONNECTING.
Proof.
  split.
  - intros w Hreach w'. pose proof (timers_owned_reachable w Hreach) as Hown.
    destruct (disconnect_fields w) as (H1 & H2 & H3 & H4 & _).
    pose proof (disconnect_timers w Hown) as Ht.
    split; [ apply disconnect_idempotent | ].
    split; [ exact H1 | ]. split; [ exact H2 | ].
    split; [ exact H3 | ]. split; [ exact H4 | ].
    split; [ exact Ht | ].
    split; [ | split ].
    + apply set_eq. intros i. rewrite elem_of_pending. subst w'. rewrite Ht.
      split; [ intros [d Hd]; now rewrite lookup_empty in Hd | set_solver ].
    + apply set_eq. intros i. rewrite elem_of_running. subst w'. rewrite Ht.
      split; [ intros [d Hd]; now rewrite lookup_empty in Hd | set_solver ].
    + apply disconnect_closes_socket.
  - eexists. eexists. eexists.
    split; [ vm_compute; reflexivity | ].
    split; [ vm_compute; reflexivity | ].
    split; [ vm_compute; reflexivity | ].
    split; [ vm_compute; reflexivity | ].
    split; [ vm_compute; reflexivity | ].
    split; [ vm_compute; reflexivity | ].
    split; [ vm_compute; reflexivity | ].
    split; vm_compute; reflexivity.
Qed.

Lemma disconnect_clears_and_is_idempotent_witness :
  exists w : World,
    run (init true) [Connect false; SocketOpen 1 1000; SocketClose 1] = Some w
    /\ timers w <> ∅
    /\ timers (disconnect w) = ∅.
Proof.
  destruct disconnect_clears_and_is_idempotent as [Hclears _].
  eexists. split; [ vm_compute; reflexivity | ]. split.
  - intros H. apply (f_equal (fun m => m !! 2%positive)) in H.
    vm_compute in H. discriminate H.
  - eapply Hclears.
    exists true, [Connect false; SocketOpen 1 1000; SocketClose 1].
    vm_compute. reflexivity.
Defined.

(** It is not so that no close event after [disconnect] leaves a retry
    timer pending. *)
Lemma disconnect_then_close_rearms :
  ~ (forall w : World,
        reachable w ->
        forall (s : positive) (w' : World),
          step (disconnect w) (SocketClose s) = Some w' ->
          pending_timeouts w' = ∅).
Proof.
  intros H.
  assert (Hrun : exists w, run (init true) [Connect false] = Some w
                           /\ exists w', step (disconnect w) (SocketClose 1) = Some w'
                                         /\ 1%positive ∈ pending_timeouts w').
  { eexists. split; [ vm_compute; reflexivity | ].
    eexists. split; [ vm_compute; reflexivity | ].
    apply elem_of_pending. eexists. vm_compute. reflexivity. }
  destruct Hrun as (w & Hw & w' & Hstep & Hin).
  rewrite (H w (ex_intro _ true (ex_intro _ _ Hw)) 1%positive w' Hstep) in Hin.
  set_solver.
Qed.

End Timers.

(* ===================================================================== *)
(** * Sending *)
(* ===================================================================== *)

Module Sending.
Import JS Neuro MessageHandler.

#[local] Arguments serialize : simpl never.
#[local] Arguments socket_writes : simpl never.
#[local] Arguments tab_messages : simpl never.

Lemma socket_writes_snoc (es : list effect) (e : effect) :
  socket_writes (es ++ [e])
  = (socket_writes es ++ match e with
                         | WsSend s text => [(s, text)]
                         | _ => []
                         end)%list.
Proof.
  unfold socket_writes. rewrite flat_map_app. cbn. now rewrite app_nil_r.
Qed.

Lemma tab_messages_snoc (es : list effect) (e : effect) :
  tab_messages (es ++ [e])
  = (tab_messages es ++ match e with
                        | TabsSendMessage t d => [(t, d)]
                        | _ => []
                        end)%list.
Proof.
  unfold tab_messages. rewrite flat_map_app. cbn. now rewrite app_nil_r.
Qed.

Ltac tidy_effects :=
  rewrite ?socket_writes_snoc, ?tab_messages_snoc; cbn;
  rewrite ?app_nil_r.

(** A frame without a truthy [command] is turned down without a write, in
    every state in which [this.ws] is there to be read. *)
Lemma sendToNeuro_rejects (props : list (string * jsval)) (w : World) :
  truthy (obj_get "command" props) = false ->
  (isConnected (conn w) = true -> ws (conn w) <> None) ->
  exists w' : World,
    sendToNeuro (JObj props) w = (Return false, w')
    /\ socket_writes (effects w') = socket_writes (effects w)
    /\ conn w' = conn w /\ sockets w' = sockets w /\ timers w' = timers w.
Proof.
  intros Hcmd Hws.
  destruct w as [[sock ic lmt ra rt cl hb pm pend] socks tims ns nt es].
  cbn in Hws. unfold sendToNeuro, log, is_open, emit. cbn. rewrite Hcmd. cbn.
  destruct ic; [ destruct sock as [s|]; [ | now destruct Hws ] | ];
    Notifications.branches; eexists; (split; [ reflexivity | ]);
    cbn; tidy_effects; auto.
Qed.

(** C5. [sendToNeuro] turns down a frame whose [command] is empty or missing:
    it returns false and writes nothing, provided it gets as far as the
    test.  It does not when [isConnected] is true while [this.ws] is null:
    [this.ws.readyState] then throws a [TypeError] to the caller.  That
    state arises when [disconnect] has dropped the socket and an earlier
    socket opens afterwards; [sendStartup] and the heartbeat guard against
    it with [this.ws &&], [sendToNeuro] does not. *)
Theorem sendToNeuro_missing_command :
  (forall (props : list (string * jsval)) (w : World),
      truthy (obj_get "command" props) = false ->
      (isConnected (conn w) = true -> ws (conn w) <> None) ->
      exists w' : World,
        sendToNeuro (JObj props) w = (Return false, w')
        /\ socket_writes (effects w') = socket_writes (effects w))
  /\ exists w : World,
      run (init true) open_after_disconnect = Some w
      /\ isConnected (conn w) = true
      /\ ws (conn w) = None
      /\ sendToNeuro (JObj [("command", JStr "")]) w = (Throw TypeError, w)
      /\ sendToNeuro (JObj [("data", JNull)]) w = (Throw TypeError, w).
Proof.
  split.
  - intros props w Hcmd Hws.
    destruct (sendToNeuro_rejects props w Hcmd Hws) as (w' & H1 & H2 & _).
    eauto.
  - eexists. split; [ vm_compute; reflexivity | ].
    repeat split; reflexivity.
Qed.

Lemma sendToNeuro_missing_command_witness :
  exists w : World,
    sendToNeuro (JObj [("command", JStr ""); ("data", JNull)]) (init false)
    = (Return false, w)
    /\ socket_writes (effects w) = [].
Proof.
  destruct sendToNeuro_missing_command as [Hreject _].
  destruct (Hreject [("command", JStr ""); ("data", JNull)] (init false))
    as (w & Hw & Hwrites).
  - reflexivity.
  - discriminate.
  - exists w. split; [ exact Hw | exact Hwrites ].
Defined.

(** What a frame with an id looks like to [handleAction]. *)
Lemma action_id_Some (msg id : jsval) :
  action_id msg = Some id ->
  exists data : jsval,
    get_prop msg "data" = Return data /\ truthy data = true
    /\ get_prop data "id" = Return id /\ truthy id = true.
Proof.
  unfold action_id. intros H.
  destruct (get_prop msg "data") as [data|]; [ | discriminate ].
  destruct (truthy data) eqn:Td; [ | discriminate ].
  destruct (get_prop data "id") as [i|] eqn:Hi; [ | discriminate ].
  destruct (truthy i) eqn:Ti; [ | discriminate ].
  injection H as <-. exists data. repeat split; assumption.
Qed.

Lemma action_id_None (props : list (string * jsval)) :
  action_id (JObj props) = None ->
  let data := obj_get "data" props in
  negb (truthy data)
  || negb (truthy match get_prop data "id" with
                  | Return v => v
                  | Throw _ => JUndefined
                  end) = true.
Proof.
  unfold action_id. cbn.
  destruct (truthy (obj_get "data" props)); [ | reflexivity ].
  destruct (get_prop (obj_get "data" props) "id") as [i|]; [ | reflexivity ].
  now destruct (truthy i).
Qed.

Lemma action_without_id_ignored (popup : bool) (props : list (string * jsval))
  (query : tabs_query) (w : World) :
  action_id (JObj props) = None ->
  exists w' : World,
    handleAction popup (JObj props) query w = (Return tt, w')
    /\ socket_writes (effects w') = socket_writes (effects w)
    /\ tab_messages (effects w') = tab_messages (effects w)
    /\ In (LoggerLog error "Invalid action message: missing data or id")
          (effects w').
Proof.
  intros Hnone. apply action_id_None in Hnone.
  unfold handleAction. cbn. cbn in Hnone. rewrite Hnone.
  destruct popup; eexists; (split; [ reflexivity | ]);
    unfold log; cbn; tidy_effects; repeat split; try reflexivity;
    apply in_or_app; [ left; apply in_or_app | ]; right; left; reflexivity.
Qed.

End Sending.

(* ===================================================================== *)
(** * The log cache *)
(* ===================================================================== *)

Module LogCache.
Import JS Popup.

Lemma last_entries_length {A : Type} (n : nat) (l : list A) :
  length (last_entries n l) = Nat.min n (length l).
Proof. unfold last_entries. rewrite length_drop. lia. Qed.

Lemma last_entries_all {A : Type} (n : nat) (l : list A) :
  (length l <= n)%nat -> last_entries n l = l.
Proof.
  intros H. unfold last_entries.
  now replace (length l - n)%nat with 0%nat by lia.
Qed.

(** Trimming early does not change what is left after the next entry. *)
Lemma last_entries_snoc {A : Type} (n : nat) (l : list A) (x : A) :
  (0 < n)%nat ->
  last_entries n (last_entries n l ++ [x]) = last_entries n (l ++ [x]).
Proof.
  intros Hn. destruct (Nat.le_gt_cases (length l) n) as [Hle | Hgt].
  - now rewrite (last_entries_all n l Hle).
  - unfold last_entries at 1 3.
    rewrite !length_app, last_entries_length. cbn.
    replace (Nat.min n (length l) + 1 - n)%nat with 1%nat by lia.
    unfold last_entries.
    rewrite !drop_app_le by (rewrite ?length_drop; lia).
    rewrite drop_drop. f_equal. f_equal. lia.
Qed.

(** [slice(-n)] of a list longer than [n], for a positive [n]. *)
Lemma slice_last {A : Type} (n : Z) (l : list A) :
  0 < n -> slice (- n) l = last_entries (Z.to_nat n) l.
Proof.
  intros Hn. unfold slice, last_entries.
  replace (- n <? 0)%Z with true by lia. f_equal. lia.
Qed.

Lemma addLogEntry_entry (now : string) (d : LogData) (pm : PopupManager) :
  fst (addLogEntry now d pm) = entry_of (now, d).
Proof. reflexivity. Qed.

Lemma addLogEntry_cache (now : string) (d : LogData) (pm : PopupManager) :
  0 < maxCacheSize pm ->
  logCache (snd (addLogEntry now d pm))
  = last_entries (Z.to_nat (maxCacheSize pm))
                 (logCache pm ++ [entry_of (now, d)]).
Proof.
  intros Hmax. unfold addLogEntry, entry_of. cbn.
  match goal with |- context [(logCache pm ++ [?e])%list] => set (entry := e) end.
  destruct (maxCacheSize pm <? Z.of_nat (length (logCache pm ++ [entry])))%Z
    eqn:E.
  - now apply slice_last.
  - symmetry. apply last_entries_all. lia.
Qed.

Lemma addLogEntry_max (now : string) (d : LogData) (pm : PopupManager) :
  maxCacheSize (snd (addLogEntry now d pm)) = maxCacheSize pm.
Proof. reflexivity. Qed.

Lemma addLogEntries_cache (calls : list (string * LogData)) (pm : PopupManager) :
  0 < maxCacheSize pm ->
  (length (logCache pm) <= Z.to_nat (maxCacheSize pm))%nat ->
  logCache (addLogEntries calls pm)
  = last_entries (Z.to_nat (maxCacheSize pm))
                 (logCache pm ++ map entry_of calls).
Proof.
  revert pm. induction calls as [| [now d] calls IH]; intros pm Hmax Hlen.
  - cbn. rewrite app_nil_r. symmetry. now apply last_entries_all.
  - cbn [addLogEntries map].
    rewrite IH; rewrite ?addLogEntry_max, ?addLogEntry_cache; try assumption.
    + set (n := Z.to_nat (maxCacheSize pm)).
      assert (Hn : (0 < n)%nat) by (subst n; lia).
      clear IH Hlen. revert pm n Hn Hmax.
      generalize (entry_of (now, d)). intros e pm n Hn _.
      generalize (logCache pm). intros l.
      replace (l ++ e :: map entry_of calls)%list
        with ((l ++ [e]) ++ map entry_of calls)%list
        by now rewrite <- app_assoc.
      generalize (l ++ [e])%list. clear l e. intros l.
      induction (map entry_of calls) as [| x xs IHx] using rev_ind.
      * rewrite !app_nil_r. unfold last_entries at 1.
        rewrite last_entries_length.
        now replace (Nat.min n (length l) - n)%nat with 0%nat by lia.
      * rewrite !app_assoc.
        rewrite <- (last_entries_snoc n (l ++ xs) x Hn).
        rewrite <- (last_entries_snoc n (last_entries n l ++ xs) x Hn).
        now rewrite IHx.
    + rewrite last_entries_length. lia.
Qed.

(** The 201st entry pushes the first one out. *)
Example cache_after_201_calls :
  map message (logCache (addLogEntries (numbered_calls 201) new_manager))
  = map (fun i => JNum (Z.of_nat i)) (seq 2 200).
Proof. vm_compute. reflexivity. Qed.

End LogCache.

(* ===================================================================== *)
(** * JSON text *)
(* ===================================================================== *)

Module Codec.
Import JS.

#[local] Arguments append !s1 s2 : simpl nomatch.

Lemma append_assoc (a b c : string) : (a +:+ b) +:+ c = a +:+ (b +:+ c).
Proof. induction a as [| x a IH]; simpl; [ reflexivity | now f_equal ]. Qed.

Lemma append_nil_r (a : string) : a +:+ "" = a.
Proof. induction a as [| x a IH]; simpl; [ reflexivity | now f_equal ]. Qed.

Lemma length_append (a b : string) :
  String.length (a +:+ b) = (String.length a + String.length b)%nat.
Proof. induction a as [| x a IH]; simpl; [ reflexivity | now f_equal ]. Qed.

(** *** String literals *)

Lemma parse_quote_char (c : ascii) (tail : string) :
  parse_chars (quote_char c +:+ tail) = prepend c (parse_chars tail).
Proof.
  destruct c as [[|] [|] [|] [|] [|] [|] [|] [|]]; reflexivity.
Qed.

Lemma parse_closing_quote (rest : string) :
  parse_chars (String dquote rest) = Some ("", rest).
Proof. reflexivity. Qed.

Lemma parse_quote_chars (s rest : string) :
  parse_chars (quote_chars s +:+ String dquote rest) = Some (s, rest).
Proof.
  induction s as [| c s IH]; cbn [quote_chars].
  - reflexivity.
  - rewrite append_assoc, (parse_quote_char c _), IH. reflexivity.
Qed.

(** A quoted string, as the parser meets it after the opening quote. *)
Lemma quote_unfold (s rest : string) :
  quote s +:+ rest = String dquote (quote_chars s +:+ String dquote rest).
Proof. unfold quote. cbn. now rewrite append_assoc. Qed.

(** *** Numbers *)

Lemma read_digits_uint (d : Decimal.uint) (rest : string) :
  delimited rest = true ->
  read_digits (NilEmpty.string_of_uint d +:+ rest) = (d, rest).
Proof.
  intros Hrest. induction d; cbn; rewrite ?IHd; try reflexivity.
  destruct rest as [| c rest]; [ reflexivity | ].
  cbn in Hrest. apply andb_true_iff in Hrest as [Hd _].
  unfold is_digit in Hd. cbn. now destruct (digit_of_char c).
Qed.

Lemma to_uint_normal (p : positive) :
  Decimal.unorm (Pos.to_uint p) = Pos.to_uint p.
Proof.
  rewrite <- (DecimalPos.Unsigned.to_of (Pos.to_uint p)).
  now rewrite DecimalPos.Unsigned.of_to.
Qed.

Lemma to_uint_no_leading_zero (p : positive) (d : Decimal.uint) :
  Pos.to_uint p <> Decimal.D0 d.
Proof.
  intros H. pose proof (to_uint_normal p) as Hn. rewrite H in Hn.
  change (Decimal.unorm (Decimal.D0 d)) with (Decimal.unorm d) in Hn.
  assert (Hd : d <> Decimal.Nil).
  { intros ->. apply (Unsigned.to_uint_nonzero p). exact H. }
  pose proof (nb_digits_unorm d Hd) as Hl. rewrite Hn in Hl.
  change (Decimal.nb_digits (Decimal.D0 d)) with (S (Decimal.nb_digits d)) in Hl.
  lia.
Qed.

Lemma of_to_uint (p : positive) : Z.of_uint (Pos.to_uint p) = Z.pos p.
Proof.
  unfold Z.of_uint. now rewrite DecimalPos.Unsigned.of_to.
Qed.

Lemma parse_number_pos (neg : bool) (p : positive) (rest : string) :
  delimited rest = true ->
  (Z.pos p <=? MAX_EXACT)%Z = true ->
  parse_number neg (NilEmpty.string_of_uint (Pos.to_uint p) +:+ rest)
  = Some (JNum (if neg then Z.neg p else Z.pos p), rest).
Proof.
  intros Hrest Hmax. unfold parse_number.
  rewrite (read_digits_uint _ _ Hrest), of_to_uint.
  pose proof (Unsigned.to_uint_nonnil p) as Hnil.
  pose proof (to_uint_no_leading_zero p) as Hlz.
  assert (Hfrac : starts_fraction rest = false).
  { destruct rest as [| c rest]; [ reflexivity | ].
    cbn in Hrest. apply andb_true_iff in Hrest as [_ Hf].
    now apply negb_true_iff in Hf. }
  rewrite Hfrac.
  replace (MAX_EXACT <? Z.pos p)%Z with false by lia.
  destruct (Pos.to_uint p) as [| d | d | d | d | d | d | d | d | d | d];
    try reflexivity; [ now destruct Hnil | now destruct (Hlz d) ].
Qed.
Lemma parse_number_zero (neg : bool) (rest : string) :
  delimited rest = true ->
  parse_number neg (String "0" rest) = Some (JNum 0, rest).
Proof.
  intros Hrest. unfold parse_number.
  change (String "0" rest) with (NilEmpty.string_of_uint (Decimal.D0 Decimal.Nil) +:+ rest).
  rewrite (read_digits_uint _ _ Hrest).
  assert (Hfrac : starts_fraction rest = false).
  { destruct rest as [| c rest]; [ reflexivity | ].
    cbn in Hrest. apply andb_true_iff in Hrest as [_ Hf].
    now apply negb_true_iff in Hf. }
  rewrite Hfrac. now destruct neg.
Qed.

(** A number starts with a digit, and [parse_value] hands it to
    [parse_number]. *)
Lemma parse_value_digits (fuel : nat) (d : Decimal.uint) (rest : string) :
  d <> Decimal.Nil ->
  parse_value (S fuel) (NilEmpty.string_of_uint d +:+ rest)
  = parse_number false (NilEmpty.string_of_uint d +:+ rest).
Proof. destruct d; [ congruence | reflexivity .. ]. Qed.

Lemma parse_value_number (fuel : nat) (n : Z) (rest : string) :
  (Z.abs n <=? MAX_EXACT)%Z = true ->
  delimited rest = true ->
  parse_value (S fuel) (number_to_string n +:+ rest) = Some (JNum n, rest).
Proof.
  intros Hmax Hrest. unfold number_to_string.
  destruct n as [| p | p]; cbn [Z.to_int NilEmpty.string_of_int].
  - change (NilEmpty.string_of_uint Decimal.zero +:+ rest) with (String "0" rest).
    change (parse_value (S fuel) (String "0" rest))
      with (parse_number false (String "0" rest)).
    now apply parse_number_zero.
  - rewrite parse_value_digits by apply Unsigned.to_uint_nonnil.
    apply (parse_number_pos false); [ exact Hrest | exact Hmax ].
  - change (parse_value (S fuel)
              (String "-" (NilEmpty.string_of_uint (Pos.to_uint p)) +:+ rest))
      with (parse_number true (NilEmpty.string_of_uint (Pos.to_uint p) +:+ rest)).
    apply (parse_number_pos true); [ exact Hrest | exact Hmax ].
Qed.

(** *** White space and punctuation *)

Lemma peek_hit (c : ascii) (rest : string) :
  is_ws c = false -> peek c (String c rest) = Some rest.
Proof.
  intros Hc. unfold peek. cbn [skip_ws]. rewrite Hc.
  now rewrite Ascii.eqb_refl.
Qed.

Lemma peek_miss (c c' : ascii) (rest : string) :
  is_ws c' = false -> Ascii.eqb c' c = false ->
  peek c (String c' rest) = None.
Proof.
  intros Hc Hne. unfold peek. cbn [skip_ws]. now rewrite Hc, Hne.
Qed.

Lemma uint_string_opens (d : Decimal.uint) (rest : string) :
  d <> Decimal.Nil -> opens_value (NilEmpty.string_of_uint d +:+ rest).
Proof.
  intros Hd. destruct d; [ congruence | .. ];
    eexists; eexists; (split; [ reflexivity | repeat split ]).
Qed.

Lemma serialize_opens (v : jsval) (rest : string) :
  opens_value (serialize v +:+ rest).
Proof.
  destruct v as [| | [|] | [| p | p] | s | l | ps];
    try (eexists; eexists; (split; [ reflexivity | repeat split ])).
  apply uint_string_opens, Unsigned.to_uint_nonnil.
Qed.

(** *** Values *)

Lemma jsval_induction (P : jsval -> Prop) :
  P JUndefined -> P JNull -> (forall b, P (JBool b)) -> (forall n, P (JNum n)) ->
  (forall s, P (JStr s)) ->
  (forall l, Forall P l -> P (JArr l)) ->
  (forall ps, Forall (fun kv => P (snd kv)) ps -> P (JObj ps)) ->
  forall v, P v.
Proof.
  intros Hu Hn Hb Hz Hs Ha Ho. fix IH 1. intros [| | b | n | s | l | ps].
  - exact Hu.
  - exact Hn.
  - apply Hb.
  - apply Hz.
  - apply Hs.
  - apply Ha. induction l as [| x l IHl]; constructor; [ apply IH | exact IHl ].
  - apply Ho. induction ps as [| [k x] ps IHps]; constructor;
      [ apply IH | exact IHps ].
Qed.

Lemma serialize_array (l : list jsval) :
  serialize (JArr l) = "[" +:+ String.concat "," (map serialize l) +:+ "]".
Proof. reflexivity. Qed.

Lemma serialize_object (ps : list (string * jsval)) :
  serialize (JObj ps)
  = "{" +:+ String.concat "," (serialize_members ps) +:+ "}".
Proof. reflexivity. Qed.

Lemma value_size_array (l : list jsval) :
  value_size (JArr l) = S (elements_size l).
Proof. reflexivity. Qed.

Lemma value_size_object (ps : list (string * jsval)) :
  value_size (JObj ps) = S (members_size ps).
Proof. reflexivity. Qed.

Lemma json_value_object (ps : list (string * jsval)) :
  json_value (JObj ps) = distinct (map fst ps) && json_members ps.
Proof. reflexivity. Qed.

Lemma delimited_punct (c : ascii) (rest : string) :
  is_digit c = false -> starts_fraction (String c rest) = false ->
  delimited (String c rest) = true.
Proof. intros Hd Hf. unfold delimited. now rewrite Hd, Hf. Qed.

Lemma concat_cons2 (sep a b : string) (l : list string) :
  String.concat sep (a :: b :: l) = a +:+ sep +:+ String.concat sep (b :: l).
Proof. reflexivity. Qed.

Lemma parse_elements_back (l : list jsval) :
  l <> [] ->
  Forall parses_back l ->
  forallb json_value l = true ->
  forall (fuel : nat) (rest : string),
    (elements_size l <= fuel)%nat ->
    parse_elements fuel (String.concat "," (map serialize l) +:+ "]" +:+ rest)
    = Some (l, rest).
Proof.
  induction l as [| x l IH]; [ congruence | ].
  intros _ HF Hj fuel rest Hfuel.
  apply Forall_cons in HF as [Hx HF].
  cbn [forallb] in Hj. apply andb_true_iff in Hj as [Hjx Hj].
  cbn [elements_size] in Hfuel.
  destruct fuel as [| fuel]; [ lia | ].
  cbn [parse_elements].
  destruct l as [| y l].
  - cbn [map String.concat].
    change ("]" +:+ rest) with (String "]" rest).
    rewrite (Hx Hjx fuel (String "]" rest)) by (reflexivity || lia).
    now rewrite peek_miss, peek_hit.
  - cbn [map]. rewrite concat_cons2, !append_assoc.
    change ("," +:+ ?s) with (String "," s).
    rewrite (Hx Hjx fuel _) by (reflexivity || lia).
    rewrite peek_hit by reflexivity.
    change (serialize y :: map serialize l) with (map serialize (y :: l)).
    rewrite (IH ltac:(discriminate) HF Hj fuel rest) by lia.
    reflexivity.
Qed.

Lemma serialize_members_cons (k : string) (x : jsval)
  (ps : list (string * jsval)) :
  json_value x = true ->
  serialize_members ((k, x) :: ps)
  = (quote k +:+ ":" +:+ serialize x) :: serialize_members ps.
Proof. destruct x; [ discriminate | reflexivity .. ]. Qed.

Lemma parse_members_back (ps : list (string * jsval)) :
  ps <> [] ->
  Forall (fun kv => parses_back (snd kv)) ps ->
  json_members ps = true ->
  forall (fuel : nat) (rest : string),
    (members_size ps <= fuel)%nat ->
    parse_members fuel
      (String.concat "," (serialize_members ps) +:+ "}" +:+ rest)
    = Some (ps, rest).
Proof.
  induction ps as [| [k x] ps IH]; [ congruence | ].
  intros _ HF Hj fuel rest Hfuel.
  apply Forall_cons in HF as [Hx HF]. cbn [snd] in Hx.
  cbn [json_members] in Hj.
  apply andb_true_iff in Hj as [Hj Hjps].
  apply andb_true_iff in Hj as [_ Hjx].
  cbn [members_size] in Hfuel.
  destruct fuel as [| fuel]; [ lia | ].
  cbn [parse_members].
  rewrite (serialize_members_cons k x ps Hjx).
  destruct ps as [| [k' x'] ps].
  - cbn [serialize_members String.concat].
    rewrite !append_assoc, quote_unfold.
    rewrite peek_hit by reflexivity.
    rewrite (parse_quote_chars k _).
    change (":" +:+ ?s) with (String ":" s).
    rewrite peek_hit by reflexivity.
    change ("}" +:+ rest) with (String "}" rest).
    rewrite (Hx Hjx fuel (String "}" rest)) by (reflexivity || lia).
    now rewrite peek_miss, peek_hit.
  - assert (Hjx' : json_value x' = true).
    { cbn [json_members] in Hjps.
      apply andb_true_iff in Hjps as [Hjps _].
      now apply andb_true_iff in Hjps as [_ Hjps]. }
    rewrite (serialize_members_cons k' x' ps Hjx').
    rewrite concat_cons2, !append_assoc, quote_unfold.
    rewrite peek_hit by reflexivity.
    rewrite (parse_quote_chars k _).
    change (":" +:+ ?s) with (String ":" s).
    rewrite peek_hit by reflexivity.
    change ("," +:+ ?s) with (String "," s).
    rewrite (Hx Hjx fuel _) by (reflexivity || lia).
    rewrite peek_hit by reflexivity.
    rewrite <- (serialize_members_cons k' x' ps Hjx').
    rewrite (IH ltac:(discriminate) HF Hjps fuel rest) by lia.
    reflexivity.
Qed.
(** *** Objects with distinct names *)

Lemma obj_set_fresh (k : string) (v : jsval) (acc : list (string * jsval)) :
  existsb (String.eqb k) (map fst acc) = false ->
  obj_set k v acc = (acc ++ [(k, v)])%list.
Proof.
  induction acc as [| [k' v'] acc IH]; cbn; [ reflexivity | ].
  intros H. apply orb_false_iff in H as [Hk Hacc].
  rewrite Hk. now rewrite (IH Hacc).
Qed.

Lemma existsb_eqb_app (k : string) (l1 l2 : list string) :
  existsb (String.eqb k) (l1 ++ l2)
  = existsb (String.eqb k) l1 || existsb (String.eqb k) l2.
Proof. apply existsb_app. Qed.

Lemma build_object_from (ps acc : list (string * jsval)) :
  distinct (map fst ps) = true ->
  forallb (fun k => negb (existsb (String.eqb k) (map fst acc))) (map fst ps)
  = true ->
  fold_left (fun o kv => obj_set (fst kv) (snd kv) o) ps acc
  = (acc ++ ps)%list.
Proof.
  revert acc. induction ps as [| [k v] ps IH]; intros acc Hd Hfresh.
  - cbn. now rewrite app_nil_r.
  - cbn [map fst distinct forallb fold_left snd] in *.
    apply andb_true_iff in Hd as [Hk Hd].
    apply andb_true_iff in Hfresh as [Hka Hfresh].
    apply negb_true_iff in Hk, Hka.
    rewrite (obj_set_fresh k v acc Hka).
    rewrite IH; [ now rewrite <- app_assoc | exact Hd | ].
    apply forallb_forall. intros k' Hin.
    rewrite forallb_forall in Hfresh. specialize (Hfresh k' Hin).
    rewrite map_app, existsb_eqb_app. cbn.
    apply negb_true_iff in Hfresh. rewrite Hfresh. cbn.
    rewrite orb_false_r. apply negb_true_iff.
    destruct (String.eqb_spec k' k) as [-> | Hne]; [ | reflexivity ].
    exfalso. rewrite <- not_true_iff_false in Hk. apply Hk.
    apply existsb_exists. exists k. split; [ exact Hin | apply String.eqb_refl ].
Qed.

Lemma build_object_distinct (ps : list (string * jsval)) :
  distinct (map fst ps) = true -> build_object ps = ps.
Proof.
  intros Hd. unfold build_object. rewrite build_object_from; auto.
  apply forallb_forall. reflexivity.
Qed.

Lemma json_members_names (ps : list (string * jsval)) :
  json_members ps = true ->
  existsb (fun kv => index_like (fst kv)) ps = false.
Proof.
  induction ps as [| [k x] ps IH]; [ reflexivity | ].
  cbn [json_members existsb fst]. intros H.
  apply andb_true_iff in H as [H Hps].
  apply andb_true_iff in H as [Hk _].
  apply negb_true_iff in Hk. now rewrite Hk, (IH Hps).
Qed.

Lemma json_members_values (ps : list (string * jsval)) :
  json_members ps = true -> Forall (fun kv => json_value (snd kv) = true) ps.
Proof.
  induction ps as [| [k x] ps IH]; intros H; constructor.
  - cbn in H. apply andb_true_iff in H as [H _].
    now apply andb_true_iff in H as [_ H].
  - apply IH. cbn in H. now apply andb_true_iff in H as [_ H].
Qed.

Lemma opens_value_app (s r : string) :
  opens_value s -> opens_value (s +:+ r).
Proof.
  intros (c & s' & -> & H). exists c, (s' +:+ r). split; [ reflexivity | exact H ].
Qed.

Lemma peek_closing (s : string) :
  opens_value s -> peek "]" s = None /\ peek "}" s = None.
Proof.
  intros (c & r & -> & Hws & H1 & H2). split; now apply peek_miss.
Qed.

Lemma elements_open (l : list jsval) (rest : string) :
  l <> [] ->
  opens_value (String.concat "," (map serialize l) +:+ rest).
Proof.
  destruct l as [| x [| y l]]; [ congruence | | ]; intros _.
  - apply serialize_opens.
  - cbn [map]. rewrite concat_cons2, append_assoc. apply serialize_opens.
Qed.

Lemma members_open (k : string) (x : jsval) (ps : list (string * jsval))
  (rest : string) :
  json_value x = true ->
  opens_value (String.concat "," (serialize_members ((k, x) :: ps)) +:+ rest).
Proof.
  intros Hjx. rewrite (serialize_members_cons k x ps Hjx).
  apply opens_value_app.
  assert (Hq : opens_value (quote k +:+ ":" +:+ serialize x)).
  { rewrite quote_unfold. eexists. eexists.
    split; [ reflexivity | repeat split ]. }
  destruct (serialize_members ps) as [| m ms].
  - exact Hq.
  - rewrite concat_cons2. now apply opens_value_app.
Qed.

(** *** The round trip on values *)

Lemma parse_value_back (v : jsval) : parses_back v.
Proof.
  induction v as [| | b | n | s | l IHl | ps IHps] using jsval_induction;
    intros Hj fuel rest Hfuel Hrest;
    (destruct fuel as [| fuel]; [ cbn in Hfuel; lia | ]).
  - discriminate Hj.
  - reflexivity.
  - now destruct b.
  - now apply parse_value_number.
  - cbn [serialize]. rewrite quote_unfold.
    change (parse_value (S fuel) (String dquote ?r))
      with (match parse_chars r with
            | Some (str, rest1) => Some (JStr str, rest1)
            | None => None
            end).
    now rewrite (parse_quote_chars s rest).
  - rewrite serialize_array, !append_assoc.
    rewrite value_size_array in Hfuel.
    destruct l as [| x l]; [ reflexivity | ].
    change (parse_value (S fuel) ("[" +:+ ?r))
      with (match peek "]" r with
            | Some rest1 => Some (JArr [], rest1)
            | None => finish_array (parse_elements fuel r)
            end).
    rewrite (proj1 (peek_closing _ (elements_open (x :: l) _ ltac:(discriminate)))).
    rewrite (parse_elements_back (x :: l) ltac:(discriminate) IHl Hj fuel rest)
      by lia.
    reflexivity.
  - rewrite serialize_object, !append_assoc.
    rewrite value_size_object in Hfuel.
    rewrite json_value_object in Hj.
    apply andb_true_iff in Hj as [Hd Hm].
    destruct ps as [| [k x] ps]; [ reflexivity | ].
    change (parse_value (S fuel) ("{" +:+ ?r))
      with (match peek "}" r with
            | Some rest1 => Some (JObj [], rest1)
            | None => finish_object (parse_members fuel r)
            end).
    assert (Hjx : json_value x = true).
    { pose proof (json_members_values _ Hm) as HF.
      now apply Forall_cons in HF as [HF _]. }
    rewrite (proj2 (peek_closing _ (members_open k x ps _ Hjx))).
    rewrite (parse_members_back ((k, x) :: ps) ltac:(discriminate) IHps Hm
               fuel rest) by lia.
    unfold finish_object.
    rewrite (json_members_names _ Hm), (build_object_distinct _ Hd).
    reflexivity.
Qed.
(** *** Enough fuel *)

Lemma uint_string_length (d : Decimal.uint) :
  d <> Decimal.Nil -> (1 <= String.length (NilEmpty.string_of_uint d))%nat.
Proof. destruct d; [ congruence | cbn; lia .. ]. Qed.

Lemma number_length (n : Z) : (1 <= String.length (number_to_string n))%nat.
Proof.
  unfold number_to_string. destruct n as [| p | p]; cbn.
  - lia.
  - apply uint_string_length, Unsigned.to_uint_nonnil.
  - lia.
Qed.

Lemma concat_length (l : list string) (x : string) :
  String.length (String.concat "," (x :: l))
  = match l with
    | [] => String.length x
    | _ => (String.length x + 1 + String.length (String.concat "," l))%nat
    end.
Proof.
  destruct l as [| y l]; [ reflexivity | ].
  rewrite concat_cons2, !length_append. cbn. lia.
Qed.

Lemma elements_size_length (l : list jsval) :
  Forall (fun x => (value_size x + 1 <= 2 * String.length (serialize x))%nat) l ->
  (elements_size l
   <= 2 * String.length (String.concat "," (map serialize l)) + 1)%nat.
Proof.
  induction l as [| x l IH]; intros HF; [ cbn; lia | ].
  apply Forall_cons in HF as [Hx HF]. specialize (IH HF).
  cbn [elements_size map]. rewrite concat_length.
  destruct l as [| y l]; [ cbn; lia | ].
  cbn [map] in IH |- *. lia.
Qed.

Lemma members_size_length (ps : list (string * jsval)) :
  json_members ps = true ->
  Forall (fun kv => (value_size (snd kv) + 1
                     <= 2 * String.length (serialize (snd kv)))%nat) ps ->
  (members_size ps
   <= 2 * String.length (String.concat "," (serialize_members ps)) + 1)%nat.
Proof.
  induction ps as [| [k x] ps IH]; intros Hm HF; [ cbn; lia | ].
  apply Forall_cons in HF as [Hx HF]. cbn [snd] in Hx.
  pose proof (json_members_values _ Hm) as Hv.
  apply Forall_cons in Hv as [Hjx _]. cbn [snd] in Hjx.
  assert (Hps : json_members ps = true).
  { cbn [json_members] in Hm. now apply andb_true_iff in Hm as [_ Hm]. }
  specialize (IH Hps HF).
  rewrite (serialize_members_cons k x ps Hjx), concat_length.
  cbn [members_size]. rewrite !length_append.
  destruct (serialize_members ps) as [| m ms] eqn:E.
  - destruct ps as [| [k' x'] ps]; [ cbn; lia | ].
    pose proof (json_members_values _ Hps) as Hv'.
    apply Forall_cons in Hv' as [Hjx' _]. cbn [snd] in Hjx'.
    rewrite (serialize_members_cons k' x' ps Hjx') in E. discriminate E.
  - lia.
Qed.

Lemma value_size_length (v : jsval) :
  json_value v = true ->
  (value_size v + 1 <= 2 * String.length (serialize v))%nat.
Proof.
  induction v as [| | b | n | s | l IHl | ps IHps] using jsval_induction;
    intros Hj.
  - discriminate Hj.
  - cbn. lia.
  - destruct b; cbn; lia.
  - pose proof (number_length n). cbn [value_size serialize]. lia.
  - cbn [value_size serialize]. unfold quote. cbn [String.length]. lia.
  - rewrite serialize_array, value_size_array, !length_append.
    assert (HF : Forall (fun x => (value_size x + 1
                                   <= 2 * String.length (serialize x))%nat) l).
    { cbn [json_value] in Hj. rewrite forallb_forall in Hj.
      rewrite Forall_forall in IHl |- *. intros x Hx.
      apply IHl; [ exact Hx | apply Hj; now apply list_elem_of_In ]. }
    pose proof (elements_size_length l HF). cbn [String.length]. lia.
  - rewrite serialize_object, value_size_object, !length_append.
    rewrite json_value_object in Hj. apply andb_true_iff in Hj as [_ Hm].
    assert (HF : Forall (fun kv => (value_size (snd kv) + 1
                                    <= 2 * String.length (serialize (snd kv)))%nat) ps).
    { pose proof (json_members_values _ Hm) as Hv.
      rewrite Forall_forall in IHps, Hv |- *. intros kv Hkv.
      apply IHps; [ exact Hkv | now apply Hv ]. }
    pose proof (members_size_length ps Hm HF). cbn [String.length]. lia.
Qed.

(** *** [JSON.parse] after [JSON.stringify] *)

Lemma JSON_parse_serialize (v : jsval) :
  json_value v = true -> JSON_parse (serialize v) = Some v.
Proof.
  intros Hj. unfold JSON_parse.
  pose proof (value_size_length v Hj) as Hsize.
  pose proof (parse_value_back v Hj (S (2 * String.length (serialize v))) ""
                ltac:(lia) eq_refl) as Hparse.
  rewrite append_nil_r in Hparse. rewrite Hparse. reflexivity.
Qed.
(** *** What the parser produces *)

Lemma prepend_Some (c : ascii) (r : option (string * string))
  (str rest : string) :
  prepend c r = Some (str, rest) ->
  exists str', str = String c str' /\ r = Some (str', rest).
Proof.
  destruct r as [[s' r']|]; [ | discriminate ].
  cbn. intros [= <- <-]. eauto.
Qed.

Lemma prepend_all_Some (p : string) (r : option (string * string))
  (str rest : string) :
  prepend_all p r = Some (str, rest) ->
  exists str', str = p +:+ str' /\ r = Some (str', rest).
Proof.
  destruct r as [[s' r']|]; [ | discriminate ].
  cbn. intros [= <- <-]. eauto.
Qed.

Lemma parse_number_json (neg : bool) (s : string) (v : jsval) (rest : string) :
  parse_number neg s = Some (v, rest) -> json_value v = true.
Proof.
  unfold parse_number. destruct (read_digits s) as [ds r].
  assert (Hpos : (0 <= Z.of_uint ds)%Z) by (unfold Z.of_uint; lia).
  destruct ds; try discriminate;
    repeat match goal with
           | |- context [if ?b then _ else _] => destruct b eqn:?
           | |- context [match ?d with Decimal.Nil => _ | _ => _ end] =>
               destruct d
           end; try discriminate;
    intros [= <- <-]; cbn [json_value]; destruct neg; lia.
Qed.

Lemma parse_literal_json (s : string) (v : jsval) (rest : string) :
  parse_literal s = Some (v, rest) -> json_value v = true.
Proof.
  unfold parse_literal.
  repeat match goal with
         | |- context [match ?x with _ => _ end] => destruct x
         end; try discriminate; now intros [= <- <-].
Qed.

Lemma obj_set_names (x k : string) (v : jsval) (acc : list (string * jsval)) :
  existsb (String.eqb x) (map fst (obj_set k v acc))
  = existsb (String.eqb x) (map fst acc) || String.eqb x k.
Proof.
  induction acc as [| [k' v'] acc IH]; cbn.
  - now rewrite orb_false_r.
  - destruct (String.eqb_spec k k') as [-> | Hne]; cbn.
    + destruct (String.eqb x k'); cbn; [ reflexivity | now rewrite orb_false_r ].
    + rewrite IH. now rewrite orb_assoc.
Qed.

Lemma obj_set_distinct (k : string) (v : jsval) (acc : list (string * jsval)) :
  distinct (map fst acc) = true -> distinct (map fst (obj_set k v acc)) = true.
Proof.
  induction acc as [| [k' v'] acc IH]; cbn; [ reflexivity | ].
  intros H. apply andb_true_iff in H as [Hk Hd].
  destruct (String.eqb_spec k k') as [-> | Hne]; cbn.
  - now rewrite Hk, Hd.
  - rewrite obj_set_names, (IH Hd). apply negb_true_iff in Hk. rewrite Hk. cbn.
    destruct (String.eqb_spec k' k) as [-> | _]; [ congruence | reflexivity ].
Qed.

Lemma obj_set_members (k : string) (v : jsval) (acc : list (string * jsval)) :
  index_like k = false -> json_value v = true ->
  json_members acc = true -> json_members (obj_set k v acc) = true.
Proof.
  intros Hi Hv. induction acc as [| [k' v'] acc IH]; cbn [obj_set json_members].
  - intros _. now rewrite Hi, Hv.
  - intros H. apply andb_true_iff in H as [H Hacc].
    destruct (String.eqb k k'); cbn [json_members].
    + now rewrite Hi, Hv, Hacc.
    + now rewrite H, (IH Hacc).
Qed.

Lemma build_object_json (ms acc : list (string * jsval)) :
  forallb (fun kv => json_value (snd kv)) ms = true ->
  existsb (fun kv => index_like (fst kv)) ms = false ->
  distinct (map fst acc) = true -> json_members acc = true ->
  let o := fold_left (fun o kv => obj_set (fst kv) (snd kv) o) ms acc in
  distinct (map fst o) = true /\ json_members o = true.
Proof.
  revert acc. induction ms as [| [k v] ms IH]; intros acc Hok Hidx Hd Hm.
  - now split.
  - cbn [forallb existsb fst snd fold_left] in *.
    apply andb_true_iff in Hok as [Hv Hok].
    apply orb_false_iff in Hidx as [Hi Hidx].
    apply IH; auto using obj_set_distinct, obj_set_members.
Qed.

Lemma finish_object_json (r : option (list (string * jsval) * string))
  (v : jsval) (rest : string) :
  (forall ms rest', r = Some (ms, rest') ->
     forallb (fun kv => json_value (snd kv)) ms = true) ->
  finish_object r = Some (v, rest) -> json_value v = true.
Proof.
  intros Hms. destruct r as [[ms rest']|]; [ | discriminate ].
  specialize (Hms ms rest' eq_refl). cbn [finish_object].
  destruct (existsb _ ms) eqn:Hidx; [ discriminate | ].
  intros [= <- <-]. rewrite json_value_object.
  destruct (build_object_json ms [] Hms Hidx eq_refl eq_refl) as [Hd Hm].
  unfold build_object. now rewrite Hd, Hm.
Qed.

(** Everything that the parser returns is a value of the fragment. *)
Lemma parse_json (fuel : nat) :
  (forall s v rest, parse_value fuel s = Some (v, rest) -> json_value v = true)
  /\ (forall s l rest, parse_elements fuel s = Some (l, rest) ->
                       forallb json_value l = true)
  /\ (forall s ms rest, parse_members fuel s = Some (ms, rest) ->
        forallb (fun kv => json_value (snd kv)) ms = true).
Proof.
  induction fuel as [| fuel (IHv & IHe & IHm)];
    [ repeat split; discriminate | ].
  split; [ | split ].
  - intros s v rest H. cbn [parse_value] in H.
    destruct (skip_ws s) as [| c r]; [ discriminate | ].
    destruct (Ascii.eqb c "{").
    { destruct (peek "}" r); [ now injection H as <- <- | ].
      eapply finish_object_json; [ | exact H ]. intros ms rest'. apply IHm. }
    destruct (Ascii.eqb c "[").
    { destruct (peek "]" r); [ now injection H as <- <- | ].
      destruct (parse_elements fuel r) as [[l rest']|] eqn:He;
        [ | discriminate ].
      cbn in H. injection H as <- <-. cbn [json_value]. eapply IHe, He. }
    destruct (Ascii.eqb c dquote).
    { destruct (parse_chars r) as [[str rest']|] eqn:Hs; [ | discriminate ].
      now injection H as <- <-. }
    destruct (Ascii.eqb c "-"); [ eapply parse_number_json, H | ].
    destruct (is_digit c); [ eapply parse_number_json, H | ].
    eapply parse_literal_json, H.
  - intros s l rest H. cbn [parse_elements] in H.
    destruct (parse_value fuel s) as [[v r]|] eqn:Hv; [ | discriminate ].
    apply IHv in Hv.
    destruct (peek "," r) as [r1|].
    + destruct (parse_elements fuel r1) as [[vs r2]|] eqn:He; [ | discriminate ].
      injection H as <- <-. cbn [forallb]. rewrite Hv. eapply IHe, He.
    + destruct (peek "]" r); [ | discriminate ].
      injection H as <- <-. cbn. now rewrite Hv.
  - intros s ms rest H. cbn [parse_members] in H.
    destruct (peek dquote s) as [r|]; [ | discriminate ].
    destruct (parse_chars r) as [[k r1]|] eqn:Hk; [ | discriminate ].
    destruct (peek ":" r1) as [r2|]; [ | discriminate ].
    destruct (parse_value fuel r2) as [[v r3]|] eqn:Hv; [ | discriminate ].
    apply IHv in Hv.
    destruct (peek "," r3) as [r4|].
    + destruct (parse_members fuel r4) as [[ms' r5]|] eqn:Hm; [ | discriminate ].
      injection H as <- <-. cbn [forallb fst snd]. rewrite Hv. eapply IHm, Hm.
    + destruct (peek "}" r3); [ | discriminate ].
      injection H as <- <-. cbn. now rewrite Hv.
Qed.

Lemma JSON_parse_json (text : string) (v : jsval) :
  JSON_parse text = Some v -> json_value v = true.
Proof.
  unfold JSON_parse.
  destruct (parse_value _ text) as [[v' rest]|] eqn:H; [ | discriminate ].
  destruct (skip_ws rest); [ | discriminate ].
  intros [= <-]. eapply (proj1 (parse_json _)), H.
Qed.

(** *** The parser against the grammar *)

Lemma parse_chars_scan (n : nat) :
  forall s str rest : string,
    (String.length s <= n)%nat ->
    parse_chars s = Some (str, rest) -> scan_chars s = Some rest.
Proof.
  induction n as [| n IH]; intros s str rest Hlen Hp;
    destruct s as [| c s]; try discriminate Hp; cbn in Hlen; [ lia | ].
  cbn [parse_chars scan_chars] in *. cbv zeta in *.
  destruct (N_of_ascii c =? 34)%N; [ now injection Hp as <- <- | ].
  destruct (N_of_ascii c =? 92)%N.
  - destruct s as [| e s]; [ discriminate Hp | ].
    destruct (simple_escape e) as [c' |] eqn:He.
    + apply prepend_Some in Hp as (str' & -> & Hp).
      apply (IH s str' rest); [ cbn in Hlen; lia | exact Hp ].
    + destruct (N_of_ascii e =? 117)%N; [ | discriminate Hp ].
      destruct s as [| h1 [| h2 [| h3 [| h4 s]]]]; try discriminate Hp.
      destruct (hex4 h1 h2 h3 h4) as [code|]; [ | discriminate Hp ].
      destruct (code <? 128)%N.
      { apply prepend_Some in Hp as (str' & -> & Hp).
        apply (IH s str' rest); [ cbn in Hlen; lia | exact Hp ]. }
      destruct (high_surrogate code).
      { destruct s as [| b [| u [| l1 [| l2 [| l3 [| l4 s]]]]]];
          try discriminate Hp.
        destruct ((N_of_ascii b =? 92) && (N_of_ascii u =? 117))%N eqn:Hbu;
          [ | discriminate Hp ].
        apply andb_true_iff in Hbu as [Hb Hu].
        destruct (hex4 l1 l2 l3 l4) as [low|] eqn:Hlow; [ | discriminate Hp ].
        destruct (low_surrogate low); [ | discriminate Hp ].
        apply prepend_all_Some in Hp as (str' & -> & Hp).
        assert (Hn : (S (S (S (S (S (S (String.length s)))))) <= n)%nat)
          by (cbn in Hlen; lia).
        destruct n as [| n']; [ lia | ].
        assert (Hb34 : (N_of_ascii b =? 34)%N = false)
          by (apply N.eqb_eq in Hb; rewrite Hb; reflexivity).
        assert (Hs117 : simple_escape u = None).
        { unfold simple_escape. apply N.eqb_eq in Hu. rewrite Hu. reflexivity. }
        cbn [scan_chars]. cbv zeta. rewrite Hb34, Hb, Hs117, Hu, Hlow.
        apply (IH s str' rest); [ cbn in Hlen; lia | exact Hp ]. }
      destruct (low_surrogate code); [ discriminate Hp | ].
      apply prepend_all_Some in Hp as (str' & -> & Hp).
      apply (IH s str' rest); [ cbn in Hlen; lia | exact Hp ].
  - destruct (N_of_ascii c <? 32)%N; [ discriminate Hp | ].
    apply prepend_Some in Hp as (str' & -> & Hp).
    apply (IH s str' rest); [ lia | exact Hp ].
Qed.

Lemma parse_number_scan (neg : bool) (s : string) (v : jsval) (rest : string) :
  parse_number neg s = Some (v, rest) -> scan_number s = Some rest.
Proof.
  unfold parse_number, scan_number. destruct (read_digits s) as [ds r].
  assert (Hrest : starts_fraction r = false ->
                  match scan_fraction r with
                  | Some r1 => scan_exponent r1
                  | None => None
                  end = Some r).
  { destruct r as [| c r]; [ reflexivity | ].
    unfold starts_fraction, scan_fraction, scan_exponent.
    destruct (Ascii.eqb_spec c "."%char) as [-> | _]; [ discriminate | ].
    destruct (Ascii.eqb_spec c "e"%char) as [-> | _]; [ discriminate | ].
    destruct (Ascii.eqb_spec c "E"%char) as [-> | _]; [ discriminate | ].
    reflexivity. }
  destruct ds; try discriminate;
    repeat match goal with
           | |- context [match ?d with Decimal.Nil => _ | _ => _ end] =>
               destruct d
           end; try discriminate;
    destruct (starts_fraction r); try discriminate;
    rewrite (Hrest eq_refl);
    destruct (MAX_EXACT <? _)%Z; try discriminate;
    now intros [= <- <-].
Qed.

(** Every text that the parser reads is JSON. *)
Lemma parse_scan (fuel : nat) :
  (forall s v rest, parse_value fuel s = Some (v, rest) ->
                    scan_value fuel s = Some rest)
  /\ (forall s l rest, parse_elements fuel s = Some (l, rest) ->
                       scan_elements fuel s = Some rest)
  /\ (forall s ms rest, parse_members fuel s = Some (ms, rest) ->
                        scan_members fuel s = Some rest).
Proof.
  induction fuel as [| fuel (IHv & IHe & IHm)];
    [ repeat split; discriminate | ].
  split; [ | split ].
  - intros s v rest H. cbn [parse_value scan_value] in *.
    destruct (skip_ws s) as [| c r]; [ discriminate | ].
    destruct (Ascii.eqb c "{").
    { destruct (peek "}" r); [ now injection H as <- <- | ].
      destruct (parse_members fuel r) as [[ms rest']|] eqn:Hm;
        [ | discriminate ].
      cbn [finish_object] in H.
      destruct (existsb _ ms); [ discriminate | ].
      injection H as <- <-. eapply IHm, Hm. }
    destruct (Ascii.eqb c "[").
    { destruct (peek "]" r); [ now injection H as <- <- | ].
      destruct (parse_elements fuel r) as [[l rest']|] eqn:He;
        [ | discriminate ].
      cbn in H. injection H as <- <-. eapply IHe, He. }
    destruct (Ascii.eqb c dquote).
    { destruct (parse_chars r) as [[str rest']|] eqn:Hs; [ | discriminate ].
      injection H as <- <-.
      eapply (parse_chars_scan (String.length r)); [ reflexivity | exact Hs ]. }
    destruct (Ascii.eqb c "-"); [ eapply parse_number_scan, H | ].
    destruct (is_digit c); [ eapply parse_number_scan, H | ].
    unfold scan_literal. now rewrite H.
  - intros s l rest H. cbn [parse_elements scan_elements] in *.
    destruct (parse_value fuel s) as [[v r]|] eqn:Hv; [ | discriminate ].
    rewrite (IHv _ _ _ Hv).
    destruct (peek "," r) as [r1|].
    + destruct (parse_elements fuel r1) as [[vs r2]|] eqn:He; [ | discriminate ].
      injection H as <- <-. eapply IHe, He.
    + destruct (peek "]" r); [ | discriminate ].
      now injection H as <- <-.
  - intros s ms rest H. cbn [parse_members scan_members] in *.
    destruct (peek dquote s) as [r|]; [ | discriminate ].
    destruct (parse_chars r) as [[k r1]|] eqn:Hk; [ | discriminate ].
    rewrite (parse_chars_scan (String.length r) r k r1 (le_n _) Hk).
    destruct (peek ":" r1) as [r2|]; [ | discriminate ].
    destruct (parse_value fuel r2) as [[v r3]|] eqn:Hv; [ | discriminate ].
    rewrite (IHv _ _ _ Hv).
    destruct (peek "," r3) as [r4|].
    + destruct (parse_members fuel r4) as [[ms' r5]|] eqn:Hm; [ | discriminate ].
      injection H as <- <-. eapply IHm, Hm.
    + destruct (peek "}" r3); [ | discriminate ].
      now injection H as <- <-.
Qed.

Lemma JSON_valid_parse (text : string) (v : jsval) :
  JSON_parse text = Some v -> JSON_valid text = true.
Proof.
  unfold JSON_parse, JSON_valid.
  destruct (parse_value _ text) as [[v' rest]|] eqn:H; [ | discriminate ].
  rewrite (proj1 (parse_scan _) _ _ _ H).
  now destruct (skip_ws rest).
Qed.

(** *** The fuel of the grammar

    More fuel than [JSON_valid] hands out changes nothing: where it answers
    [false], the text is not JSON, whatever the fuel. *)

Lemma skip_ws_length (s : string) :
  (String.length (skip_ws s) <= String.length s)%nat.
Proof.
  induction s as [| c s IH]; [ reflexivity | ].
  cbn. destruct (is_ws c); cbn; lia.
Qed.

Lemma peek_length (c : ascii) (s rest : string) :
  peek c s = Some rest -> (String.length rest < String.length s)%nat.
Proof.
  unfold peek. pose proof (skip_ws_length s) as H.
  destruct (skip_ws s) as [| c' r]; [ discriminate | ].
  destruct (Ascii.eqb c' c); [ | discriminate ].
  intros [= <-]. cbn in H. lia.
Qed.

Lemma scan_chars_length (n : nat) :
  forall s rest : string,
    (String.length s <= n)%nat ->
    scan_chars s = Some rest -> (String.length rest < String.length s)%nat.
Proof.
  induction n as [| n IH]; intros s rest Hlen Hp;
    destruct s as [| c s]; try discriminate Hp; cbn in Hlen; [ lia | ].
  cbn [scan_chars] in Hp. cbv zeta in Hp. cbn [String.length].
  destruct (N_of_ascii c =? 34)%N; [ injection Hp as <-; lia | ].
  destruct (N_of_ascii c =? 92)%N.
  - destruct s as [| e s]; [ discriminate Hp | ].
    destruct (simple_escape e) as [c' |].
    + apply IH in Hp; cbn in *; lia.
    + destruct (N_of_ascii e =? 117)%N; [ | discriminate Hp ].
      destruct s as [| h1 [| h2 [| h3 [| h4 s]]]]; try discriminate Hp.
      destruct (hex4 h1 h2 h3 h4) as [code|]; [ | discriminate Hp ].
      apply IH in Hp; cbn in *; lia.
  - destruct (N_of_ascii c <? 32)%N; [ discriminate Hp | ].
    apply IH in Hp; lia.
Qed.

Lemma read_digits_length (s : string) :
  (String.length (snd (read_digits s)) <= String.length s)%nat.
Proof.
  induction s as [| c s IH]; [ reflexivity | ].
  cbn. destruct (digit_of_char c); [ | cbn; lia ].
  destruct (read_digits s). cbn in *. lia.
Qed.

Lemma scan_digits_length (s rest : string) :
  scan_digits s = Some rest -> (String.length rest <= String.length s)%nat.
Proof.
  unfold scan_digits. pose proof (read_digits_length s) as H.
  destruct (read_digits s) as [ds r]. cbn in H.
  destruct ds; try discriminate; now intros [= <-].
Qed.

(** A number literal takes at least the digits at its front. *)
Lemma scan_number_length (s rest : string) :
  scan_number s = Some rest ->
  (String.length rest <= String.length (snd (read_digits s)))%nat.
Proof.
  unfold scan_number. destruct (read_digits s) as [ds r]. cbn [snd].
  assert (Hrest : match scan_fraction r with
                  | Some r1 => scan_exponent r1
                  | None => None
                  end = Some rest ->
                  (String.length rest <= String.length r)%nat).
  { destruct (scan_fraction r) as [r1|] eqn:Hf; [ | discriminate ].
    assert (Hr1 : (String.length r1 <= String.length r)%nat).
    { revert Hf. unfold scan_fraction.
      destruct r as [| c r0]; [ now intros [= <-] | ].
      destruct (Ascii.eqb c "."); [ | now intros [= <-] ].
      intros Hd. apply scan_digits_length in Hd. cbn. lia. }
    unfold scan_exponent.
    destruct r1 as [| c r2]; [ intros [= <-]; lia | ].
    destruct (Ascii.eqb c "e" || Ascii.eqb c "E"); [ | intros [= <-]; lia ].
    destruct r2 as [| sign r3]; [ discriminate | ].
    destruct (Ascii.eqb sign "+" || Ascii.eqb sign "-");
      intros Hd; apply scan_digits_length in Hd; cbn in *; lia. }
  destruct ds; try discriminate;
    repeat match goal with
           | |- context [match ?d with Decimal.Nil => _ | _ => _ end] =>
               destruct d
           end; try discriminate; exact Hrest.
Qed.

Lemma parse_literal_length (s : string) (v : jsval) (rest : string) :
  parse_literal s = Some (v, rest) ->
  (String.length rest < String.length s)%nat.
Proof.
  unfold parse_literal.
  repeat match goal with
         | |- context [match ?x with _ => _ end] => destruct x
         end; try discriminate; intros [= <- <-]; cbn; lia.
Qed.

Lemma scan_literal_length (s rest : string) :
  scan_literal s = Some rest -> (String.length rest < String.length s)%nat.
Proof.
  unfold scan_literal.
  destruct (parse_literal s) as [[v r]|] eqn:E; [ | discriminate ].
  intros [= <-]. exact (parse_literal_length s v r E).
Qed.

(** What a scan leaves is shorter than what it was given. *)
Lemma scan_length (fuel : nat) :
  (forall s rest, scan_value fuel s = Some rest ->
                  (String.length rest < String.length s)%nat)
  /\ (forall s rest, scan_elements fuel s = Some rest ->
                     (String.length rest < String.length s)%nat)
  /\ (forall s rest, scan_members fuel s = Some rest ->
                     (String.length rest < String.length s)%nat).
Proof.
  induction fuel as [| fuel (IHv & IHe & IHm)];
    [ repeat split; discriminate | ].
  split; [ | split ].
  - intros s rest H. cbn [scan_value] in H.
    pose proof (skip_ws_length s) as Hs.
    destruct (skip_ws s) as [| c r]; [ discriminate | ]. cbn in Hs.
    destruct (Ascii.eqb c "{").
    { destruct (peek "}" r) as [r1|] eqn:Hp.
      - injection H as <-. apply peek_length in Hp. lia.
      - apply IHm in H. lia. }
    destruct (Ascii.eqb c "[").
    { destruct (peek "]" r) as [r1|] eqn:Hp.
      - injection H as <-. apply peek_length in Hp. lia.
      - apply IHe in H. lia. }
    destruct (Ascii.eqb c dquote).
    { apply (scan_chars_length (String.length r)) in H; lia. }
    destruct (Ascii.eqb c "-").
    { apply scan_number_length in H. pose proof (read_digits_length r). lia. }
    destruct (is_digit c) eqn:Hd.
    { apply scan_number_length in H. revert H. cbn [read_digits].
      unfold is_digit in Hd. destruct (digit_of_char c); [ | discriminate ].
      pose proof (read_digits_length r) as Hr.
      destruct (read_digits r) as [ds r']. cbn in *. lia. }
    apply scan_literal_length in H. cbn in H. lia.
  - intros s rest H. cbn [scan_elements] in H.
    destruct (scan_value fuel s) as [r|] eqn:Hv; [ | discriminate ].
    apply IHv in Hv.
    destruct (peek "," r) as [r1|] eqn:Hp.
    + apply peek_length in Hp. apply IHe in H. lia.
    + apply peek_length in H. lia.
  - intros s rest H. cbn [scan_members] in H.
    destruct (peek dquote s) as [r|] eqn:H0; [ | discriminate ].
    apply peek_length in H0.
    destruct (scan_chars r) as [r1|] eqn:Hk; [ | discriminate ].
    apply (scan_chars_length (String.length r)) in Hk; [ | lia ].
    destruct (peek ":" r1) as [r2|] eqn:H2; [ | discriminate ].
    apply peek_length in H2.
    destruct (scan_value fuel r2) as [r3|] eqn:Hv; [ | discriminate ].
    apply IHv in Hv.
    destruct (peek "," r3) as [r4|] eqn:Hp.
    + apply peek_length in Hp. apply IHm in H. lia.
    + apply peek_length in H. lia.
Qed.

(** With two units of fuel for every character, one more changes nothing. *)
Lemma scan_fuel (fuel : nat) :
  (forall s, (2 * String.length s + 1 <= fuel)%nat ->
             scan_value (S fuel) s = scan_value fuel s)
  /\ (forall s, (2 * String.length s + 2 <= fuel)%nat ->
                scan_elements (S fuel) s = scan_elements fuel s)
  /\ (forall s, (2 * String.length s + 2 <= fuel)%nat ->
                scan_members (S fuel) s = scan_members fuel s).
Proof.
  induction fuel as [| fuel (IHv & IHe & IHm)];
    [ repeat split; intros s H; lia | ].
  split; [ | split ].
  - intros s H.
    change (scan_value (S (S fuel)) s)
      with (match skip_ws s with
            | "" => None
            | String c rest =>
                if Ascii.eqb c "{" then
                  match peek "}" rest with
                  | Some rest1 => Some rest1
                  | None => scan_members (S fuel) rest
                  end
                else if Ascii.eqb c "[" then
                  match peek "]" rest with
                  | Some rest1 => Some rest1
                  | None => scan_elements (S fuel) rest
                  end
                else if Ascii.eqb c dquote then scan_chars rest
                else if Ascii.eqb c "-" then scan_number rest
                else if is_digit c then scan_number (String c rest)
                else scan_literal (String c rest)
            end).
    cbn [scan_value].
    pose proof (skip_ws_length s) as Hs.
    destruct (skip_ws s) as [| c r]; [ reflexivity | ]. cbn in Hs.
    rewrite IHm, IHe by lia. reflexivity.
  - intros s H.
    change (scan_elements (S (S fuel)) s)
      with (match scan_value (S fuel) s with
            | None => None
            | Some rest =>
                match peek "," rest with
                | Some rest1 => scan_elements (S fuel) rest1
                | None => peek "]" rest
                end
            end).
    cbn [scan_elements]. rewrite IHv by lia.
    destruct (scan_value fuel s) as [r|] eqn:Hv; [ | reflexivity ].
    apply (proj1 (scan_length fuel)) in Hv.
    destruct (peek "," r) as [r1|] eqn:Hp; [ | reflexivity ].
    apply peek_length in Hp. apply IHe. lia.
  - intros s H.
    change (scan_members (S (S fuel)) s)
      with (match peek dquote s with
            | None => None
            | Some rest =>
                match scan_chars rest with
                | None => None
                | Some rest1 =>
                    match peek ":" rest1 with
                    | None => None
                    | Some rest2 =>
                        match scan_value (S fuel) rest2 with
                        | None => None
                        | Some rest3 =>
                            match peek "," rest3 with
                            | Some rest4 => scan_members (S fuel) rest4
                            | None => peek "}" rest3
                            end
                        end
                    end
                end
            end).
    cbn [scan_members].
    destruct (peek dquote s) as [r|] eqn:H0; [ | reflexivity ].
    apply peek_length in H0.
    destruct (scan_chars r) as [r1|] eqn:Hk; [ | reflexivity ].
    apply (scan_chars_length (String.length r)) in Hk; [ | lia ].
    destruct (peek ":" r1) as [r2|] eqn:H2; [ | reflexivity ].
    apply peek_length in H2.
    rewrite IHv by lia.
    destruct (scan_value fuel r2) as [r3|] eqn:Hv; [ | reflexivity ].
    apply (proj1 (scan_length fuel)) in Hv.
    destruct (peek "," r3) as [r4|] eqn:Hp; [ | reflexivity ].
    apply peek_length in Hp. apply IHm. lia.
Qed.

Lemma scan_value_fuel (text : string) (more : nat) :
  scan_value (S (2 * String.length text) + more) text
  = scan_value (S (2 * String.length text)) text.
Proof.
  induction more as [| more IH]; [ now rewrite Nat.add_0_r | ].
  rewrite Nat.add_succ_r, <- IH.
  apply (proj1 (scan_fuel _)). lia.
Qed.

(** *** The fragment, by example *)

(** Text in any script is read as it is, and an escape is decoded into the
    bytes of its character: [U+00F1] into two bytes, and the pair
    [D83D DE00] into the four bytes of one code point. *)
Example escapes_are_decoded :
  JSON_parse (String dquote ("ni\u00f1o \ud83d\ude00" +:+ String dquote ""))
  = Some (JStr (String "n" (String "i"
       (String (ascii_of_N 195) (String (ascii_of_N 177) (String "o"
       (String " " (String (ascii_of_N 240) (String (ascii_of_N 159)
       (String (ascii_of_N 152) (String (ascii_of_N 128) ""))))))))))).
Proof. vm_compute. reflexivity. Qed.

(** JSON outside the fragment: the text is JSON, the parser does not read
    it. *)
Example json_outside_the_fragment :
  map (fun text => (JSON_valid text, JSON_parse text))
      ["1.5"; "1e3"; "9007199254740993";
       String dquote ("\ud800" +:+ String dquote "")]
  = [(true, None); (true, None); (true, None); (true, None)].
Proof. vm_compute. reflexivity. Qed.

(** Texts that are not JSON. *)
Example not_json :
  map JSON_valid [""; "01"; "1."; ".5"; "-"; "[1,]"; "{command: 1}"; "nul";
                  "[1 2]"; "undefined"]
  = [false; false; false; false; false; false; false; false; false; false].
Proof. vm_compute. reflexivity. Qed.

(** *** The codec of the connection *)

(** X1. [JSON.parse] undoes [JSON.stringify] on every value of the fragment:
    what [sendToNeuro] serializes, [handleMessage] would parse back to the
    same value. *)
Theorem parse_after_stringify (v : jsval) :
  json_value v = true -> JSON_parse (serialize v) = Some v.
Proof. apply JSON_parse_serialize. Qed.

Lemma parse_after_stringify_witness :
  JSON_parse (serialize Neuro.startup_message) = Some Neuro.startup_message.
Proof. apply parse_after_stringify. reflexivity. Defined.

(** X2. whatever [JSON.parse] accepts, it returns a value of the fragment,
    and serializing that value gives a text that parses to the same value:
    parsing normalises (white space, escapes and repeated names go), and
    the normal form is stable. *)
Theorem parse_normalises (text : string) (v : jsval) :
  JSON_parse text = Some v ->
  json_value v = true /\ JSON_parse (serialize v) = Some v.
Proof.
  intros H. pose proof (JSON_parse_json text v H) as Hj.
  split; [ exact Hj | now apply JSON_parse_serialize ].
Qed.

Lemma parse_normalises_witness :
  JSON_parse spaced_ping = Some (JObj [("command", JStr "ping")])
  /\ serialize (JObj [("command", JStr "ping")]) <> spaced_ping
  /\ JSON_parse (serialize (JObj [("command", JStr "ping")]))
     = Some (JObj [("command", JStr "ping")]).
Proof.
  split; [ reflexivity | ]. split; [ discriminate | ].
  apply (parse_normalises spaced_ping). reflexivity.
Defined.

End Codec.

(* ===================================================================== *)
(** * The connection over a session: frames, heartbeat, retries *)
(* ===================================================================== *)

Module Session.
Import JS Neuro.
Import Sending.

#[local] Arguments serialize : simpl never.
#[local] Arguments JSON_parse : simpl never.
#[local] Arguments reconnect_delay : simpl never.
#[local] Arguments socket_writes : simpl never.
#[local] Arguments dispatched : simpl never.

Lemma dispatched_snoc (es : list effect) (e : effect) :
  dispatched (es ++ [e])
  = (dispatched es ++ match e with
                      | DispatchNeuroMessage m => [m]
                      | _ => []
                      end)%list.
Proof.
  unfold dispatched. rewrite flat_map_app. cbn. now rewrite app_nil_r.
Qed.

Ltac tidy :=
  rewrite ?socket_writes_snoc, ?dispatched_snoc; cbn; rewrite ?app_nil_r.

Lemma obj_get_set_eq (k : string) (v : jsval) (ps : list (string * jsval)) :
  obj_get k (obj_set k v ps) = v.
Proof.
  induction ps as [| [k' v'] ps IH]; cbn.
  - now rewrite String.eqb_refl.
  - destruct (String.eqb k k') eqn:E; cbn.
    + now rewrite String.eqb_refl.
    + now rewrite E.
Qed.

Lemma obj_get_set_ne (k k' : string) (v : jsval) (ps : list (string * jsval)) :
  String.eqb k k' = false -> obj_get k (obj_set k' v ps) = obj_get k ps.
Proof.
  intros Hne. induction ps as [| [k2 v2] ps IH]; cbn.
  - now rewrite Hne.
  - destruct (String.eqb k' k2) eqn:E; cbn.
    + apply String.eqb_eq in E as <-. now rewrite Hne.
    + now rewrite IH.
Qed.

Lemma with_game_fields (props : list (string * jsval)) :
  obj_get "command" (with_game props) = obj_get "command" props
  /\ truthy (obj_get "game" (with_game props)) = true
  /\ (truthy (obj_get "game" props) = true -> with_game props = props).
Proof.
  unfold with_game. destruct (truthy (obj_get "game" props)) eqn:E; cbn.
  - auto.
  - rewrite obj_get_set_ne by reflexivity. rewrite obj_get_set_eq.
    repeat split. discriminate.
Qed.

(** What [sendToNeuro] returns, against what it wrote. *)
Lemma sendToNeuro_written (msg : jsval) (w : World) :
  stringifies (MessageHandler.field "command" msg) = true ->
  let '(r, w') := sendToNeuro msg w in
  conn w' = conn w /\ sockets w' = sockets w /\ timers w' = timers w
  /\ match r with
     | Return true =>
         exists (s : positive) (props : list (string * jsval)),
           msg = JObj props
           /\ ws (conn w) = Some s
           /\ sockets w !! s = Some OPEN
           /\ truthy (obj_get "command" (with_game props)) = true
           /\ truthy (obj_get "game" (with_game props)) = true
           /\ (truthy (obj_get "game" props) = true -> with_game props = props)
           /\ socket_writes (effects w')
              = (socket_writes (effects w)
                   ++ [(s, serialize (JObj (with_game props)))])%list
     | _ => socket_writes (effects w') = socket_writes (effects w)
     end.
Proof.
  intros Hstr.
  destruct w as [[sock ic lmt ra rt cl hb pm pend] socks tims ns nt es].
  unfold sendToNeuro, log, is_open. cbn.
  destruct ic; [ destruct sock as [s|] | ]; cbn;
    try (destruct (socks !! s) as [[| | |]|] eqn:Hs; cbn);
    try (destruct msg as [| | b | n | str | l | props]; cbn);
    try (destruct (truthy (obj_get "command" props)) eqn:Hcmd; cbn;
         [ destruct (with_game_fields props) as (Hc & Hg & Hid);
           fold (with_game props); cbn in Hstr; rewrite Hc, Hstr; cbn | ]);
    tidy; repeat split; try reflexivity.
  exists s, props. rewrite Hc. repeat split; auto.
Qed.

(** X3. [sendToNeuro] returns true exactly when it has written one frame,
    and that frame carries a truthy [command] and [game]; when it returns
    false or throws, nothing is written.  It never touches the connection,
    the sockets or the timers.  This is for a message whose [command] can
    be made a string (the log line that follows the write interpolates it)
    and whose numbers print in plain digits. *)
Theorem sendToNeuro_true_iff_written (msg : jsval) (w : World) :
  stringifies (MessageHandler.field "command" msg) = true ->
  plain msg = true ->
  let '(r, w') := sendToNeuro msg w in
  conn w' = conn w /\ sockets w' = sockets w /\ timers w' = timers w
  /\ match r with
     | Return true =>
         exists (s : positive) (props : list (string * jsval)),
           msg = JObj props
           /\ ws (conn w) = Some s
           /\ sockets w !! s = Some OPEN
           /\ truthy (obj_get "command" (with_game props)) = true
           /\ truthy (obj_get "game" (with_game props)) = true
           /\ (truthy (obj_get "game" props) = true -> with_game props = props)
           /\ socket_writes (effects w')
              = (socket_writes (effects w)
                   ++ [(s, serialize (JObj (with_game props)))])%list
     | _ => socket_writes (effects w') = socket_writes (effects w)
     end.
Proof. intros Hstr _. exact (sendToNeuro_written msg w Hstr). Qed.

Lemma sendToNeuro_true_iff_written_witness :
  stringifies
    (MessageHandler.field "command" (JObj [("command", JStr "context")])) = true
  /\ plain (JObj [("command", JStr "context")]) = true
  /\ let '(r, w') := sendToNeuro (JObj [("command", JStr "context")])
                                 (init true) in
     conn w' = conn (init true) /\ sockets w' = sockets (init true)
     /\ timers w' = timers (init true)
     /\ match r with
        | Return true =>
            exists (s : positive) (props : list (string * jsval)),
              JObj [("command", JStr "context")] = JObj props
              /\ ws (conn (init true)) = Some s
              /\ sockets (init true) !! s = Some OPEN
              /\ truthy (obj_get "command" (with_game props)) = true
              /\ truthy (obj_get "game" (with_game props)) = true
              /\ (truthy (obj_get "game" props) = true -> with_game props = props)
              /\ socket_writes (effects w')
                 = (socket_writes (effects (init true))
                      ++ [(s, serialize (JObj (with_game props)))])%list
        | _ => socket_writes (effects w') = socket_writes (effects (init true))
        end.
Proof.
  split; [ reflexivity | ]. split; [ reflexivity | ].
  apply (sendToNeuro_true_iff_written (JObj [("command", JStr "context")])
           (init true)); reflexivity.
Defined.

(** X4. the heartbeat callback writes a ping, and only a ping, exactly when
    it finds the connection idle: connected, the socket open, and more than
    15000 ms since the last message.  It changes nothing else; with no
    message time recorded it never pings. *)
Theorem heartbeat_pings_iff_idle (now : Z) (w : World) :
  let w' := heartbeat_tick now w in
  conn w' = conn w /\ sockets w' = sockets w /\ timers w' = timers w
  /\ (idle now w = true ->
      exists s, ws (conn w) = Some s
                /\ socket_writes (effects w')
                   = (socket_writes (effects w)
                        ++ [(s, serialize ping_message)])%list)
  /\ (idle now w = false ->
      effects w' = effects w)
  /\ (lastMessageTime (conn w) = None -> idle now w = false)
  /\ JSON_parse (serialize ping_message) = Some ping_message.
Proof.
  destruct w as [[sock ic lmt ra rt cl hb pm pend] socks tims ns nt es].
  unfold heartbeat_tick, idle, log, is_open. cbn.
  destruct sock as [s|], ic, lmt as [t|]; cbn;
    try (destruct (socks !! s) as [[| | |]|]; cbn);
    try (destruct (t =? 0)%Z; cbn);
    try (destruct (CONFIG.HEARTBEAT_INTERVAL <? now - t)%Z; cbn);
    tidy; repeat split; try reflexivity; try discriminate;
    intros _; exists s; split; reflexivity.
Qed.

(** What [handleMessage] does with a text, by what it parses to. *)
Lemma handleMessage_spec (now : Z) (data : string) (w : World) :
  let w' := handleMessage now data w in
  sockets w' = sockets w /\ timers w' = timers w
  /\ ws (conn w') = ws (conn w)
  /\ isConnected (conn w') = isConnected (conn w)
  /\ reconnectAttempts (conn w') = reconnectAttempts (conn w)
  /\ reconnectTimer (conn w') = reconnectTimer (conn w)
  /\ heartbeatInterval (conn w') = heartbeatInterval (conn w)
  /\ lastMessageTime (conn w') = Some now
  /\ socket_writes (effects w') = socket_writes (effects w)
  /\ match JSON_parse data with
     | Some msg =>
         if accepted msg then
           dispatched (effects w') = (dispatched (effects w) ++ [msg])%list
           /\ pendingMessage (conn w') = Some msg
         else
           dispatched (effects w') = dispatched (effects w)
           /\ pendingMessage (conn w') = pendingMessage (conn w)
           /\ In (LoggerLog error "Error processing WebSocket message:")
                 (effects w')
     | None =>
         dispatched (effects w') = dispatched (effects w)
         /\ pendingMessage (conn w') = pendingMessage (conn w)
         /\ In (LoggerLog error "Error processing WebSocket message:")
               (effects w')
     end.
Proof.
  destruct w as [[sock ic lmt ra rt cl hb pm pend] socks tims ns nt es].
  unfold handleMessage, accepted, log. cbn.
  destruct (JSON_parse data) as [[| | b | n | s | l | props]|]; cbn;
    try (destruct (stringifies (obj_get "command" props)); cbn);
    tidy; repeat split; try reflexivity;
    apply in_or_app; right; now left.
Qed.

(** X5. [handleMessage] survives any text.  Whatever arrives, it records
    the time and leaves the connection as it was: same socket, same flags,
    same timers, nothing written.  A text that [JSON_parse] reads is handed
    to the background script, once, and stored as [pendingMessage], if it is
    [accepted]: an object whose [command] can be made a string (the log line
    before the dispatch interpolates it), a number, a string, a boolean or
    an array.  It is not handed on, and [pendingMessage] stays, if it is
    [null] or an object whose [command] cannot be made a string, and neither
    is a text that is not JSON: an error is logged instead.  Of JSON outside
    the fragment that [JSON_parse] reads, only the first part is stated. *)
Theorem handleMessage_contained (now : Z) (data : string) (w : World) :
  let w' := handleMessage now data w in
  sockets w' = sockets w /\ timers w' = timers w
  /\ ws (conn w') = ws (conn w)
  /\ isConnected (conn w') = isConnected (conn w)
  /\ reconnectAttempts (conn w') = reconnectAttempts (conn w)
  /\ reconnectTimer (conn w') = reconnectTimer (conn w)
  /\ heartbeatInterval (conn w') = heartbeatInterval (conn w)
  /\ lastMessageTime (conn w') = Some now
  /\ socket_writes (effects w') = socket_writes (effects w)
  /\ (forall msg : jsval,
        JSON_parse data = Some msg ->
        if accepted msg then
          dispatched (effects w') = (dispatched (effects w) ++ [msg])%list
          /\ pendingMessage (conn w') = Some msg
        else
          dispatched (effects w') = dispatched (effects w)
          /\ pendingMessage (conn w') = pendingMessage (conn w)
          /\ In (LoggerLog error "Error processing WebSocket message:")
                (effects w'))
  /\ (JSON_valid data = false ->
      dispatched (effects w') = dispatched (effects w)
      /\ pendingMessage (conn w') = pendingMessage (conn w)
      /\ In (LoggerLog error "Error processing WebSocket message:")
            (effects w'))
  /\ (forall msg : jsval,
        accepted msg = true <->
        match msg with
        | JUndefined | JNull => False
        | JObj props => stringifies (obj_get "command" props) = true
        | _ => True
        end).
Proof.
  pose proof (handleMessage_spec now data w) as H. cbv zeta in *.
  destruct H as (H1 & H2 & H3 & H4 & H5 & H6 & H7 & H8 & H9 & H10).
  repeat (split; [ assumption | ]).
  split; [ | split ].
  - intros msg Hm. now rewrite Hm in H10.
  - intros Hv. pose proof (Codec.JSON_valid_parse data) as Hp.
    destruct (JSON_parse data) as [msg|]; [ | exact H10 ].
    rewrite (Hp msg eq_refl) in Hv. discriminate Hv.
  - intros [| | b | n | s | l | props]; cbn; intuition discriminate.
Qed.

Lemma handleMessage_contained_witness :
  JSON_valid "{oops" = false
  /\ dispatched (effects (handleMessage 5000 "{oops" (init true))) = []
  /\ In (LoggerLog error "Error processing WebSocket message:")
        (effects (handleMessage 5000 "{oops" (init true)))
  /\ JSON_parse (serialize ping_message) = Some ping_message
  /\ dispatched (effects (handleMessage 5000 (serialize ping_message) (init true)))
     = [ping_message]
  /\ pendingMessage (conn (handleMessage 5000 (serialize ping_message) (init true)))
     = Some ping_message.
Proof.
  assert (Hbad : JSON_valid "{oops" = false) by (vm_compute; reflexivity).
  assert (Hgood : JSON_parse (serialize ping_message) = Some ping_message)
    by (vm_compute; reflexivity).
  pose proof (handleMessage_contained 5000 "{oops" (init true)) as H1.
  pose proof (handleMessage_contained 5000 (serialize ping_message) (init true))
    as H2.
  cbv zeta in H1, H2.
  destruct H1 as (_ & _ & _ & _ & _ & _ & _ & _ & _ & _ & H1 & _).
  destruct H2 as (_ & _ & _ & _ & _ & _ & _ & _ & _ & H2 & _).
  destruct (H1 Hbad) as (Hd & _ & Hlog).
  specialize (H2 ping_message Hgood).
  change (accepted ping_message) with true in H2. destruct H2 as (Hd2 & Hp2).
  split; [ exact Hbad | ]. split; [ exact Hd | ]. split; [ exact Hlog | ].
  split; [ exact Hgood | ]. split; [ exact Hd2 | exact Hp2 ].
Defined.

Lemma handleOpen_writes (now : Z) (w : World) :
  socket_writes (effects (handleOpen now w))
  = (socket_writes (effects w)
       ++ match ws (conn w) with
          | Some s => if is_open s w then [(s, serialize startup_message)] else []
          | None => []
          end)%list
  /\ isConnected (conn (handleOpen now w)) = true.
Proof.
  destruct w as [[sock ic lmt ra rt cl hb pm pend] socks tims ns nt es].
  destruct sock as [s|], hb, pm; Timers.unfold_methods; cbn;
    try (destruct (socks !! s) as [[| | |]|]; cbn); tidy; split; reflexivity.
Qed.

(** X6. the handshake.  When the socket that the connection holds opens,
    [handleOpen] writes the startup frame to it, and nothing else; when
    another socket opens (one that an earlier [connect] created) while the
    socket held is not open, the connection is marked connected all the
    same, but no startup frame is written. *)
Theorem open_sends_startup (w w' : World) (s : positive) (now : Z) :
  step w (SocketOpen s now) = Some w' ->
  isConnected (conn w') = true
  /\ (ws (conn w) = Some s ->
      socket_writes (effects w')
      = (socket_writes (effects w) ++ [(s, serialize startup_message)])%list)
  /\ (forall s', ws (conn w) = Some s' -> s' <> s ->
                 sockets w !! s' <> Some OPEN ->
                 socket_writes (effects w') = socket_writes (effects w))
  /\ (ws (conn w) = None ->
      socket_writes (effects w') = socket_writes (effects w))
  /\ JSON_parse (serialize startup_message) = Some startup_message.
Proof.
  intros Hstep. unfold step in Hstep.
  destruct (sockets w !! s) as [[| | |]|] eqn:Hs; try discriminate Hstep.
  injection Hstep as <-.
  destruct (handleOpen_writes now (with_sockets (<[s:=OPEN]> (sockets w)) w))
    as [Hw Hc].
  split; [ exact Hc | ].
  rewrite Hw. cbn [conn with_sockets effects]. unfold is_open.
  cbn [sockets with_sockets].
  split; [ | split; [ | split ] ].
  - intros ->. now rewrite lookup_insert_eq.
  - intros s' -> Hne Hclosed. rewrite lookup_insert_ne by congruence.
    rewrite app_nil_r || (destruct (sockets w !! s') as [[| | |]|];
                          try congruence; now rewrite app_nil_r).
  - intros ->. now rewrite app_nil_r.
  - reflexivity.
Qed.

Lemma open_sends_startup_witness :
  exists w w' : World,
    run (init true) [Connect false] = Some w
    /\ step w (SocketOpen 1 1000) = Some w'
    /\ socket_writes (effects w') = [(1%positive, serialize startup_message)].
Proof.
  eexists. eexists. split; [ vm_compute; reflexivity | ].
  split; [ vm_compute; reflexivity | ].
  match goal with
  | |- socket_writes (effects ?w') = _ =>
      pose proof (open_sends_startup
                    (mkWorld (mkConn (Some 1%positive) false None 0 None false
                                     None true None)
                             {[ 1%positive := CONNECTING ]} ∅ 2 1
                             [LoggerLog info "Attempting to connect to Neuro API..."])
                    w' 1 1000) as H
  end.
  destruct H as (_ & H & _); [ vm_compute; reflexivity | ].
  specialize (H eq_refl). vm_compute in H |- *. exact H.
Defined.

(** *** Handles are fresh *)

Lemma handles_fresh_init (popup : bool) : handles_fresh (init popup).
Proof.
  unfold handles_fresh. cbn.
  repeat split; intros; try discriminate; now rewrite lookup_empty in *.
Qed.

(** Replacing the state of a socket that exists. *)
Lemma handles_fresh_socket (w : World) (s : positive) (st : ReadyState) :
  is_Some (sockets w !! s) ->
  handles_fresh w -> handles_fresh (with_sockets (<[s:=st]> (sockets w)) w).
Proof.
  intros [st0 Hs] (H1 & H2 & H3 & H4 & H5 & H6).
  unfold handles_fresh. cbn. repeat split; auto.
  - intros s' st'. rewrite lookup_insert. case_decide; subst; eauto.
  - intros s' Hws. rewrite lookup_insert. case_decide; eauto.
Qed.

Ltac fresh_method w :=
  let H1 := fresh "H1" in
  let H2 := fresh "H2" in
  let H3 := fresh "H3" in
  let H4 := fresh "H4" in
  let H5 := fresh "H5" in
  let H6 := fresh "H6" in
  intros (H1 & H2 & H3 & H4 & H5 & H6);
  destruct w as [[sock ic lmt ra rt cl hb pm pend] socks tims ns nt es];
  unfold handles_fresh in *; cbn in H1, H2, H3, H4, H5, H6;
  destruct sock, rt, hb; Timers.unfold_methods; cbn;
  Notifications.branches; cbn;
  repeat split;
  repeat match goal with
         | |- forall _, _ => intro
         end;
  repeat (match goal with
          | H : context [<[_:=_]> _ !! _] |- _ => rewrite lookup_insert in H
          | H : context [delete _ _ !! _] |- _ => rewrite lookup_delete in H
          | |- context [<[_:=_]> _ !! _] => rewrite lookup_insert
          | |- context [delete _ _ !! _] => rewrite lookup_delete
          end || case_decide);
  simplify_eq;
  try match goal with
      | |- is_Some (Some _) => eexists; reflexivity
      end;
  try solve [ eauto
            | match goal with
              | H : forall id k, tims !! id = Some k -> _,
                H' : tims !! _ = Some _ |- _ =>
                  specialize (H _ _ H'); lia
              | H : forall s st, socks !! s = Some st -> _,
                H' : socks !! _ = Some _ |- _ =>
                  specialize (H _ _ H'); lia
              | H : forall id, Some _ = Some id -> _ |- _ =>
                  specialize (H _ eq_refl); lia
              end
            | lia ].

Lemma handles_fresh_same (w w' : World) :
  same_handles w w' -> handles_fresh w -> handles_fresh w'.
Proof.
  unfold same_handles, handles_fresh.
  intros (-> & -> & -> & -> & -> & -> & ->). auto.
Qed.

(** [handleOpen] is [startHeartbeat] after steps that leave the handles
    alone, and sets [isConnected]; [handleClose] is [scheduleReconnect]
    after [stopHeartbeat] and such steps, and clears it. *)
Lemma handleOpen_shape (now : Z) (w : World) :
  exists w1 : World,
    handleOpen now w = startHeartbeat w1
    /\ same_handles w w1 /\ isConnected (conn w1) = true.
Proof.
  unfold handleOpen. eexists. split; [ reflexivity | ].
  destruct w as [[sock ic lmt ra rt cl hb pm pend] socks tims ns nt es].
  unfold same_handles, sendStartup, when_popup, log, is_open; cbn.
  destruct pm, sock as [s|]; cbn;
    try (destruct (socks !! s) as [[| | |]|]; cbn); repeat split.
Qed.

Lemma handleClose_shape (w : World) :
  exists w1 : World,
    handleClose w = scheduleReconnect w1
    /\ same_handles (stopHeartbeat w) w1 /\ isConnected (conn w1) = false.
Proof.
  unfold handleClose. eexists. split; [ reflexivity | ].
  destruct w as [[sock ic lmt ra rt cl hb pm pend] socks tims ns nt es].
  unfold same_handles, stopHeartbeat, when_popup,
    showDisconnectionNotification, log, clearTimer; cbn.
  destruct hb, ic, pm, cl; cbn;
    try (destruct (CONFIG.MAX_RECONNECT_ATTEMPTS <=? ra)%Z; cbn);
    repeat split.
Qed.

Lemma fresh_stopHeartbeat (w : World) :
  handles_fresh w -> handles_fresh (stopHeartbeat w).
Proof. fresh_method w. Qed.

Lemma fresh_startHeartbeat (w : World) :
  handles_fresh w -> handles_fresh (startHeartbeat w).
Proof. fresh_method w. Qed.

Lemma fresh_scheduleReconnect (w : World) :
  handles_fresh w -> handles_fresh (scheduleReconnect w).
Proof. fresh_method w. Qed.

Lemma fresh_connect (thr : bool) (w : World) :
  handles_fresh w -> handles_fresh (connect thr w).
Proof. fresh_method w. Qed.

Lemma fresh_disconnect (w : World) :
  handles_fresh w -> handles_fresh (disconnect w).
Proof. fresh_method w. Qed.

Lemma fresh_sendToNeuro (msg : jsval) (w : World) :
  handles_fresh w -> handles_fresh (snd (sendToNeuro msg w)).
Proof. fresh_method w. Qed.

Lemma fresh_handleOpen (now : Z) (w : World) :
  handles_fresh w -> handles_fresh (handleOpen now w).
Proof.
  intros H. destruct (handleOpen_shape now w) as (w1 & -> & Hsame & _).
  apply fresh_startHeartbeat. revert H. now apply handles_fresh_same.
Qed.

Lemma fresh_handleClose (w : World) :
  handles_fresh w -> handles_fresh (handleClose w).
Proof.
  intros H. destruct (handleClose_shape w) as (w1 & -> & Hsame & _).
  apply fresh_scheduleReconnect.
  apply (handles_fresh_same _ _ Hsame). now apply fresh_stopHeartbeat.
Qed.

Lemma fresh_handleError (w : World) :
  handles_fresh w -> handles_fresh (handleError w).
Proof. fresh_method w. Qed.

Lemma fresh_handleMessage (now : Z) (data : string) (w : World) :
  handles_fresh w -> handles_fresh (handleMessage now data w).
Proof. fresh_method w. Qed.

Lemma fresh_heartbeat_tick (now : Z) (w : World) :
  handles_fresh w -> handles_fresh (heartbeat_tick now w).
Proof. fresh_method w. Qed.

Lemma fresh_clearTimer (id : positive) (w : World) :
  handles_fresh w -> handles_fresh (clearTimer id w).
Proof. fresh_method w. Qed.

Lemma handles_fresh_step (w w' : World) (ev : event) :
  handles_fresh w -> step w ev = Some w' -> handles_fresh w'.
Proof.
  intros Hf Hstep.
  destruct ev as [thr | | msg | s now | s | s | s now data | id thr | id now];
    unfold step in Hstep;
    repeat match type of Hstep with
           | match ?x with _ => _ end = _ =>
               destruct x eqn:?; try discriminate Hstep
           end;
    injection Hstep as <-;
    auto using fresh_connect, fresh_disconnect, fresh_sendToNeuro,
      fresh_handleError, fresh_handleMessage, fresh_heartbeat_tick,
      fresh_clearTimer;
    (apply fresh_handleOpen || apply fresh_handleClose);
    apply handles_fresh_socket; eauto.
Qed.

Lemma handles_fresh_reachable (w : World) : reachable w -> handles_fresh w.
Proof.
  apply Timers.reachable_invariant; [ apply handles_fresh_init | ].
  intros ? ? ?; apply handles_fresh_step.
Qed.
(** *** The heartbeat follows the connection *)

Lemma beating_init (popup : bool) : beating (init popup).
Proof. reflexivity. Qed.

Lemma beating_same (w w' : World) :
  same_handles w w' -> isConnected (conn w') = isConnected (conn w) ->
  beating w -> beating w'.
Proof.
  unfold same_handles, beating. intros (-> & _ & _ & _ & _ & _ & ->) ->. auto.
Qed.

Ltac beating_method w :=
  destruct w as [[sock ic lmt ra rt cl hb pm pend] socks tims ns nt es];
  unfold beating, handles_fresh; cbn;
  intros;
  destruct sock, rt, hb; Timers.unfold_methods; cbn in *;
  Notifications.branches; cbn in *;
  repeat match goal with
         | H : _ /\ _ |- _ => destruct H
         end;
  repeat (rewrite lookup_insert || rewrite lookup_delete || case_decide);
  simplify_eq; repeat split; auto;
  try solve [ exfalso; eauto
            | match goal with
              | H : forall a b, Some _ = Some a -> Some _ = Some b -> a <> b
                |- _ => exfalso; exact (H _ _ eq_refl eq_refl eq_refl)
              end
            | match goal with
              | H : forall id, Some _ = Some id -> _ |- _ =>
                  specialize (H _ eq_refl); lia
              end ].

Lemma beating_scheduleReconnect (w : World) :
  handles_fresh w -> beating w -> beating (scheduleReconnect w).
Proof. beating_method w. Qed.

Lemma beating_startHeartbeat (w : World) :
  isConnected (conn w) = true -> beating (startHeartbeat w).
Proof. beating_method w. Qed.

Lemma beating_stopHeartbeat (w : World) :
  isConnected (conn w) = false -> beating (stopHeartbeat w).
Proof. beating_method w. Qed.

Lemma beating_connect (thr : bool) (w : World) :
  handles_fresh w -> beating w -> beating (connect thr w).
Proof. beating_method w. Qed.

Lemma beating_disconnect (w : World) : beating (disconnect w).
Proof. beating_method w. Qed.

Lemma beating_sendToNeuro (msg : jsval) (w : World) :
  beating w -> beating (snd (sendToNeuro msg w)).
Proof. beating_method w. Qed.

Lemma beating_handleError (w : World) : beating w -> beating (handleError w).
Proof. beating_method w. Qed.

Lemma beating_handleMessage (now : Z) (data : string) (w : World) :
  beating w -> beating (handleMessage now data w).
Proof. beating_method w. Qed.

Lemma beating_heartbeat_tick (now : Z) (w : World) :
  beating w -> beating (heartbeat_tick now w).
Proof. beating_method w. Qed.

Lemma beating_handleOpen (now : Z) (w : World) : beating (handleOpen now w).
Proof.
  destruct (handleOpen_shape now w) as (w1 & -> & _ & Hc).
  now apply beating_startHeartbeat.
Qed.

Lemma stopHeartbeat_isConnected (w : World) :
  isConnected (conn (stopHeartbeat w)) = isConnected (conn w).
Proof. unfold stopHeartbeat. now destruct (heartbeatInterval (conn w)). Qed.

Lemma beating_handleClose (w : World) :
  handles_fresh w -> beating (handleClose w).
Proof.
  intros Hf. destruct (handleClose_shape w) as (w1 & -> & Hsame & Hc).
  apply beating_scheduleReconnect.
  - apply (handles_fresh_same _ _ Hsame). now apply fresh_stopHeartbeat.
  - unfold beating. destruct Hsame as (_ & _ & _ & _ & _ & _ & Hh).
    rewrite Hh.
    assert (E : heartbeatInterval (conn (stopHeartbeat w)) = None).
    { unfold stopHeartbeat.
      destruct (heartbeatInterval (conn w)) eqn:E'; [ reflexivity | exact E' ]. }
    now rewrite E.
Qed.

Lemma beating_timeout_cleared (id : positive) (d : Q) (w : World) :
  timers w !! id = Some (Timeout d) -> beating w -> beating (clearTimer id w).
Proof.
  unfold beating, clearTimer. cbn.
  destruct (heartbeatInterval (conn w)) as [h|]; [ | auto ].
  intros Hid [Hc Hh]. split; [ exact Hc | ].
  rewrite lookup_delete_ne; [ exact Hh | congruence ].
Qed.

Lemma beating_step (w w' : World) (ev : event) :
  handles_fresh w -> beating w -> step w ev = Some w' -> beating w'.
Proof.
  intros Hf Hb Hstep.
  destruct ev as [thr | | msg | s now | s | s | s now data | id thr | id now];
    unfold step in Hstep;
    repeat match type of Hstep with
           | match ?x with _ => _ end = _ =>
               destruct x eqn:?; try discriminate Hstep
           end;
    injection Hstep as <-;
    auto using beating_connect, beating_disconnect, beating_sendToNeuro,
      beating_handleError, beating_handleMessage, beating_heartbeat_tick,
      beating_handleOpen.
  1-3: apply beating_handleClose, handles_fresh_socket; eauto.
  apply beating_connect.
  - now apply fresh_clearTimer.
  - eapply beating_timeout_cleared; eauto.
Qed.

Lemma beating_reachable (w : World) : reachable w -> beating w.
Proof.
  intros Hr.
  enough (handles_fresh w /\ beating w) by tauto.
  revert w Hr. apply Timers.reachable_invariant.
  - intros popup. split; [ apply handles_fresh_init | apply beating_init ].
  - intros w ev w' [Hf Hb] Hstep. split.
    + eapply handles_fresh_step; eauto.
    + eapply beating_step; eauto.
Qed.

(** X7. in every state the connection can reach, the heartbeat runs exactly
    while [isConnected] holds: connected, one interval is live and it is
    the one whose handle is stored; not connected, none is live and the
    handle is null. *)
Theorem heartbeat_follows_connection (w : World) :
  reachable w ->
  (isConnected (conn w) = true ->
   exists id : positive,
     heartbeatInterval (conn w) = Some id
     /\ timers w !! id = Some (Interval CONFIG.HEARTBEAT_INTERVAL)
     /\ running_intervals w = {[ id ]})
  /\ (isConnected (conn w) = false ->
      heartbeatInterval (conn w) = None /\ running_intervals w = ∅).
Proof.
  intros Hr. pose proof (beating_reachable w Hr) as Hb.
  pose proof (Timers.timers_owned_reachable w Hr) as Hown.
  unfold beating in Hb.
  destruct (heartbeatInterval (conn w)) as [id|] eqn:Hh.
  - destruct Hb as [Hc Hid]. split; [ | congruence ].
    intros _. exists id. repeat split; [ exact Hid | ].
    apply set_eq. intros i. rewrite Timers.elem_of_running, elem_of_singleton.
    split.
    + intros [p Hp]. specialize (Hown _ _ Hp). cbn in Hown. congruence.
    + intros ->. eauto.
  - split; [ congruence | ]. intros _. split; [ reflexivity | ].
    apply set_eq. intros i. rewrite Timers.elem_of_running. split.
    + intros [p Hp]. specialize (Hown _ _ Hp). cbn in Hown. congruence.
    + set_solver.
Qed.

Lemma heartbeat_follows_connection_witness :
  exists w : World,
    run (init true) [Connect false; SocketOpen 1 1000] = Some w
    /\ exists id : positive,
        heartbeatInterval (conn w) = Some id
        /\ running_intervals w = {[ id ]}.
Proof.
  eexists. split; [ vm_compute; reflexivity | ].
  match goal with
  | |- exists id, heartbeatInterval (conn ?w) = _ /\ _ =>
      destruct (heartbeat_follows_connection w) as [H _];
      [ exists true, [Connect false; SocketOpen 1 1000]; vm_compute; reflexivity | ]
  end.
  destruct (H eq_refl) as (id & H1 & _ & H3). exists id. split; assumption.
Defined.

(** *** Retrying *)

Lemma scheduleReconnect_next_socket (w : World) :
  next_socket (scheduleReconnect w) = next_socket w.
Proof.
  unfold scheduleReconnect, clearTimer, log, setTimeout.
  now destruct (reconnectTimer (conn w)).
Qed.

Lemma stopHeartbeat_next_socket (w : World) :
  next_socket (stopHeartbeat w) = next_socket w.
Proof. unfold stopHeartbeat. now destruct (heartbeatInterval (conn w)). Qed.

Lemma handleClose_next_socket (w : World) :
  next_socket (handleClose w) = next_socket w.
Proof.
  destruct (handleClose_shape w) as (w1 & -> & (_ & _ & _ & H & _) & _).
  now rewrite scheduleReconnect_next_socket, H, stopHeartbeat_next_socket.
Qed.

Lemma pending_clearTimer (id : positive) (w : World) :
  pending_timeouts (clearTimer id w) = pending_timeouts w ∖ {[ id ]}.
Proof.
  apply set_eq. intros i.
  rewrite elem_of_difference, !Timers.elem_of_pending, elem_of_singleton.
  unfold clearTimer. cbn. rewrite lookup_delete. case_decide; subst.
  - split; [ intros [d Hd]; discriminate | tauto ].
  - split; [ intros H'; split; [ exact H' | congruence ] | tauto ].
Qed.

(** X8. the retry loop has no bound.  After every close event, whatever the
    attempt count, the armed timer comes due, [connect] runs, and a fresh
    socket is connecting, held in [this.ws]; no retry timer is pending
    while that attempt is under way, and the attempt count is one higher
    than before the close. *)
Theorem every_close_is_retried (w w' : World) (s : positive) :
  reachable w ->
  step w (SocketClose s) = Some w' ->
  exists w'' : World,
    step w' (TimeoutFires (next_timer w) false) = Some w''
    /\ ws (conn w'') = Some (next_socket w)
    /\ sockets w'' !! next_socket w = Some CONNECTING
    /\ pending_timeouts w'' = ∅
    /\ reconnectAttempts (conn w'') = reconnectAttempts (conn w) + 1.
Proof.
  intros Hr Hstep.
  pose proof (Timers.timers_owned_reachable w Hr) as Hown.
  assert (Hpend : pending_timeouts w' = {[ next_timer w ]}).
  { unfold step in Hstep.
    destruct (sockets w !! s) as [[| | |]|]; try discriminate Hstep;
      injection Hstep as <-;
      exact (Timers.handleClose_pending (with_sockets _ w) Hown). }
  assert (Hin : next_timer w ∈ pending_timeouts w') by (rewrite Hpend; set_solver).
  apply Timers.elem_of_pending in Hin as [d Hd].
  assert (Hns : next_socket w' = next_socket w
                /\ reconnectAttempts (conn w') = reconnectAttempts (conn w) + 1).
  { unfold step in Hstep.
    destruct (sockets w !! s) as [[| | |]|]; try discriminate Hstep;
      injection Hstep as <-;
      now rewrite handleClose_next_socket, Backoff.handleClose_attempts. }
  destruct Hns as [Hns Hatt].
  eexists. split; [ cbn [step]; rewrite Hd; reflexivity | ].
  unfold connect. cbn. rewrite Hns, lookup_insert_eq.
  repeat split; [ | exact Hatt ].
  change (pending_timeouts (clearTimer (next_timer w) w') = ∅).
  rewrite pending_clearTimer, Hpend. apply difference_diag_L.
Qed.

Lemma every_close_is_retried_witness :
  exists w w' w'' : World,
    run (init true) [Connect false] = Some w
    /\ step w (SocketClose 1) = Some w'
    /\ step w' (TimeoutFires 1 false) = Some w''
    /\ ws (conn w'') = Some 2%positive.
Proof.
  eexists. eexists.
  assert (Hr : reachable (connect false (init true)))
    by (exists true, [Connect false]; reflexivity).
  destruct (every_close_is_retried (connect false (init true))
              (handleClose (with_sockets (<[1%positive:=CLOSED]>
                                            (sockets (connect false (init true))))
                                         (connect false (init true))))
              1%positive Hr) as (w'' & H1 & H2 & _).
  { vm_compute. reflexivity. }
  exists w''. split; [ reflexivity | ]. split; [ vm_compute; reflexivity | ].
  split; [ exact H1 | exact H2 ].
Defined.

(** *** Sending without [disconnect] *)

Lemma socket_kept_init (popup : bool) : socket_kept (init popup).
Proof. intros _. split; reflexivity. Qed.

Ltac kept_method w :=
  let H := fresh "H" in
  intros H;
  destruct w as [[sock ic lmt ra rt cl hb pm pend] socks tims ns nt es];
  unfold socket_kept in *; cbn in H |- *;
  destruct sock, rt, hb; Timers.unfold_methods; cbn;
  Notifications.branches; cbn; auto; discriminate.

Lemma kept_connect_throws (w : World) :
  socket_kept w -> socket_kept (connect true w).
Proof. kept_method w. Qed.

Lemma kept_connect (w : World) : socket_kept (connect false w).
Proof.
  destruct w as [[sock ic lmt ra rt cl hb pm pend] socks tims ns nt es].
  unfold socket_kept. cbn. discriminate.
Qed.

Lemma kept_sendToNeuro (msg : jsval) (w : World) :
  socket_kept w -> socket_kept (snd (sendToNeuro msg w)).
Proof. kept_method w. Qed.

Lemma kept_heartbeat_tick (now : Z) (w : World) :
  socket_kept w -> socket_kept (heartbeat_tick now w).
Proof. kept_method w. Qed.

(** A handler that runs on a socket event finds [this.ws] set, and none of
    the handlers clears it. *)
Lemma ws_handleOpen (now : Z) (w : World) :
  ws (conn (handleOpen now w)) = ws (conn w).
Proof.
  destruct (handleOpen_shape now w) as (w1 & -> & (_ & _ & _ & _ & <- & _) & _).
  unfold startHeartbeat, stopHeartbeat, setInterval, clearTimer.
  now destruct (heartbeatInterval (conn w1)).
Qed.

Lemma ws_handleClose (w : World) :
  ws (conn (handleClose w)) = ws (conn w).
Proof.
  destruct (handleClose_shape w) as (w1 & -> & (_ & _ & _ & _ & Hws & _) & _).
  transitivity (ws (conn w1)).
  - unfold scheduleReconnect, setTimeout, clearTimer, log.
    now destruct (reconnectTimer (conn w1)).
  - rewrite Hws. unfold stopHeartbeat.
    now destruct (heartbeatInterval (conn w)).
Qed.

Lemma ws_handleError (w : World) : ws (conn (handleError w)) = ws (conn w).
Proof.
  unfold handleError, when_popup, log. cbn.
  now destruct (popupManager (conn w)).
Qed.

Lemma ws_handleMessage (now : Z) (data : string) (w : World) :
  ws (conn (handleMessage now data w)) = ws (conn w).
Proof. now destruct (handleMessage_spec now data w) as (_ & _ & H & _). Qed.

Lemma kept_by_socket_event (w w1 : World) (s : positive) (st : ReadyState) :
  socket_kept w -> sockets w !! s = Some st ->
  ws (conn w1) = ws (conn w) -> socket_kept w1.
Proof.
  intros Hk Hs Hws Hnone. rewrite Hws in Hnone.
  destruct (Hk Hnone) as [Hempty _]. rewrite Hempty, lookup_empty in Hs.
  discriminate Hs.
Qed.

Lemma socket_kept_step (w w' : World) (ev : event) :
  keeps_socket ev = true ->
  socket_kept w -> step w ev = Some w' -> socket_kept w'.
Proof.
  intros Hev Hk Hstep.
  destruct ev as [[|] | | msg | s now | s | s | s now data | id [|] | id now];
    try discriminate Hev; unfold step in Hstep;
    repeat match type of Hstep with
           | match ?x with _ => _ end = _ =>
               destruct x eqn:?; try discriminate Hstep
           end;
    injection Hstep as <-;
    auto using kept_connect_throws, kept_connect, kept_sendToNeuro,
      kept_heartbeat_tick;
    try (eapply kept_by_socket_event;
         [ exact Hk | eassumption
         | first [ apply ws_handleError | apply ws_handleMessage
                 | rewrite ws_handleOpen; reflexivity
                 | rewrite ws_handleClose; reflexivity ] ]).
  - exact (kept_connect_throws w Hk).
  - exact (kept_connect w).
  - exact (kept_connect_throws (clearTimer id w) Hk).
  - exact (kept_connect (clearTimer id w)).
Qed.

Lemma socket_kept_run (evs : list event) (w w' : World) :
  forallb keeps_socket evs = true ->
  socket_kept w -> run w evs = Some w' -> socket_kept w'.
Proof.
  revert w. induction evs as [| ev evs IH]; intros w Hok Hk Hrun; cbn in *.
  - now injection Hrun as <-.
  - apply andb_true_iff in Hok as [Hev Hevs].
    destruct (step w ev) as [w1|] eqn:Hstep; [ | discriminate ].
    apply (IH w1); [ exact Hevs | | exact Hrun ].
    now apply (socket_kept_step w w1 ev).
Qed.

(** X9. as long as [disconnect] has not been called, [this.ws] is set
    whenever [isConnected] holds, and [sendToNeuro] returns a boolean for
    every object it is given whose [command] can be made a string; it
    throws in no such state. *)
Theorem sendToNeuro_total_before_disconnect (popup : bool)
  (evs : list event) (w : World) (props : list (string * jsval)) :
  forallb keeps_socket evs = true ->
  run (init popup) evs = Some w ->
  stringifies (obj_get "command" props) = true ->
  (isConnected (conn w) = true -> ws (conn w) <> None)
  /\ exists (b : bool) (w' : World),
      sendToNeuro (JObj props) w = (Return b, w').
Proof.
  intros Hok Hrun Hstr.
  pose proof (socket_kept_run evs _ w Hok (socket_kept_init popup) Hrun) as Hk.
  assert (Hws : isConnected (conn w) = true -> ws (conn w) <> None).
  { intros Hc Hnone. destruct (Hk Hnone) as [_ Hf]. congruence. }
  split; [ exact Hws | ].
  destruct (with_game_fields props) as (Hc & _).
  destruct w as [[sock ic lmt ra rt cl hb pm pend] socks tims ns nt es].
  cbn in Hws. unfold sendToNeuro, log, is_open. cbn.
  fold (with_game props). rewrite Hc, Hstr.
  destruct ic; [ destruct sock as [s|]; [ | now destruct Hws ] | ]; cbn;
    try (destruct (socks !! s) as [[| | |]|]; cbn);
    try (destruct (truthy (obj_get "command" props)); cbn);
    eexists; eexists; reflexivity.
Qed.

Lemma sendToNeuro_total_before_disconnect_witness :
  exists w : World,
    run (init true) five_quick_closures = Some w
    /\ exists (b : bool) (w' : World),
        sendToNeuro (JObj [("command", JStr "context")]) w = (Return b, w').
Proof.
  eexists. split; [ vm_compute; reflexivity | ].
  match goal with
  | |- exists b w', sendToNeuro _ ?w = _ =>
      destruct (sendToNeuro_total_before_disconnect true five_quick_closures w
                  [("command", JStr "context")] eq_refl)
        as (_ & b & w' & Hs); [ vm_compute; reflexivity | reflexivity | ];
      exists b, w'; exact Hs
  end.
Defined.

(** *** The ceiling of the backoff *)

(** X10. the delay climbs 10000, 15000, 22500, 33750, 50625 over the first
    five attempts, strictly, and is 60000 from the sixth attempt on: the
    ceiling is reached before the exponent cap of 8 can matter. *)
Theorem delay_reaches_ceiling :
  (reconnect_delay 5 == 50625)%Q
  /\ (forall a : Z, 1 <= a <= 5 ->
                    (reconnect_delay a < reconnect_delay (a + 1))%Q)
  /\ (forall a : Z, 6 <= a ->
                    (reconnect_delay a == CONFIG.MAX_RECONNECT_INTERVAL)%Q).
Proof.
  split; [ reflexivity | ]. split.
  - intros a Ha.
    assert (E : a = 1 \/ a = 2 \/ a = 3 \/ a = 4 \/ a = 5) by lia.
    destruct E as [-> | [-> | [-> | [-> | ->]]]]; reflexivity.
  - intros a Ha.
    destruct (Backoff.exponent_cases a ltac:(lia)) as (k & Hk & Ek).
    rewrite (Backoff.reconnect_delay_raw a k Ek).
    assert (E : (k = 5 \/ k = 6 \/ k = 7 \/ k = 8)%nat) by lia.
    destruct E as [-> | [-> | [-> | ->]]]; reflexivity.
Qed.

Lemma delay_reaches_ceiling_witness :
  (reconnect_delay 100 == 60000)%Q.
Proof.
  destruct delay_reaches_ceiling as (_ & _ & H). apply (H 100). lia.
Defined.

(** *** Frames on the wire *)

Lemma with_game_json (props : list (string * jsval)) :
  json_value (JObj props) = true -> json_value (JObj (with_game props)) = true.
Proof.
  unfold with_game. destruct (negb (truthy (obj_get "game" props))); [ | auto ].
  rewrite !Codec.json_value_object. intros H.
  apply andb_true_iff in H as [Hd Hm].
  rewrite (Codec.obj_set_distinct _ _ _ Hd).
  now rewrite (Codec.obj_set_members "game" (JStr CONFIG.GAME_NAME) props
                 eq_refl eq_refl Hm).
Qed.

(** What [sendToNeuro] writes for a frame of the fragment, [handleMessage]
    reads back. *)
Lemma frame_round_trip (props : list (string * jsval)) (w : World)
  (s : positive) :
  json_value (JObj props) = true ->
  truthy (obj_get "command" props) = true ->
  stringifies (obj_get "command" props) = true ->
  isConnected (conn w) = true ->
  ws (conn w) = Some s ->
  sockets w !! s = Some OPEN ->
  exists (text : string) (w' : World),
    sendToNeuro (JObj props) w = (Return true, w')
    /\ socket_writes (effects w') = (socket_writes (effects w) ++ [(s, text)])%list
    /\ JSON_parse text = Some (JObj (with_game props))
    /\ forall (now : Z) (peer : World),
        dispatched (effects (handleMessage now text peer))
        = (dispatched (effects peer) ++ [JObj (with_game props)])%list
        /\ pendingMessage (conn (handleMessage now text peer))
           = Some (JObj (with_game props)).
Proof.
  intros Hj Hcmd Hstr Hc Hws Hopen.
  pose proof (Codec.JSON_parse_serialize _ (with_game_json props Hj)) as Hparse.
  destruct (with_game_fields props) as (Hcommand & _).
  exists (serialize (JObj (with_game props))).
  pose proof (sendToNeuro_written (JObj props) w Hstr) as Hsend.
  destruct (sendToNeuro (JObj props) w) as [r w'] eqn:E.
  assert (Hr : r = Return true).
  { revert E. destruct w as [[sock ic lmt ra rt cl hb pm pend] socks tims ns nt es].
    cbn in Hc, Hws, Hopen. subst ic sock.
    unfold sendToNeuro, is_open. cbn. rewrite Hopen, Hcmd. cbn.
    fold (with_game props). rewrite Hcommand, Hstr.
    now intros [= <- _]. }
  subst r. exists w'. split; [ reflexivity | ].
  destruct Hsend as (_ & _ & _ & s' & props' & Hmsg & Hws' & _ & _ & _ & _ & Hw).
  injection Hmsg as <-. rewrite Hws in Hws'. injection Hws' as <-.
  split; [ exact Hw | ]. split; [ exact Hparse | ].
  intros now peer.
  pose proof (handleMessage_spec now (serialize (JObj (with_game props))) peer)
    as Hm.
  cbv zeta in Hm. rewrite Hparse in Hm.
  unfold accepted in Hm. cbn [get_prop] in Hm. rewrite Hcommand, Hstr in Hm.
  destruct Hm as (_ & _ & _ & _ & _ & _ & _ & _ & _ & Hd & Hp).
  split; assumption.
Qed.

(** X11. a frame survives the wire, within the fragment of JSON that
    [JSON_parse] reads.  For a frame that is a value of the fragment
    ([json_value]: any strings, integers that the host holds exactly,
    property names distinct and not all digits) with a truthy [command]
    that can be made a string: what [sendToNeuro] writes for it on an open
    connection, [handleMessage] on the other side parses back and hands on
    as the very frame that was sent, with [game] filled in if the sender
    had left it out.  Of frames outside the fragment (with a fraction, or a
    property name of digits only) nothing is stated. *)
Theorem frame_survives_the_wire (props : list (string * jsval)) (w : World)
  (s : positive) :
  json_value (JObj props) = true ->
  truthy (obj_get "command" props) = true ->
  stringifies (obj_get "command" props) = true ->
  isConnected (conn w) = true ->
  ws (conn w) = Some s ->
  sockets w !! s = Some OPEN ->
  exists (text : string) (w' : World),
    sendToNeuro (JObj props) w = (Return true, w')
    /\ socket_writes (effects w') = (socket_writes (effects w) ++ [(s, text)])%list
    /\ JSON_parse text = Some (JObj (with_game props))
    /\ forall (now : Z) (peer : World),
        dispatched (effects (handleMessage now text peer))
        = (dispatched (effects peer) ++ [JObj (with_game props)])%list
        /\ pendingMessage (conn (handleMessage now text peer))
           = Some (JObj (with_game props)).
Proof. exact (frame_round_trip props w s). Qed.

Lemma frame_survives_the_wire_witness :
  let w := match run (init true) [Connect false; SocketOpen 1 1000] with
           | Some w => w
           | None => init true
           end in
  let props := [("command", JStr "context");
                ("data", JObj [("message", JStr "hola");
                               ("silent", JBool false)])] in
  exists (text : string) (w' : World),
    sendToNeuro (JObj props) w = (Return true, w')
    /\ JSON_parse text = Some (JObj (with_game props)).
Proof.
  intros w props.
  assert (H1 : json_value (JObj props) = true) by (vm_compute; reflexivity).
  assert (H2 : truthy (obj_get "command" props) = true)
    by (vm_compute; reflexivity).
  assert (H0 : stringifies (obj_get "command" props) = true)
    by (vm_compute; reflexivity).
  assert (H3 : isConnected (conn w) = true) by (vm_compute; reflexivity).
  assert (H4 : ws (conn w) = Some 1%positive) by (vm_compute; reflexivity).
  assert (H5 : sockets w !! 1%positive = Some OPEN)
    by (vm_compute; reflexivity).
  destruct (frame_survives_the_wire props w 1%positive H1 H2 H0 H3 H4 H5)
    as (text & w' & Hs & _ & Hp & _).
  exists text, w'. split; [ exact Hs | exact Hp ].
Defined.

(** *** The codec

    [decode] is the [JSON.parse] of [handleMessage], [encode] the
    [JSON.stringify] of [sendToNeuro]; all of it within the fragment of JSON
    that [JSON_parse] reads. *)




End Session.

(* ===================================================================== *)
(** * Messages of the content scripts and actions for the tabs *)
(* ===================================================================== *)

Module Relay.
Import JS Neuro MessageHandler.
Import Sending.

#[local] Arguments serialize : simpl never.
#[local] Arguments socket_writes : simpl never.
#[local] Arguments tab_messages : simpl never.
#[local] Arguments sendToNeuro : simpl never.
#[local] Arguments line : simpl never.

Lemma same_state_refl (w : World) : same_state w w.
Proof. repeat split. Qed.

Lemma same_state_emit (e : effect) (w w' : World) :
  same_state w w' -> same_state w (emit e w').
Proof. intros H. exact H. Qed.

Lemma get_prop_field (k : string) (data : jsval) :
  truthy data = true -> get_prop data k = Return (field k data).
Proof. unfold field. now destruct data. Qed.

(** What [sendToNeuro] does with a frame that has a command: it writes it,
    as it is, if the connection has a line. *)
Lemma sendToNeuro_frame (command : string) (data : jsval) (w : World) :
  String.eqb command "" = false ->
  exists (r : outcome bool) (w' : World),
    sendToNeuro (frame command data) w = (r, w')
    /\ socket_writes (effects w')
       = (socket_writes (effects w)
          ++ match line w with
             | Some s => [(s, serialize (frame command data))]
             | None => []
             end)%list
    /\ tab_messages (effects w') = tab_messages (effects w)
    /\ same_state w w'
    /\ match r with
       | Return b => b = match line w with Some _ => true | None => false end
       | Throw _ => line w = None
       end.
Proof.
  intros Hc.
  destruct w as [[sock ic lmt ra rt cl hb pm pend] socks tims ns nt es].
  unfold sendToNeuro, line, frame, is_open, log, emit. cbn. rewrite Hc. cbn.
  destruct ic; [ destruct sock as [s|] | ]; cbn;
    [ destruct (socks !! s) as [[| | |]|] | | ];
    eexists; eexists; (split; [ reflexivity | ]); cbn; tidy_effects;
    repeat split; reflexivity.
Qed.

(** What a handler leaves: the frame [f], if any, written when there is a
    line, and nothing else changed but the log. *)
Ltac close :=
  repeat split; auto;
  try (unfold same_state in *; cbn in *; intuition congruence).

Ltac logs_only :=
  eexists; eexists; (split; [ reflexivity | ]); cbn; tidy_effects;
  repeat match goal with
         | |- context [line ?w] => destruct (line w)
         end;
  rewrite ?app_nil_r; close.

Ltac after_send :=
  unfold when, interpolate, tell, ret, lift, bind;
  repeat match goal with
         | |- context [if ?b then _ else _] => destruct b
         | |- context [match ?o with Return _ => _ | Throw _ => _ end] =>
             destruct o
         end;
  eexists; eexists; (split; [ reflexivity | ]); cbn; tidy_effects; close.

Lemma handleContextMessage_writes (popup : bool) (message data : jsval)
  (w : World) :
  get_prop message "data" = Return data ->
  exists (r : outcome unit) (w' : World),
    handleContextMessage popup message w = (r, w')
    /\ socket_writes (effects w')
       = (socket_writes (effects w)
          ++ match (if truthy data
                    then Some (frame "context"
                                 (JObj [("message", js_or (field "message" data) (JStr ""));
                                        ("silent", js_or (field "silent" data) (JBool false))]))
                    else None), line w with
             | Some f, Some s => [(s, serialize f)]
             | _, _ => []
             end)%list
    /\ tab_messages (effects w') = tab_messages (effects w)
    /\ same_state w w'.
Proof.
  intros Hd. unfold handleContextMessage, bind, lift. rewrite Hd.
  destruct (truthy data) eqn:Td; cbn.
  - rewrite !(get_prop_field _ data Td).
    destruct (sendToNeuro_frame "context"
                (JObj [("message", js_or (field "message" data) (JStr ""));
                       ("silent", js_or (field "silent" data) (JBool false))])
                w eq_refl) as (r & w1 & E & Hw & Ht & Hs & _).
    rewrite E. destruct r as [b|e]; [ | eauto 10 ]. after_send.
  - unfold when, tell, ret, bind. destruct popup; logs_only.
Qed.

Lemma handleActionResult_writes (popup : bool) (message data : jsval)
  (w : World) :
  get_prop message "data" = Return data ->
  exists (r : outcome unit) (w' : World),
    handleActionResult popup message w = (r, w')
    /\ socket_writes (effects w')
       = (socket_writes (effects w)
          ++ match (if truthy data && truthy (field "id" data)
                    then Some (frame "action/result"
                                 (JObj [("id", field "id" data);
                                        ("success", js_or (field "success" data) (JBool false));
                                        ("message", js_or (field "message" data) (JStr ""))]))
                    else None), line w with
             | Some f, Some s => [(s, serialize f)]
             | _, _ => []
             end)%list
    /\ tab_messages (effects w') = tab_messages (effects w)
    /\ same_state w w'.
Proof.
  intros Hd. unfold handleActionResult, bind, lift. rewrite Hd.
  destruct (truthy data) eqn:Td; cbn.
  - rewrite !(get_prop_field _ data Td).
    destruct (truthy (field "id" data)) eqn:Ti; cbn.
    + destruct (sendToNeuro_frame "action/result"
                  (JObj [("id", field "id" data);
                         ("success", js_or (field "success" data) (JBool false));
                         ("message", js_or (field "message" data) (JStr ""))])
                  w eq_refl) as (r & w1 & E & Hw & Ht & Hs & _).
      rewrite E. destruct r as [b|e]; [ | eauto 10 ].
      unfold logActionResult. cbn. after_send.
    + unfold when, tell, ret, bind. destruct popup; logs_only.
  - unfold when, tell, ret, bind. destruct popup; logs_only.
Qed.

Lemma handleRegisterActions_writes (popup : bool) (message data : jsval)
  (w : World) :
  get_prop message "data" = Return data ->
  exists (r : outcome unit) (w' : World),
    handleRegisterActions popup message w = (r, w')
    /\ socket_writes (effects w')
       = (socket_writes (effects w)
          ++ match (if truthy data && is_array (field "actions" data)
                    then Some (frame "actions/register"
                                 (JObj [("actions", field "actions" data)]))
                    else None), line w with
             | Some f, Some s => [(s, serialize f)]
             | _, _ => []
             end)%list
    /\ tab_messages (effects w') = tab_messages (effects w)
    /\ same_state w w'.
Proof.
  intros Hd. unfold handleRegisterActions, bind, lift. rewrite Hd.
  destruct (truthy data) eqn:Td; cbn.
  - rewrite !(get_prop_field _ data Td).
    destruct (field "actions" data) as [ | |b|n|s|elems|props] eqn:Ha; cbn;
      rewrite ?orb_true_r;
      try solve [ unfold when, tell, ret, bind; destruct popup; logs_only ].
    destruct (sendToNeuro_frame "actions/register"
                (JObj [("actions", JArr elems)]) w eq_refl)
      as (r & w1 & E & Hw & Ht & Hs & _).
    rewrite E. destruct r as [b|e]; [ | eauto 10 ]. after_send.
  - unfold when, tell, ret, bind. destruct popup; logs_only.
Qed.

Lemma handleForceAction_writes (popup : bool) (message data : jsval)
  (w : World) :
  get_prop message "data" = Return data ->
  exists (r : outcome unit) (w' : World),
    handleForceAction popup message w = (r, w')
    /\ socket_writes (effects w')
       = (socket_writes (effects w)
          ++ match (if truthy data
                    then Some (frame "actions/force"
                                 (JObj [("state", js_or (field "state" data) JNull);
                                        ("query", js_or (field "query" data)
                                                        (JStr "Continue to next action"));
                                        ("ephemeral_context",
                                         js_or (field "ephemeral_context" data) (JBool false));
                                        ("action_names",
                                         js_or (field "action_names" data) (JArr []))]))
                    else None), line w with
             | Some f, Some s => [(s, serialize f)]
             | _, _ => []
             end)%list
    /\ tab_messages (effects w') = tab_messages (effects w)
    /\ same_state w w'.
Proof.
  intros Hd. unfold handleForceAction, bind, lift. rewrite Hd.
  destruct (truthy data) eqn:Td; cbn.
  - rewrite !(get_prop_field _ data Td).
    destruct (sendToNeuro_frame "actions/force"
                (JObj [("state", js_or (field "state" data) JNull);
                       ("query", js_or (field "query" data)
                                       (JStr "Continue to next action"));
                       ("ephemeral_context",
                        js_or (field "ephemeral_context" data) (JBool false));
                       ("action_names",
                        js_or (field "action_names" data) (JArr []))])
                w eq_refl) as (r & w1 & E & Hw & Ht & Hs & _).
    rewrite E. destruct r as [b|e]; [ | eauto 10 ]. after_send.
  - unfold when, tell, ret, bind. destruct popup; logs_only.
Qed.
Lemma get_prop_data (message type : jsval) :
  get_prop message "type" = Return type ->
  get_prop message "data" = Return (field "data" message)
  /\ field "type" message = type.
Proof.
  intros H. unfold field. rewrite H.
  destruct message; try discriminate H; split; reflexivity.
Qed.

Lemma dispatch_writes (popup responds : bool) (message : jsval) (w : World) :
  let '(_, _, _, w') := dispatch popup responds message w in
  socket_writes (effects w')
  = (socket_writes (effects w)
     ++ match relayed message, line w with
        | Some f, Some s => [(s, serialize f)]
        | _, _ => []
        end)%list
  /\ tab_messages (effects w') = tab_messages (effects w)
  /\ same_state w w'.
Proof.
  unfold dispatch, relayed.
  destruct (get_prop message "type") as [type|e] eqn:Ht.
  2: { destruct message; try discriminate Ht; cbn; rewrite app_nil_r; close. }
  destruct (get_prop_data message type Ht) as [Hd ->].
  rewrite Hd. set (data := field "data" message) in *.
  destruct (is_string "neuro_context" type) eqn:T1.
  { destruct (handleContextMessage_writes popup message data w Hd)
      as (r & w1 & E & Hw & Htab & Hs).
    unfold handler. rewrite E. destruct r; cbn; rewrite Hw;
      destruct (truthy data); cbn; close. }
  destruct (is_string "neuro_action_result" type) eqn:T2.
  { destruct (handleActionResult_writes popup message data w Hd)
      as (r & w1 & E & Hw & Htab & Hs).
    unfold handler. rewrite E. destruct r; cbn; rewrite Hw;
      destruct (truthy data), (truthy (field "id" data)); cbn; close. }
  destruct (is_string "neuro_register_actions" type) eqn:T3.
  { destruct (handleRegisterActions_writes popup message data w Hd)
      as (r & w1 & E & Hw & Htab & Hs).
    unfold handler. rewrite E. destruct r; cbn; rewrite Hw;
      destruct (truthy data), (is_array (field "actions" data)); cbn; close. }
  destruct (is_string "neuro_force_action" type) eqn:T4.
  { destruct (handleForceAction_writes popup message data w Hd)
      as (r & w1 & E & Hw & Htab & Hs).
    unfold handler. rewrite E. destruct r; cbn; rewrite Hw;
      destruct (truthy data); cbn; close. }
  assert (Hnone : match (if negb (truthy data) then None else @None jsval), line w with
                  | Some f, Some s => [(s, serialize f)]
                  | _, _ => []
                  end = []) by now destruct (negb (truthy data)).
  rewrite Hnone, app_nil_r.
  destruct (is_string "neuro_log" type).
  { destruct (popup && truthy data) eqn:Hp; [ | close ].
    apply andb_true_iff in Hp as [_ Td].
    rewrite !(get_prop_field _ data Td). close. }
  destruct (is_string "neuro_connection_update" type).
  { destruct (popup && truthy data) eqn:Hp; [ | close ].
    apply andb_true_iff in Hp as [_ Td].
    rewrite !(get_prop_field _ data Td). cbn. tidy_effects. close. }
  destruct (is_string "get_neuro_status" type).
  { destruct responds; close. }
  unfold handler, interpolate, when, tell, ret, lift, bind.
  destruct (stringifies type), popup; cbn; tidy_effects; close.
Qed.

(** What [handleRuntimeMessage] writes, by the message. *)
Lemma handleRuntimeMessage_writes (popup responds : bool) (message : jsval)
  (w : World) :
  let h := handleRuntimeMessage popup responds message w in
  socket_writes (effects (world h))
  = (socket_writes (effects w)
     ++ match relayed message, line w with
        | Some f, Some s => [(s, serialize f)]
        | _, _ => []
        end)%list
  /\ tab_messages (effects (world h)) = tab_messages (effects w)
  /\ same_state w (world h).
Proof.
  cbv zeta. unfold handleRuntimeMessage.
  pose proof (dispatch_writes popup responds message w) as H.
  destruct (dispatch popup responds message w) as [[[ex rs] es] w'].
  destruct H as (Hw & Ht & Hs).
  destruct ex; [ cbn; auto | cbn; auto | ].
  destruct popup; [ destruct (get_prop message "type") | ];
    cbn; unfold log; cbn; tidy_effects; rewrite Hw; close.
Qed.

(** X12. what a message of a content script puts on the socket.  Whatever the
    message, whether a popup manager is there and whether the sender still
    listens, [handleRuntimeMessage] writes at most one frame: the one that
    the message stands for, if it is a context, action result, register or
    force message with the data its handler asks for, and the connection
    has an open socket.  An exception thrown after the write (by a log line
    over a value that cannot be made a string) does not undo or repeat it.
    Nothing is sent to a tab, and the connection, its sockets and timers
    are as before.  The frame is as [serialize] prints it if the numbers of
    the message print in plain digits. *)
Theorem runtime_message_relayed (popup responds : bool) (message : jsval)
  (w : World) :
  plain message = true ->
  let h := handleRuntimeMessage popup responds message w in
  socket_writes (effects (world h))
  = (socket_writes (effects w)
     ++ match relayed message, line w with
        | Some f, Some s => [(s, serialize f)]
        | _, _ => []
        end)%list
  /\ tab_messages (effects (world h)) = tab_messages (effects w)
  /\ same_state w (world h).
Proof.
  intros _. exact (handleRuntimeMessage_writes popup responds message w).
Qed.

Lemma runtime_message_relayed_witness :
  let message := JObj [("type", JStr "neuro_action_result");
                       ("data", JObj [("id", JStr "a1");
                                      ("success", JBool true)])] in
  let w := match run (init true) [Connect false; SocketOpen 1 1000] with
           | Some w => w
           | None => init true
           end in
  let h := handleRuntimeMessage true true message w in
  plain message = true
  /\ socket_writes (effects (world h))
     = (socket_writes (effects w)
        ++ match relayed message, line w with
           | Some f, Some s => [(s, serialize f)]
           | _, _ => []
           end)%list
  /\ relayed message
     = Some (frame "action/result"
               (JObj [("id", JStr "a1"); ("success", JBool true);
                      ("message", JStr "")]))
  /\ line w = Some 1%positive.
Proof.
  intros message w h.
  split; [ reflexivity | ].
  split; [ | split; vm_compute; reflexivity ].
  apply (runtime_message_relayed true true message w). reflexivity.
Defined.

Lemma is_string_eq (s : string) (v : jsval) :
  is_string s v = true -> v = JStr s.
Proof.
  destruct v; try discriminate. cbn. intros H.
  apply String.eqb_eq in H. now subst.
Qed.

Lemma handler_exit (m : Run unit) (w : World) :
  exists (ex : switch_exit) (w' : World),
    handler m w = (ex, [], [], w') /\ (ex = Break \/ ex = Caught).
Proof.
  unfold handler. destruct (m w) as [[u|e] w']; eauto.
Qed.

Lemma dispatch_exit (popup responds : bool) (message : jsval) (w : World) :
  let '(ex, rs, es, _) := dispatch popup responds message w in
  match get_prop message "type" with
  | Throw _ => ex = Caught /\ rs = [] /\ es = []
  | Return type =>
      (if is_string "get_neuro_status" type
       then rs = [JObj [("connected", JBool (isConnected (conn w)))]]
            /\ ex = (if responds then ReturnValue true else Caught)
       else rs = [] /\ (ex = Break \/ ex = Caught))
      /\ es = (if popup && is_string "neuro_log" type
                  && truthy (field "data" message)
               then [JObj [("level", js_or (field "level" (field "data" message))
                                           (JStr "info"));
                           ("message", js_or (field "message" (field "data" message))
                                             (JStr ""));
                           ("data", field "data" (field "data" message));
                           ("source", js_or (field "source" (field "data" message))
                                            (JStr "content"))]]
               else [])
  end.
Proof.
  unfold dispatch.
  destruct (get_prop message "type") as [type|e] eqn:Ht; [ | auto ].
  destruct (get_prop_data message type Ht) as [Hd _].
  rewrite Hd. set (data := field "data" message) in *.
  destruct (is_string "neuro_context" type) eqn:T1.
  { apply is_string_eq in T1 as ->.
    destruct (handler_exit (handleContextMessage popup message) w)
      as (ex & w' & -> & Hex).
    cbn. rewrite andb_false_r. auto. }
  destruct (is_string "neuro_action_result" type) eqn:T2.
  { apply is_string_eq in T2 as ->.
    destruct (handler_exit (handleActionResult popup message) w)
      as (ex & w' & -> & Hex).
    cbn. rewrite andb_false_r. auto. }
  destruct (is_string "neuro_register_actions" type) eqn:T3.
  { apply is_string_eq in T3 as ->.
    destruct (handler_exit (handleRegisterActions popup message) w)
      as (ex & w' & -> & Hex).
    cbn. rewrite andb_false_r. auto. }
  destruct (is_string "neuro_force_action" type) eqn:T4.
  { apply is_string_eq in T4 as ->.
    destruct (handler_exit (handleForceAction popup message) w)
      as (ex & w' & -> & Hex).
    cbn. rewrite andb_false_r. auto. }
  destruct (is_string "neuro_log" type) eqn:T5.
  { apply is_string_eq in T5 as ->. cbn. rewrite andb_true_r.
    destruct (popup && truthy data) eqn:Hp; [ | auto ].
    apply andb_true_iff in Hp as [_ Td].
    rewrite !(get_prop_field _ data Td). auto. }
  rewrite andb_false_r.
  destruct (is_string "neuro_connection_update" type) eqn:T6.
  { apply is_string_eq in T6 as ->. cbn.
    destruct (popup && truthy data) eqn:Hp; [ | auto ].
    apply andb_true_iff in Hp as [_ Td].
    rewrite !(get_prop_field _ data Td). auto. }
  destruct (is_string "get_neuro_status" type) eqn:T7.
  { destruct responds; auto. }
  match goal with
  | |- context [handler ?m w] =>
      destruct (handler_exit m w) as (ex & w' & -> & Hex)
  end.
  auto.
Qed.

(** X13. every message is answered.  [handleRuntimeMessage] calls
    [sendResponse] with [{ok: true}] and returns false, whatever the handler
    did or threw; only a status request is answered with the connection
    state and returns true, and if that response throws, the call is
    answered a second time with [{ok: true}].  It adds a log entry of its
    own for a [neuro_log] message with data, and for no other.  The one way
    out by exception: a message that is [null] or [undefined] while a popup
    manager is there, since the [catch] block reads [message.type] again. *)
Theorem runtime_message_answered (popup responds : bool) (message : jsval)
  (w : World) :
  let h := handleRuntimeMessage popup responds message w in
  let ok := JObj [("ok", JBool true)] in
  let status := JObj [("connected", JBool (isConnected (conn w)))] in
  match get_prop message "type" with
  | Throw e =>
      entries h = []
      /\ if popup then returned h = Throw e /\ responses h = []
         else returned h = Return false /\ responses h = [ok]
  | Return type =>
      (if is_string "get_neuro_status" type then
         if responds then returned h = Return true /\ responses h = [status]
         else returned h = Return false /\ responses h = [status; ok]
       else returned h = Return false /\ responses h = [ok])
      /\ entries h
         = if popup && is_string "neuro_log" type && truthy (field "data" message)
           then [JObj [("level", js_or (field "level" (field "data" message))
                                       (JStr "info"));
                       ("message", js_or (field "message" (field "data" message))
                                         (JStr ""));
                       ("data", field "data" (field "data" message));
                       ("source", js_or (field "source" (field "data" message))
                                        (JStr "content"))]]
           else []
  end.
Proof.
  cbv zeta. unfold handleRuntimeMessage.
  pose proof (dispatch_exit popup responds message w) as H.
  destruct (dispatch popup responds message w) as [[[ex rs] es] w'].
  destruct (get_prop message "type") as [type|e].
  - destruct H as [H Hes].
    destruct (is_string "get_neuro_status" type).
    + destruct H as [-> ->]. destruct responds, popup; cbn; auto.
    + destruct H as [-> [-> | ->]]; destruct popup; cbn; auto.
  - destruct H as (-> & -> & ->). destruct popup; cbn; auto.
Qed.
(** *** Actions for the tabs *)

Lemma line_same_state (w w' : World) : same_state w w' -> line w' = line w.
Proof.
  intros (Hc & Hs & _). unfold line, is_open. now rewrite Hc, Hs.
Qed.

Lemma same_state_trans (w1 w2 w3 : World) :
  same_state w1 w2 -> same_state w2 w3 -> same_state w1 w3.
Proof. unfold same_state. intuition congruence. Qed.

(** The loop over the tabs: every tab is handed the action, in order, and
    the count is that of the tabs that took it. *)
Lemma forward_spec (popup : bool) (data : jsval) (tabs : list tab) :
  forall (sent : nat) (w : World),
    let '(n, w') := forward popup data tabs sent w in
    n = (sent + length (List.filter delivers tabs))%nat
    /\ tab_messages (effects w')
       = (tab_messages (effects w)
          ++ map (fun t => (tab_id t, neuro_action data)) tabs)%list
    /\ socket_writes (effects w') = socket_writes (effects w)
    /\ same_state w w'.
Proof.
  induction tabs as [|t rest IH]; intros sent w.
  - cbn. rewrite app_nil_r. repeat split; lia.
  - cbn [forward]. destruct (delivers t) eqn:Hd.
    + match goal with
      | |- context [forward _ _ rest (S sent) ?w1] =>
          specialize (IH (S sent) w1);
          destruct (forward popup data rest (S sent) w1) as [n w']
      end.
      destruct IH as (Hn & Ht & Hw & Hs).
      cbn [List.filter map]. rewrite Hd. cbn [length].
      split; [ lia | ]. rewrite Ht, Hw.
      destruct popup; unfold log; cbn; tidy_effects;
        rewrite <- ?app_assoc; cbn; close.
    + match goal with
      | |- context [forward _ _ rest sent ?w1] =>
          specialize (IH sent w1);
          destruct (forward popup data rest sent w1) as [n w']
      end.
      destruct IH as (Hn & Ht & Hw & Hs).
      cbn [List.filter map]. rewrite Hd.
      split; [ lia | ]. rewrite Ht, Hw.
      destruct popup; unfold log; cbn; tidy_effects;
        rewrite <- ?app_assoc; cbn; close.
Qed.

(** A failure result handed to [sendToNeuro], and, if that throws, once
    more by the [catch] block: one frame if there is a line, none if not. *)
Lemma report_written (popup : bool) (id : jsval) (text : string) (w : World) :
  exists (r : outcome unit) (w' : World),
    match sendToNeuro (action_result id false text) w with
    | (Return _, w1) => (Return tt, w1)
    | (Throw _, w1) => handleAction_catch popup id w1
    end = (r, w')
    /\ socket_writes (effects w')
       = (socket_writes (effects w)
          ++ match line w with
             | Some s => [(s, serialize (action_result id false text))]
             | None => []
             end)%list
    /\ tab_messages (effects w') = tab_messages (effects w)
    /\ same_state w w'.
Proof.
  destruct (sendToNeuro_frame "action/result"
              (JObj [("id", id); ("success", JBool false); ("message", JStr text)])
              w eq_refl) as (r & w1 & E & Hw & Ht & Hs & Hr).
  change (frame "action/result"
            (JObj [("id", id); ("success", JBool false); ("message", JStr text)]))
    with (action_result id false text) in *.
  rewrite E. destruct r as [b|e]; [ eauto 10 | ].
  unfold handleAction_catch.
  match goal with
  | |- context [sendToNeuro ?f ?w2] =>
      destruct (sendToNeuro_frame "action/result"
                  (JObj [("id", id); ("success", JBool false);
                         ("message", JStr "Internal error processing action.")])
                  w2 eq_refl) as (r2 & w3 & E2 & Hw2 & Ht2 & Hs2 & _);
      change (frame "action/result"
                (JObj [("id", id); ("success", JBool false);
                       ("message", JStr "Internal error processing action.")]))
        with (action_result id false "Internal error processing action.") in *;
      assert (Hl : line w2 = None)
  end.
  { rewrite <- Hr. apply line_same_state.
    destruct popup; unfold log; cbn; close. }
  rewrite E2. rewrite Hl in Hw2. rewrite Hr in Hw.
  exists (match r2 with Return _ => Return tt | Throw e2 => Throw e2 end), w3.
  split; [ now destruct r2 | ].
  rewrite Hw2, Ht2, Hr.
  destruct popup; unfold log in *; cbn in *; revert Hw Ht; tidy_effects;
    intros -> ->; rewrite ?app_nil_r; close.
Qed.
Lemma catch_written (popup : bool) (id : jsval) (w : World) :
  exists (r : outcome unit) (w' : World),
    handleAction_catch popup id w = (r, w')
    /\ socket_writes (effects w')
       = (socket_writes (effects w)
          ++ match line w with
             | Some s =>
                 [(s, serialize (action_result id false
                                   "Internal error processing action."))]
             | None => []
             end)%list
    /\ tab_messages (effects w') = tab_messages (effects w)
    /\ same_state w w'.
Proof.
  unfold handleAction_catch.
  match goal with
  | |- context [sendToNeuro ?f ?w2] =>
      destruct (sendToNeuro_frame "action/result"
                  (JObj [("id", id); ("success", JBool false);
                         ("message", JStr "Internal error processing action.")])
                  w2 eq_refl) as (r2 & w3 & E2 & Hw2 & Ht2 & Hs2 & _);
      change (frame "action/result"
                (JObj [("id", id); ("success", JBool false);
                       ("message", JStr "Internal error processing action.")]))
        with (action_result id false "Internal error processing action.") in *;
      assert (Hl : line w2 = line w)
  end.
  { apply line_same_state. destruct popup; unfold log; cbn; close. }
  rewrite E2. rewrite Hl in Hw2.
  exists (match r2 with Return _ => Return tt | Throw e2 => Throw e2 end), w3.
  split; [ now destruct r2 | ].
  rewrite Hw2, Ht2.
  destruct popup; unfold log in *; cbn in *; tidy_effects; close.
Qed.

Lemma existsb_filter (tabs : list tab) :
  existsb delivers tabs = negb (Nat.eqb (length (List.filter delivers tabs)) 0).
Proof.
  induction tabs as [|t rest IH]; [ reflexivity | ].
  cbn. destruct (delivers t); [ reflexivity | exact IH ].
Qed.

(** What [handleAction] does with an action that carries an id, by the
    answer of the tab lookup. *)
Lemma handleAction_spec (popup : bool) (msg id : jsval) (query : tabs_query)
  (w : World) :
  action_id msg = Some id ->
  exists (data : jsval) (r : outcome unit) (w' : World),
    get_prop msg "data" = Return data
    /\ handleAction popup msg query w = (r, w')
    /\ tab_messages (effects w')
       = (tab_messages (effects w)
          ++ map (fun t => (tab_id t, neuro_action data)) (found query))%list
    /\ socket_writes (effects w')
       = (socket_writes (effects w)
          ++ match failure query, line w with
             | Some text, Some s => [(s, serialize (action_result id false text))]
             | _, _ => []
             end)%list
    /\ same_state w w'.
Proof.
  intros Hid.
  destruct (action_id_Some msg id Hid) as (data & Hd & Td & Hi & Ti).
  exists data. unfold handleAction. rewrite Hd, Hi, Td, Ti. cbn [negb orb].
  destruct query as [tabs|].
  - destruct tabs as [|t rest].
    + cbn [found map failure].
      match goal with
      | |- context [sendToNeuro _ ?w1] =>
          destruct (report_written popup id "No Duolingo tab is currently open." w1)
            as (r & w' & E & Hw & Ht & Hs);
          assert (Hl : line w1 = line w)
            by (apply line_same_state; destruct popup; unfold log; cbn; close)
      end.
      exists r, w'. split; [ reflexivity | ]. split; [ exact E | ].
      rewrite Hw, Ht, Hl.
      destruct popup; unfold log in *; cbn in *; tidy_effects;
        rewrite ?app_nil_r; close.
    + pose proof (forward_spec popup data (t :: rest) 0 w) as Hf.
      destruct (forward popup data (t :: rest) 0 w) as [n w1].
      destruct Hf as (Hn & Ht1 & Hw1 & Hs1).
      change (failure (TabsFound (t :: rest)))
        with (if existsb delivers (t :: rest) then None
              else Some "Failed to communicate with Duolingo tabs.").
      rewrite existsb_filter. cbn [found]. rewrite Hn. cbn [Nat.add].
      destruct (Nat.eqb (length (List.filter delivers (t :: rest))) 0).
      * cbn [negb].
        match goal with
        | |- context [sendToNeuro _ ?w2] =>
            destruct (report_written popup id
                        "Failed to communicate with Duolingo tabs." w2)
              as (r & w' & E & Hw & Ht & Hs);
            assert (Hl : line w2 = line w)
              by (apply line_same_state; destruct popup; unfold log; cbn; close)
        end.
        exists r, w'. split; [ reflexivity | ]. split; [ exact E | ].
        rewrite Hw, Ht, Hl.
        destruct popup; unfold log in *; cbn in *; tidy_effects;
          rewrite ?app_nil_r, ?Ht1, ?Hw1; close.
      * cbn [negb]. exists (Return tt), w1.
        split; [ reflexivity | ]. split; [ reflexivity | ].
        rewrite Ht1, Hw1, app_nil_r. close.
  - cbn [found map failure].
    destruct (catch_written popup id w) as (r & w' & E & Hw & Ht & Hs).
    exists r, w'. rewrite app_nil_r. auto.
Qed.

(** X14. what becomes of an action that carries an id.  [handleAction] hands
    it to every tab that the lookup found, in the order found and whether or
    not an earlier tab took it, as a [neuro_action] message with the data of
    the frame.  It reports to Neuro only if no tab took the action: one
    failure result with the id of the action, whose text tells whether the
    lookup failed, found no tab, or no tab answered; the result is written
    once if the connection has an open socket, and dropped if not.  It never
    reports a success, and leaves the connection as it was.  (The id is one
    whose numbers print in plain digits.) *)
Theorem action_outcome (popup : bool) (msg id : jsval) (query : tabs_query)
  (w : World) :
  action_id msg = Some id ->
  plain id = true ->
  exists (data : jsval) (r : outcome unit) (w' : World),
    get_prop msg "data" = Return data
    /\ handleAction popup msg query w = (r, w')
    /\ tab_messages (effects w')
       = (tab_messages (effects w)
          ++ map (fun t => (tab_id t, neuro_action data)) (found query))%list
    /\ socket_writes (effects w')
       = (socket_writes (effects w)
          ++ match failure query, line w with
             | Some text, Some s => [(s, serialize (action_result id false text))]
             | _, _ => []
             end)%list
    /\ same_state w w'.
Proof.
  intros Hid _. exact (handleAction_spec popup msg id query w Hid).
Qed.

Lemma action_outcome_witness :
  exists (r : outcome unit) (w w' : World),
    run (init true) [Connect false; SocketOpen 1 1000] = Some w
    /\ handleAction true
         (JObj [("command", JStr "action");
                ("data", JObj [("id", JStr "a1");
                               ("name", JStr "continue_lesson")])])
         (TabsFound [mkTab 7 false; mkTab 9 true]) w = (r, w')
    /\ tab_messages (effects w')
       = [(7, neuro_action (JObj [("id", JStr "a1");
                                  ("name", JStr "continue_lesson")]));
          (9, neuro_action (JObj [("id", JStr "a1");
                                  ("name", JStr "continue_lesson")]))]
    /\ socket_writes (effects w') = socket_writes (effects w).
Proof.
  assert (Hrun : exists w, run (init true) [Connect false; SocketOpen 1 1000] = Some w)
    by (eexists; vm_compute; reflexivity).
  destruct Hrun as [w Hrun]. pose proof Hrun as Hrun'.
  vm_compute in Hrun'. injection Hrun' as Hw0.
  destruct (action_outcome true
              (JObj [("command", JStr "action");
                     ("data", JObj [("id", JStr "a1");
                                    ("name", JStr "continue_lesson")])])
              (JStr "a1") (TabsFound [mkTab 7 false; mkTab 9 true]) w eq_refl
              eq_refl)
    as (data & r & w' & Hd & E & Ht & Hw & _).
  injection Hd as <-.
  exists r, w, w'. split; [ exact Hrun | ]. split; [ exact E | ].
  split.
  - rewrite Ht. subst w. reflexivity.
  - rewrite Hw. cbn. apply app_nil_r.
Defined.

#[local] Arguments JSON_parse : simpl never.

(** *** What Neuro reads *)

Lemma json_member (k : string) (props : list (string * jsval)) :
  json_members props = true ->
  obj_get k props = JUndefined \/ json_value (obj_get k props) = true.
Proof.
  induction props as [|[k' v] props IH]; [ now left | ].
  cbn [json_members obj_get]. intros H.
  apply andb_true_iff in H as [H Hrest].
  apply andb_true_iff in H as [_ Hv].
  destruct (String.eqb k k'); [ now right | now apply IH ].
Qed.

Lemma json_field (k : string) (v : jsval) :
  json_value v = true ->
  field k v = JUndefined \/ json_value (field k v) = true.
Proof.
  intros Hv. unfold field.
  destruct v as [ | |b|n|s|l|props]; cbn [get_prop]; try now left.
  rewrite Codec.json_value_object in Hv. apply andb_true_iff in Hv as [_ Hm].
  now apply json_member.
Qed.

Lemma json_or (a d : jsval) :
  a = JUndefined \/ json_value a = true -> json_value d = true ->
  json_value (js_or a d) = true.
Proof.
  intros [-> | Ha] Hd; unfold js_or; [ exact Hd | ].
  now destruct (truthy a).
Qed.

Lemma json_truthy (a : jsval) :
  a = JUndefined \/ json_value a = true -> truthy a = true ->
  json_value a = true.
Proof. intros [-> | Ha] Ht; [ discriminate | exact Ha ]. Qed.

Lemma json_frame (command : string) (data : jsval) :
  json_value data = true -> json_value (frame command data) = true.
Proof.
  intros Hd. unfold frame. rewrite Codec.json_value_object.
  cbn. now rewrite Hd.
Qed.
Lemma get_prop_is_field (v x : jsval) (k : string) :
  get_prop v k = Return x -> x = field k v.
Proof. intros H. unfold field. now rewrite H. Qed.

(** C6, as the code has it.  An action frame with an id, when no tab is
    found: no tab gets a message, and the failure result (command
    [action/result], the id of the request, [success] false, a message) is
    handed to [sendToNeuro], which writes it, as the one frame written, when
    the connection is connected with its socket open at that moment, and
    writes nothing otherwise; the connection is left as it was.  An action
    frame without an id is logged, and nothing is written or forwarded for
    it, whatever the tab lookup would answer.  The text written is as
    [serialize] prints it when the numbers in the id print in plain
    digits. *)
Theorem action_without_tabs_fails_once :
  (forall (popup : bool) (msg id : jsval) (w : World),
      action_id msg = Some id ->
      plain id = true ->
      exists (r : outcome unit) (w' : World),
        handleAction popup msg (TabsFound []) w = (r, w')
        /\ tab_messages (effects w') = tab_messages (effects w)
        /\ socket_writes (effects w')
           = (socket_writes (effects w)
              ++ match line w with
                 | Some s => [(s, serialize (no_tab_result id))]
                 | None => []
                 end)%list
        /\ same_state w w')
  /\ (forall id : jsval,
         get_prop (no_tab_result id) "command" = Return (JStr "action/result")
         /\ exists data : jsval,
             get_prop (no_tab_result id) "data" = Return data
             /\ get_prop data "id" = Return id
             /\ get_prop data "success" = Return (JBool false)
             /\ get_prop data "message"
                = Return (JStr "No Duolingo tab is currently open."))
  /\ (forall (popup : bool) (props : list (string * jsval))
             (query : tabs_query) (w : World),
         action_id (JObj props) = None ->
         exists w' : World,
           handleAction popup (JObj props) query w = (Return tt, w')
           /\ socket_writes (effects w') = socket_writes (effects w)
           /\ tab_messages (effects w') = tab_messages (effects w)
           /\ In (LoggerLog error "Invalid action message: missing data or id")
                 (effects w')).
Proof.
  split; [ | split; [ | exact action_without_id_ignored ] ].
  - intros popup msg id w Hid _.
    destruct (handleAction_spec popup msg id (TabsFound []) w Hid)
      as (data & r & w' & _ & E & Ht & Hw & Hs).
    exists r, w'. cbn [found map failure] in Ht, Hw.
    rewrite app_nil_r in Ht. repeat split; try assumption; apply Hs.
  - intros id. split; [ reflexivity | ].
    eexists. repeat split; reflexivity.
Qed.

Lemma action_without_tabs_fails_once_witness :
  exists w : World,
    run (init true) [Connect false; SocketOpen 1 1000] = Some w
    /\ exists (r : outcome unit) (w' : World),
        handleAction true sample_action (TabsFound []) w = (r, w')
        /\ socket_writes (effects w')
           = (socket_writes (effects w)
                ++ [(1%positive, serialize (no_tab_result (JStr "42")))])%list.
Proof.
  destruct action_without_tabs_fails_once as (Hwrites & _).
  eexists. split; [ vm_compute; reflexivity | ].
  match goal with
  | |- exists r w', handleAction ?p ?m _ ?w = _ /\ _ =>
      destruct (Hwrites p m (JStr "42") w)
        as (r & w' & Hrun & _ & Hw & _);
      [ reflexivity | reflexivity | ];
      assert (Hl : line w = Some 1%positive) by (vm_compute; reflexivity);
      rewrite Hl in Hw
  end.
  exists r, w'. split; [ exact Hrun | exact Hw ].
Defined.

(** C6, as the claim has it, fails: the failure result is not always sent.
    [sendToNeuro] writes only on a connection that is connected with its
    socket open, and [handleAction] reaches it after it has awaited the tab
    lookup.  When the socket on which the action came has closed meanwhile,
    or the connection holds a second socket that is still connecting,
    nothing is written for the request. *)
Lemma action_unanswered_off_line :
  (exists w : World,
      run (init true) closed_during_lookup = Some w
      /\ dispatched (effects w) = [sample_action]
      /\ action_id sample_action = Some (JStr "42")
      /\ socket_writes
           (effects (snd (handleAction true sample_action (TabsFound []) w)))
         = socket_writes (effects w))
  /\ (exists w : World,
         run (init true) second_socket_connecting = Some w
         /\ dispatched (effects w) = [sample_action]
         /\ isConnected (conn w) = true
         /\ socket_writes
              (effects (snd (handleAction true sample_action (TabsFound []) w)))
            = socket_writes (effects w)).
Proof.
  split; eexists; (split; [ vm_compute; reflexivity | ]);
    repeat split; vm_compute; reflexivity.
Qed.

(** The frame that a message of the fragment is passed on as reads back. *)
Lemma relayed_parses (message f : jsval) :
  json_value message = true ->
  relayed message = Some f ->
  JSON_parse (serialize f) = Some f.
Proof.
  intros Hj Hr. apply Codec.JSON_parse_serialize.
  unfold relayed in Hr.
  pose proof (json_field "data" message Hj) as Hd.
  set (data := field "data" message) in *.
  destruct (truthy data) eqn:Td; [ | discriminate Hr ]. cbn [negb] in Hr.
  pose proof (json_truthy data Hd Td) as Hdata.
  assert (Hf : forall k, field k data = JUndefined
                         \/ json_value (field k data) = true)
    by (intros k; now apply json_field).
  destruct (is_string "neuro_context" (field "type" message)).
  { injection Hr as <-. apply json_frame.
    rewrite Codec.json_value_object. cbn.
    now rewrite !json_or by (auto || reflexivity). }
  destruct (is_string "neuro_action_result" (field "type" message)).
  { destruct (truthy (field "id" data)) eqn:Ti; [ | discriminate Hr ].
    injection Hr as <-. apply json_frame.
    rewrite Codec.json_value_object. cbn.
    rewrite (json_truthy _ (Hf "id") Ti).
    now rewrite !json_or by (auto || reflexivity). }
  destruct (is_string "neuro_register_actions" (field "type" message)).
  { destruct (is_array (field "actions" data)) eqn:Ta; [ | discriminate Hr ].
    injection Hr as <-. apply json_frame.
    rewrite Codec.json_value_object. cbn.
    destruct (Hf "actions") as [E | ->]; [ | reflexivity ].
    rewrite E in Ta. discriminate Ta. }
  destruct (is_string "neuro_force_action" (field "type" message));
    [ | discriminate Hr ].
  injection Hr as <-. apply json_frame.
  rewrite Codec.json_value_object. cbn.
  now rewrite !json_or by (auto || reflexivity).
Qed.

Lemma failure_result_parses (msg id : jsval) (query : tabs_query)
  (text : string) :
  json_value msg = true ->
  action_id msg = Some id ->
  failure query = Some text ->
  JSON_parse (serialize (action_result id false text))
  = Some (action_result id false text).
Proof.
  intros Hj Hid Hq. apply Codec.JSON_parse_serialize.
  destruct (action_id_Some msg id Hid) as (data & Hd & Td & Hi & Ti).
  apply get_prop_is_field in Hd, Hi. subst data id.
  pose proof (json_truthy _ (json_field "data" msg Hj) Td) as Hdata.
  pose proof (json_truthy _ (json_field "id" _ Hdata) Ti) as Hidj.
  change (action_result (field "id" (field "data" msg)) false text)
    with (frame "action/result"
            (JObj [("id", field "id" (field "data" msg));
                   ("success", JBool false); ("message", JStr text)])).
  apply json_frame.
  rewrite Codec.json_value_object. cbn.
  now rewrite Hidj.
Qed.

(** X15. what this layer writes, Neuro can read.  For a message of a content
    script that is a value of the fragment of JSON that [JSON_parse] reads,
    on a connection with an open socket: if the message is one that is
    passed on, the one text that [handleRuntimeMessage] writes parses back
    to the very frame that its handler built.  For an action frame of the
    fragment that no tab took, likewise: the one text that [handleAction]
    writes parses back to the failure result with the id of the action. *)
Theorem written_frames_read_back :
  (forall (popup responds : bool) (message f : jsval) (w : World)
          (s : positive),
      json_value message = true ->
      relayed message = Some f ->
      line w = Some s ->
      exists text : string,
        socket_writes
          (effects (world (handleRuntimeMessage popup responds message w)))
        = (socket_writes (effects w) ++ [(s, text)])%list
        /\ JSON_parse text = Some f)
  /\ (forall (popup : bool) (msg id : jsval) (query : tabs_query)
             (reason : string) (w : World) (s : positive),
         json_value msg = true ->
         action_id msg = Some id ->
         failure query = Some reason ->
         line w = Some s ->
         exists text : string,
           socket_writes (effects (snd (handleAction popup msg query w)))
           = (socket_writes (effects w) ++ [(s, text)])%list
           /\ JSON_parse text = Some (action_result id false reason)).
Proof.
  split.
  - intros popup responds message f w s Hj Hr Hl.
    destruct (handleRuntimeMessage_writes popup responds message w) as [Hw _].
    cbv zeta in Hw. rewrite Hr, Hl in Hw.
    exists (serialize f). split; [ exact Hw | ].
    now apply (relayed_parses message).
  - intros popup msg id query reason w s Hj Hid Hq Hl.
    destruct (handleAction_spec popup msg id query w Hid)
      as (data & r & w' & _ & E & _ & Hw & _).
    rewrite Hq, Hl in Hw. rewrite E. cbn [snd].
    exists (serialize (action_result id false reason)).
    split; [ exact Hw | ].
    now apply (failure_result_parses msg id query).
Qed.

Lemma written_frames_read_back_witness :
  let message := JObj [("type", JStr "neuro_context");
                       ("data", JObj [("message", JStr "New question: uno")])] in
  let f := frame "context"
             (JObj [("message", JStr "New question: uno");
                    ("silent", JBool false)]) in
  let w := match run (init true) [Connect false; SocketOpen 1 1000] with
           | Some w => w
           | None => init true
           end in
  exists text : string,
    socket_writes (effects (world (handleRuntimeMessage true true message w)))
    = (socket_writes (effects w) ++ [(1%positive, text)])%list
    /\ JSON_parse text = Some f.
Proof.
  intros message f w.
  assert (H1 : json_value message = true) by (vm_compute; reflexivity).
  assert (H2 : relayed message = Some f) by (vm_compute; reflexivity).
  assert (H3 : line w = Some 1%positive) by (vm_compute; reflexivity).
  destruct written_frames_read_back as [H _].
  exact (H true true message f w 1%positive H1 H2 H3).
Defined.

End Relay.

(* ===================================================================== *)
(** * The popup manager and its ports *)
(* ===================================================================== *)

Module Ports.
Import JS Popup Service.

(** [broadcastToPopup] as a loop over any list of ports. *)
Lemma broadcast_fold (throws : positive -> bool) (m : port_message)
  (l : list positive) :
  forall s : PopupService,
    let s' := fold_left (fun s p => if throws p
                                    then with_ports (delete_port p (popupPorts s)) s
                                    else post p m s) l s in
    manager s' = manager s /\ statusCache s' = statusCache s
    /\ watched s' = watched s /\ listeners s' = listeners s
    /\ next_port s' = next_port s
    /\ popupPorts s'
       = List.filter (fun q => negb (existsb (fun p => throws p && Pos.eqb p q) l))
                     (popupPorts s)
    /\ posted s'
       = (posted s ++ map (fun p => (p, m))
                          (List.filter (fun p => negb (throws p)) l))%list.
Proof.
  induction l as [|p l IH]; intros s; cbn.
  - rewrite app_nil_r. repeat split; try reflexivity.
    induction (popupPorts s) as [|q qs IHq]; [ reflexivity | ].
    cbn. now rewrite <- IHq.
  - destruct (throws p) eqn:Hp.
    + destruct (IH (with_ports (delete_port p (popupPorts s)) s))
        as (H1 & H2 & H3 & H4 & H5 & H6 & H7).
      cbv zeta in *. rewrite H1, H2, H3, H4, H5, H6, H7. cbn.
      repeat split; try reflexivity.
      unfold delete_port. generalize (popupPorts s). intros qs.
      induction qs as [|q qs IHq]; [ reflexivity | ].
      cbn. destruct (Pos.eqb p q) eqn:E; cbn; [ exact IHq | ].
      destruct (existsb _ l); cbn; [ exact IHq | now rewrite IHq ].
    + destruct (IH (post p m s)) as (H1 & H2 & H3 & H4 & H5 & H6 & H7).
      cbv zeta in *. rewrite H1, H2, H3, H4, H5, H6, H7. cbn.
      rewrite <- app_assoc. repeat split; reflexivity.
Qed.

Lemma filter_keep {A : Type} (f g : A -> bool) (l : list A) :
  (forall x, In x l -> f x = g x) -> List.filter f l = List.filter g l.
Proof.
  induction l as [|x l IH]; intros H; [ reflexivity | ].
  cbn. rewrite (H x) by now left.
  rewrite IH by (intros y Hy; apply H; now right). reflexivity.
Qed.

Lemma broadcastToPopup_spec (throws : positive -> bool) (m : port_message)
  (s : PopupService) :
  let s' := broadcastToPopup throws m s in
  manager s' = manager s /\ statusCache s' = statusCache s
  /\ watched s' = watched s /\ listeners s' = listeners s
  /\ next_port s' = next_port s
  /\ popupPorts s' = List.filter (fun q => negb (throws q)) (popupPorts s)
  /\ posted s'
     = (posted s ++ map (fun p => (p, m))
                        (List.filter (fun p => negb (throws p)) (popupPorts s)))%list.
Proof.
  destruct (broadcast_fold throws m (popupPorts s) s)
    as (H1 & H2 & H3 & H4 & H5 & H6 & H7).
  cbv zeta in *. unfold broadcastToPopup.
  repeat split; try assumption.
  rewrite H6. apply filter_keep. intros q Hq. f_equal.
  destruct (throws q) eqn:Tq.
  - apply existsb_exists. exists q. rewrite Tq, Pos.eqb_refl. now split.
  - destruct (existsb _ _) eqn:E; [ | reflexivity ].
    apply existsb_exists in E as (p & _ & Hp).
    apply andb_true_iff in Hp as [Tp Hpq]. apply Pos.eqb_eq in Hpq. congruence.
Qed.
(** The ports that a broadcast reaches. *)
Lemma addLogEntry_spec (throws : positive -> bool) (now : string)
  (d : LogData) (s : PopupService) :
  let s' := snd (addLogEntry throws now d s) in
  let reached := if isPopupOpen (manager s)
                 then List.filter (fun q => negb (throws q)) (popupPorts s)
                 else [] in
  manager s' = snd (Popup.addLogEntry now d (manager s))
  /\ statusCache s' = statusCache s
  /\ watched s' = watched s /\ listeners s' = listeners s
  /\ next_port s' = next_port s
  /\ popupPorts s' = (if isPopupOpen (manager s)
                      then List.filter (fun q => negb (throws q)) (popupPorts s)
                      else popupPorts s)
  /\ posted s'
     = (posted s ++ map (fun p => (p, NewLog (entry_of (now, d)))) reached)%list.
Proof.
  cbv zeta. unfold addLogEntry.
  destruct (Popup.addLogEntry now d (manager s)) as [e pm] eqn:E.
  assert (He : e = entry_of (now, d))
    by (rewrite <- (LogCache.addLogEntry_entry now d (manager s)); now rewrite E).
  assert (Ho : isPopupOpen pm = isPopupOpen (manager s))
    by (replace pm with (snd (Popup.addLogEntry now d (manager s)))
          by (now rewrite E); reflexivity).
  subst e. cbn [snd]. rewrite Ho.
  destruct (isPopupOpen (manager s)).
  - destruct (broadcastToPopup_spec throws (NewLog (entry_of (now, d)))
                (with_manager pm s)) as (H1 & H2 & H3 & H4 & H5 & H6 & H7).
    cbv zeta in *. rewrite H1, H2, H3, H4, H5, H6, H7. repeat split.
  - cbn. rewrite app_nil_r. repeat split.
Qed.

Lemma updateLastEvent_spec (throws : positive -> bool) (eventType now : string)
  (s : PopupService) :
  let s' := updateLastEvent throws eventType now s in
  let status := mkStatus (neuroConnected (statusCache s))
                         (duolingoActive (statusCache s)) (JStr now) eventType in
  let reached := if isPopupOpen (manager s)
                 then List.filter (fun q => negb (throws q)) (popupPorts s)
                 else [] in
  manager s' = manager s
  /\ statusCache s' = status
  /\ watched s' = watched s /\ listeners s' = listeners s
  /\ next_port s' = next_port s
  /\ popupPorts s' = (if isPopupOpen (manager s)
                      then List.filter (fun q => negb (throws q)) (popupPorts s)
                      else popupPorts s)
  /\ posted s' = (posted s ++ map (fun p => (p, StatusUpdate status)) reached)%list.
Proof.
  cbv zeta. unfold updateLastEvent. cbn [with_status manager].
  destruct (isPopupOpen (manager s)).
  - match goal with
    | |- context [broadcastToPopup throws ?m ?s0] =>
        destruct (broadcastToPopup_spec throws m s0)
          as (H1 & H2 & H3 & H4 & H5 & H6 & H7)
    end.
    cbv zeta in *. rewrite H1, H2, H3, H4, H5, H6, H7. repeat split.
  - cbn. rewrite app_nil_r. repeat split.
Qed.

(** *** What a port has seen *)

Lemma seen_posted (p : positive) (s s' : PopupService)
  (more : list (positive * port_message)) :
  posted s' = (posted s ++ more)%list ->
  seen p s'
  = (seen p s
     ++ flat_map (fun pm => match pm with
                            | (q, CachedLog e) | (q, NewLog e) =>
                                if Pos.eqb p q then [e] else []
                            | _ => []
                            end) more)%list.
Proof. intros H. unfold seen. now rewrite H, flat_map_app. Qed.

Lemma seen_status (p : positive) (st : StatusCache) (l : list positive) :
  flat_map (fun pm : positive * port_message =>
              match pm with
              | (q, CachedLog e) | (q, NewLog e) =>
                  if Pos.eqb p q then [e] else []
              | _ => []
              end) (map (fun q => (q, StatusUpdate st)) l) = [].
Proof. induction l as [|q l IH]; [ reflexivity | exact IH ]. Qed.

Lemma seen_new (p : positive) (e : LogEntry) (l : list positive) :
  NoDup l ->
  flat_map (fun pm : positive * port_message =>
              match pm with
              | (q, CachedLog e) | (q, NewLog e) =>
                  if Pos.eqb p q then [e] else []
              | _ => []
              end) (map (fun q => (q, NewLog e)) l)
  = if existsb (Pos.eqb p) l then [e] else [].
Proof.
  induction l as [|q l IH]; intros Hnd; [ reflexivity | ].
  apply NoDup_cons in Hnd as [Hq Hnd]. cbn. rewrite (IH Hnd).
  destruct (Pos.eqb p q) eqn:E; [ | reflexivity ].
  apply Pos.eqb_eq in E. subst q. cbn.
  destruct (existsb (Pos.eqb p) l) eqn:Ex; [ | reflexivity ].
  apply existsb_exists in Ex as (x & Hx & Hpx).
  apply Pos.eqb_eq in Hpx. subst x. now apply list_elem_of_In in Hx.
Qed.

Lemma seen_cached (p q : positive) (cache : list LogEntry) :
  flat_map (fun pm : positive * port_message =>
              match pm with
              | (q, CachedLog e) | (q, NewLog e) =>
                  if Pos.eqb p q then [e] else []
              | _ => []
              end) (map (fun e => (q, CachedLog e)) cache)
  = if Pos.eqb p q then cache else [].
Proof.
  induction cache as [|e cache IH]; [ now destruct (Pos.eqb p q) | ].
  cbn. rewrite IH. now destruct (Pos.eqb p q).
Qed.

Lemma sendCachedData_spec (p : positive) (s : PopupService) :
  let s' := sendCachedData p s in
  manager s' = manager s /\ statusCache s' = statusCache s
  /\ popupPorts s' = popupPorts s
  /\ watched s' = watched s /\ listeners s' = listeners s
  /\ next_port s' = next_port s
  /\ posted s'
     = (posted s ++ (p, StatusUpdate (statusCache s))
                    :: map (fun e => (p, CachedLog e)) (logCache (manager s)))%list.
Proof.
  cbv zeta. unfold sendCachedData. cbn [post manager].
  generalize (logCache (manager s)). intros cache.
  match goal with
  | |- context [fold_left _ cache ?s0] =>
      assert (H : forall s1 : PopupService,
                 let s' := fold_left (fun s e => post p (CachedLog e) s) cache s1 in
                 manager s' = manager s1 /\ statusCache s' = statusCache s1
                 /\ popupPorts s' = popupPorts s1
                 /\ watched s' = watched s1 /\ listeners s' = listeners s1
                 /\ next_port s' = next_port s1
                 /\ posted s'
                    = (posted s1 ++ map (fun e => (p, CachedLog e)) cache)%list);
      [ | destruct (H s0) as (H1 & H2 & H3 & H4 & H5 & H6 & H7) ]
  end.
  { induction cache as [|e cache IH]; intros s1; cbn.
    - rewrite app_nil_r. repeat split.
    - destruct (IH (post p (CachedLog e) s1)) as (H1 & H2 & H3 & H4 & H5 & H6 & H7).
      cbv zeta in *. rewrite H1, H2, H3, H4, H5, H6, H7. cbn.
      rewrite <- app_assoc. repeat split. }
  cbv zeta in *. rewrite H1, H2, H3, H4, H5, H6, H7. cbn.
  rewrite <- app_assoc. repeat split.
Qed.
(** *** What holds whatever is called *)

Lemma NoDup_bfilter {A : Type} (f : A -> bool) (l : list A) :
  NoDup l -> NoDup (List.filter f l).
Proof.
  induction l as [|x l IH]; intros H; [ exact H | ].
  apply NoDup_cons in H as [Hx Hl]. cbn.
  destruct (f x); [ | now apply IH ].
  apply NoDup_cons. split; [ | now apply IH ].
  rewrite list_elem_of_In, filter_In. rewrite list_elem_of_In in Hx. tauto.
Qed.

Lemma bfilter_nil {A : Type} (f : A -> bool) (l : list A) :
  List.filter f l <> [] -> l <> [].
Proof. now destruct l. Qed.

Lemma sound_init : sound createPopupManager.
Proof.
  unfold sound. cbn.
  split; [ lia | ]. split; [ reflexivity | ].
  split; [ intros H; now destruct H | ].
  split; [ apply NoDup_nil_2 | ].
  repeat split; intros; contradiction.
Qed.

Lemma cache_bound (now : string) (d : LogData) (pm : PopupManager) :
  maxCacheSize pm = 200 ->
  (length (logCache (snd (Popup.addLogEntry now d pm))) <= 200)%nat
  /\ maxCacheSize (snd (Popup.addLogEntry now d pm)) = 200
  /\ isPopupOpen (snd (Popup.addLogEntry now d pm)) = isPopupOpen pm.
Proof.
  intros Hmax. split; [ | split; [ exact Hmax | reflexivity ] ].
  rewrite LogCache.addLogEntry_cache by lia.
  rewrite LogCache.last_entries_length, Hmax. lia.
Qed.

Lemma sound_addLogEntry (throws : positive -> bool) (now : string)
  (d : LogData) (s : PopupService) :
  sound s -> sound (snd (addLogEntry throws now d s)).
Proof.
  intros (Hlen & Hmax & Hopen & Hnd & Hw & Hwn & Hpn).
  destruct (addLogEntry_spec throws now d s) as (H1 & H2 & H3 & H4 & H5 & H6 & H7).
  cbv zeta in *.
  destruct (cache_bound now d (manager s) Hmax) as (Hb1 & Hb2 & Hb3).
  unfold sound. rewrite H1, H3, H5, H6, H7, Hb2, Hb3.
  split; [ exact Hb1 | ]. split; [ reflexivity | ].
  destruct (isPopupOpen (manager s)) eqn:Ho.
  - split; [ reflexivity | ]. split; [ now apply NoDup_bfilter | ].
    split; [ intros p Hp; apply filter_In in Hp as [Hp _]; now apply Hw | ].
    split; [ exact Hwn | ].
    intros p m Hin. apply in_app_iff in Hin as [Hin | Hin]; [ eauto | ].
    apply in_map_iff in Hin as (q & [= <- <-] & Hq).
    apply filter_In in Hq as [Hq _]. auto.
  - split; [ exact Hopen | ]. split; [ exact Hnd | ]. split; [ exact Hw | ].
    split; [ exact Hwn | ].
    intros p m Hin. cbn in Hin. rewrite app_nil_r in Hin. eauto.
Qed.

Lemma sound_updateLastEvent (throws : positive -> bool) (eventType now : string)
  (s : PopupService) :
  sound s -> sound (updateLastEvent throws eventType now s).
Proof.
  intros (Hlen & Hmax & Hopen & Hnd & Hw & Hwn & Hpn).
  destruct (updateLastEvent_spec throws eventType now s)
    as (H1 & H2 & H3 & H4 & H5 & H6 & H7).
  cbv zeta in *. unfold sound. rewrite H1, H3, H5, H6, H7.
  split; [ exact Hlen | ]. split; [ exact Hmax | ].
  destruct (isPopupOpen (manager s)) eqn:Ho.
  - split; [ reflexivity | ]. split; [ now apply NoDup_bfilter | ].
    split; [ intros p Hp; apply filter_In in Hp as [Hp _]; now apply Hw | ].
    split; [ exact Hwn | ].
    intros p m Hin. apply in_app_iff in Hin as [Hin | Hin]; [ eauto | ].
    apply in_map_iff in Hin as (q & [= <- <-] & Hq).
    apply filter_In in Hq as [Hq _]. auto.
  - split; [ exact Hopen | ]. split; [ exact Hnd | ]. split; [ exact Hw | ].
    split; [ exact Hwn | ].
    intros p m Hin. cbn in Hin. rewrite app_nil_r in Hin. eauto.
Qed.

Lemma sound_with_status (st : StatusCache) (s : PopupService) :
  sound s -> sound (with_status st s).
Proof. intros H. exact H. Qed.

Lemma add_port_In (p q : positive) (ports : list positive) :
  In q (add_port p ports) <-> q = p \/ In q ports.
Proof.
  unfold add_port. destruct (existsb (Pos.eqb p) ports) eqn:E.
  - split; [ tauto | ]. intros [-> | H]; [ | exact H ].
    apply existsb_exists in E as (x & Hx & Hpx).
    apply Pos.eqb_eq in Hpx. now subst x.
  - rewrite in_app_iff. cbn. intuition.
Qed.

Lemma add_port_NoDup (p : positive) (ports : list positive) :
  NoDup ports -> NoDup (add_port p ports).
Proof.
  intros H. unfold add_port. destruct (existsb (Pos.eqb p) ports) eqn:E;
    [ exact H | ].
  apply NoDup_app. split; [ exact H | ]. split; [ | apply NoDup_singleton ].
  intros x Hx Hp. apply list_elem_of_singleton in Hp. subst x.
  apply list_elem_of_In in Hx.
  assert (Ht : existsb (Pos.eqb p) ports = true)
    by (apply existsb_exists; exists p; split; [ exact Hx | apply Pos.eqb_refl ]).
  congruence.
Qed.

Lemma sound_on_connect (name : string) (p : positive) (s : PopupService) :
  (p < next_port s)%positive -> sound s -> sound (on_connect name p s).
Proof.
  intros Hp (Hlen & Hmax & Hopen & Hnd & Hw & Hwn & Hpn).
  unfold on_connect. destruct (String.eqb name "popup").
  2: { repeat split; assumption. }
  match goal with
  | |- context [sendCachedData p ?s0] =>
      destruct (sendCachedData_spec p s0) as (H1 & H2 & H3 & H4 & H5 & H6 & H7)
  end.
  cbv zeta in *. unfold sound. cbn [manager popupPorts watched next_port posted].
  rewrite H1, H3, H4, H6, H7. cbn.
  split; [ exact Hlen | ]. split; [ exact Hmax | ]. split; [ reflexivity | ].
  split; [ now apply add_port_NoDup | ].
  split; [ intros q Hq; apply add_port_In in Hq as [-> | Hq]; auto | ].
  split; [ intros q [<- | Hq]; auto | ].
  intros q m Hin. apply in_app_iff in Hin as [Hin | Hin]; [ eauto | ].
  destruct Hin as [[= <- <-] | Hin]; [ exact Hp | ].
  apply in_map_iff in Hin as (e & [= <- <-] & _). exact Hp.
Qed.

Lemma on_connect_next (name : string) (p : positive) (s : PopupService) :
  next_port (on_connect name p s) = next_port s.
Proof.
  unfold on_connect. destruct (String.eqb name "popup"); [ | reflexivity ].
  cbn [next_port].
  match goal with
  | |- context [sendCachedData p ?s0] =>
      destruct (sendCachedData_spec p s0) as (_ & _ & _ & _ & _ & H6 & _)
  end.
  exact H6.
Qed.

Lemma sound_connects (name : string) (p : positive) (n : nat)
  (s : PopupService) :
  (p < next_port s)%positive -> sound s ->
  sound (Nat.iter n (on_connect name p) s)
  /\ next_port (Nat.iter n (on_connect name p) s) = next_port s.
Proof.
  intros Hp Hs. induction n as [|n [IH1 IH2]]; [ now split | ].
  rewrite Nat.iter_succ. split.
  - apply sound_on_connect; [ now rewrite IH2 | exact IH1 ].
  - now rewrite on_connect_next.
Qed.

Lemma delete_port_In (p q : positive) (ports : list positive) :
  In q (delete_port p ports) <-> In q ports /\ q <> p.
Proof.
  unfold delete_port. rewrite filter_In.
  destruct (Pos.eqb p q) eqn:E.
  - apply Pos.eqb_eq in E. subst q. cbn. intuition congruence.
  - apply Pos.eqb_neq in E. cbn. intuition congruence.
Qed.

Lemma on_disconnect_twice (p : positive) (s : PopupService) :
  on_disconnect p (on_disconnect p s) = on_disconnect p s.
Proof.
  unfold on_disconnect, set_open, with_manager, with_ports.
  cbn -[delete_port].
  assert (H : delete_port p (delete_port p (popupPorts s))
              = delete_port p (popupPorts s)).
  { unfold delete_port. generalize (popupPorts s). intros l.
    induction l as [|q l IH]; [ reflexivity | ].
    cbn. destruct (Pos.eqb p q) eqn:E; cbn; [ exact IH | ].
    rewrite E. cbn. now rewrite IH. }
  now rewrite H.
Qed.

Lemma disconnects (p : positive) (n : nat) (s : PopupService) :
  Nat.iter n (on_disconnect p) s
  = match n with
    | O => s
    | S _ => on_disconnect p s
    end.
Proof.
  induction n as [|n IH]; [ reflexivity | ].
  rewrite Nat.iter_succ, IH. destruct n; [ reflexivity | ].
  apply on_disconnect_twice.
Qed.

Lemma count_zero (p : positive) (l : list positive) :
  length (List.filter (Pos.eqb p) l) = 0%nat -> ~ In p l.
Proof.
  induction l as [|q l IH]; [ tauto | ].
  cbn. destruct (Pos.eqb p q) eqn:E; [ discriminate | ].
  apply Pos.eqb_neq in E. intros H [Hq | Hq]; [ congruence | now apply IH ].
Qed.

Lemma sound_disconnect (p : positive) (s : PopupService) :
  sound s -> sound (serve s (PortDisconnects p)).
Proof.
  intros (Hlen & Hmax & Hopen & Hnd & Hw & Hwn & Hpn).
  cbn [serve]. rewrite disconnects.
  destruct (length (List.filter (Pos.eqb p) (watched s))) eqn:En.
  - apply count_zero in En. unfold sound. cbn -[delete_port].
    repeat split; try assumption.
    + intros q Hq. apply delete_port_In. split; [ auto | ].
      intros ->. apply En. auto.
    + intros q Hq. apply delete_port_In in Hq as [Hq _]. auto.
  - unfold sound, on_disconnect. cbn -[delete_port].
    split; [ exact Hlen | ]. split; [ exact Hmax | ].
    split; [ destruct (delete_port p (popupPorts s));
             [ intros H; now destruct H | reflexivity ] | ].
    split; [ now apply NoDup_bfilter | ].
    split.
    + intros q Hq. apply delete_port_In in Hq as [Hq Hne].
      apply delete_port_In. auto.
    + split; [ | exact Hpn ].
      intros q Hq. apply delete_port_In in Hq as [Hq _]. auto.
Qed.

Lemma sound_serve (s : PopupService) (c : call) :
  sound s -> sound (serve s c).
Proof.
  intros Hs. destruct c as [ |name|p|throws now d|throws ty now
                            |t1 t2 n1 n2 c|throws now a].
  - exact Hs.
  - cbn [serve].
    match goal with
    | |- sound (Nat.iter ?n (on_connect name ?p) ?s0) =>
        apply (sound_connects name p n s0)
    end.
    + cbn. lia.
    + destruct Hs as (Hlen & Hmax & Hopen & Hnd & Hw & Hwn & Hpn).
      unfold sound. cbn. repeat split; try assumption.
      * intros q Hq. specialize (Hwn q Hq). lia.
      * intros q m Hq. specialize (Hpn q m Hq). lia.
  - now apply sound_disconnect.
  - now apply sound_addLogEntry.
  - now apply sound_updateLastEvent.
  - cbn [serve]. unfold logNeuroConnection.
    apply sound_updateLastEvent, sound_addLogEntry, sound_with_status, Hs.
  - cbn [serve]. unfold logDuolingoActivity.
    apply sound_addLogEntry, sound_with_status, Hs.
Qed.

Lemma sound_serve_all (calls : list call) (s : PopupService) :
  sound s -> sound (serve_all s calls).
Proof.
  unfold serve_all. revert s.
  induction calls as [|c calls IH]; intros s Hs; [ exact Hs | ].
  cbn [fold_left]. apply IH. now apply sound_serve.
Qed.

(** X16. whatever is called on the popup manager of the background service,
    in any order and whichever ports fail, its log cache holds at most 200
    entries, no port is in the set twice, a port in the set is one that the
    host opened and that still has its disconnect listener, and
    [isPopupOpen] is true as long as a port is in the set: closing one of
    two popups does not cut the other off. *)
Theorem service_invariants (calls : list call) :
  let s := serve_all createPopupManager calls in
  (length (logCache (manager s)) <= 200)%nat
  /\ (popupPorts s <> [] -> isPopupOpen (manager s) = true)
  /\ NoDup (popupPorts s)
  /\ forall p : positive,
      In p (popupPorts s) -> In p (watched s) /\ (p < next_port s)%positive.
Proof.
  cbv zeta.
  destruct (sound_serve_all calls createPopupManager sound_init)
    as (Hlen & Hmax & Hopen & Hnd & Hw & Hwn & Hpn).
  repeat split; auto.
Qed.

(** *** What an open popup is shown *)

Lemma seen_fresh (p : positive) (s : PopupService) :
  (forall q m, In (q, m) (posted s) -> (q < p)%positive) -> seen p s = [].
Proof.
  unfold seen. induction (posted s) as [|[q m] l IH]; intros H; [ reflexivity | ].
  cbn. rewrite IH by (intros q' m' Hin; apply (H q' m'); now right).
  assert (Hq : (q < p)%positive) by (apply (H q m); now left).
  assert (E : Pos.eqb p q = false) by (apply Pos.eqb_neq; lia).
  rewrite E. now destruct m.
Qed.

Lemma in_existsb (p : positive) (l : list positive) :
  In p l -> existsb (Pos.eqb p) l = true.
Proof.
  intros H. apply existsb_exists. exists p. split; [ exact H | apply Pos.eqb_refl ].
Qed.

Lemma seen_addLogEntry (p : positive) (throws : positive -> bool)
  (now : string) (d : LogData) (s : PopupService) :
  sound s -> In p (popupPorts s) -> throws p = false ->
  seen p (snd (addLogEntry throws now d s))
  = (seen p s ++ [entry_of (now, d)])%list
  /\ In p (popupPorts (snd (addLogEntry throws now d s))).
Proof.
  intros (Hlen & Hmax & Hopen & Hnd & Hw & Hwn & Hpn) Hp Ht.
  destruct (addLogEntry_spec throws now d s) as (H1 & H2 & H3 & H4 & H5 & H6 & H7).
  cbv zeta in *.
  assert (Ho : isPopupOpen (manager s) = true)
    by (apply Hopen; intros E; rewrite E in Hp; contradiction).
  rewrite Ho in H6, H7.
  assert (Hin : In p (List.filter (fun q => negb (throws q)) (popupPorts s)))
    by (apply filter_In; split; [ exact Hp | now rewrite Ht ]).
  split; [ | now rewrite H6 ].
  rewrite (seen_posted p s _ _ H7). f_equal.
  rewrite seen_new by now apply NoDup_bfilter.
  now rewrite in_existsb.
Qed.

Lemma seen_updateLastEvent (p : positive) (throws : positive -> bool)
  (eventType now : string) (s : PopupService) :
  sound s -> In p (popupPorts s) -> throws p = false ->
  seen p (updateLastEvent throws eventType now s) = seen p s
  /\ In p (popupPorts (updateLastEvent throws eventType now s)).
Proof.
  intros (Hlen & Hmax & Hopen & Hnd & Hw & Hwn & Hpn) Hp Ht.
  destruct (updateLastEvent_spec throws eventType now s)
    as (H1 & H2 & H3 & H4 & H5 & H6 & H7).
  cbv zeta in *.
  assert (Ho : isPopupOpen (manager s) = true)
    by (apply Hopen; intros E; rewrite E in Hp; contradiction).
  rewrite Ho in H6, H7.
  split.
  - rewrite (seen_posted p s _ _ H7), seen_status. apply app_nil_r.
  - rewrite H6. apply filter_In. split; [ exact Hp | now rewrite Ht ].
Qed.

Lemma seen_on_connect (name : string) (p q : positive) (s : PopupService) :
  seen p (on_connect name q s)
  = (seen p s ++ if String.eqb name "popup" && Pos.eqb p q
                 then logCache (manager s) else [])%list
  /\ logCache (manager (on_connect name q s)) = logCache (manager s)
  /\ (In p (popupPorts s) -> In p (popupPorts (on_connect name q s)))
  /\ (String.eqb name "popup" = true -> In q (popupPorts (on_connect name q s))).
Proof.
  unfold on_connect. destruct (String.eqb name "popup").
  2: { cbn. rewrite app_nil_r. repeat split; [ tauto | discriminate ]. }
  match goal with
  | |- context [sendCachedData q ?s0] =>
      destruct (sendCachedData_spec q s0) as (H1 & H2 & H3 & H4 & H5 & H6 & H7);
      pose proof (seen_posted p s0 (sendCachedData q s0) _ H7) as Hseen
  end.
  cbv zeta in *. unfold seen in *. cbn [posted manager popupPorts] in *.
  rewrite Hseen, H1, H3. cbn.
  change (flat_map _ (map (fun e => (q, CachedLog e)) (logCache (manager s))))
    with (flat_map (fun pm : positive * port_message =>
                      match pm with
                      | (q, CachedLog e) | (q, NewLog e) =>
                          if Pos.eqb p q then [e] else []
                      | _ => []
                      end)
                   (map (fun e => (q, CachedLog e)) (logCache (manager s)))).
  rewrite seen_cached.
  repeat split.
  - intros Hp. apply add_port_In. now right.
  - intros _. apply add_port_In. now left.
Qed.

Lemma seen_connects (name : string) (p q : positive) (n : nat)
  (s : PopupService) :
  let s' := Nat.iter n (on_connect name q) s in
  seen p s'
  = (seen p s ++ if String.eqb name "popup" && Pos.eqb p q
                 then concat (repeat (logCache (manager s)) n) else [])%list
  /\ logCache (manager s') = logCache (manager s)
  /\ (In p (popupPorts s) -> In p (popupPorts s'))
  /\ (String.eqb name "popup" = true -> (1 <= n)%nat -> In q (popupPorts s')).
Proof.
  cbv zeta. induction n as [|n (IH1 & IH2 & IH3 & IH4)].
  - cbn. destruct (_ && _); rewrite app_nil_r.
    all: repeat split; try tauto; intros; lia.
  - rewrite Nat.iter_succ.
    destruct (seen_on_connect name p q (Nat.iter n (on_connect name q) s))
      as (H1 & H2 & H3 & H4).
    rewrite H1, H2, IH1, IH2, <- app_assoc.
    split; [ f_equal | ].
    + destruct (_ && _); [ | reflexivity ].
      clear. induction n as [|n IH]; [ cbn; now rewrite app_nil_r | ].
      cbn [repeat concat] in *. rewrite <- app_assoc, IH. reflexivity.
    + repeat split; auto.
Qed.

Lemma seen_spared (p : positive) (s : PopupService) (c : call) :
  sound s -> In p (popupPorts s) -> spares p c = true ->
  seen p (serve s c) = (seen p s ++ logged c)%list
  /\ In p (popupPorts (serve s c)).
Proof.
  intros Hs Hp Hc.
  pose proof Hs as (Hlen & Hmax & Hopen & Hnd & Hw & Hwn & Hpn).
  destruct c as [ |name|q|throws now d|throws ty now
                 |t1 t2 n1 n2 c|throws now a]; cbn [serve logged spares] in *.
  - unfold seen. cbn. rewrite app_nil_r. auto.
  - match goal with
    | |- context [Nat.iter ?n (on_connect name ?q) ?s0] =>
        destruct (seen_connects name p q n s0) as (H1 & _ & H3 & _)
    end.
    cbv zeta in *. rewrite H1.
    assert (E : Pos.eqb p (next_port s) = false).
    { apply Pos.eqb_neq. specialize (Hwn p (Hw p Hp)). lia. }
    rewrite E, andb_false_r. unfold seen. cbn. auto.
  - rewrite disconnects. apply negb_true_iff, Pos.eqb_neq in Hc.
    destruct (length (List.filter (Pos.eqb q) (watched s))).
    + unfold seen. cbn. rewrite app_nil_r. auto.
    + unfold seen, on_disconnect. cbn -[delete_port]. rewrite app_nil_r.
      split; [ reflexivity | ]. apply delete_port_In. auto.
  - apply negb_true_iff in Hc. now apply seen_addLogEntry.
  - apply negb_true_iff in Hc. rewrite app_nil_r. now apply seen_updateLastEvent.
  - apply andb_true_iff in Hc as [Hc1 Hc2].
    apply negb_true_iff in Hc1, Hc2. unfold logNeuroConnection.
    match goal with
    | |- context [addLogEntry t1 n1 ?d0 ?s0] =>
        destruct (seen_addLogEntry p t1 n1 d0 s0 Hs Hp Hc1) as [Ha1 Ha2];
        pose proof (sound_addLogEntry t1 n1 d0 s0 Hs) as Hs1
    end.
    match goal with
    | |- context [updateLastEvent t2 ?ty ?n ?s1] =>
        destruct (seen_updateLastEvent p t2 ty n s1 Hs1 Ha2 Hc2) as [Hb1 Hb2]
    end.
    split; [ | exact Hb2 ]. rewrite Hb1, Ha1. reflexivity.
  - apply negb_true_iff in Hc. unfold logDuolingoActivity.
    match goal with
    | |- context [addLogEntry throws now ?d0 ?s0] =>
        exact (seen_addLogEntry p throws now d0 s0 Hs Hp Hc)
    end.
Qed.

Lemma seen_spared_all (p : positive) (calls : list call) :
  forall s : PopupService,
    sound s -> In p (popupPorts s) -> forallb (spares p) calls = true ->
    seen p (serve_all s calls) = (seen p s ++ flat_map logged calls)%list
    /\ In p (popupPorts (serve_all s calls)).
Proof.
  induction calls as [|c calls IH]; intros s Hs Hp Hc.
  - cbn. rewrite app_nil_r. auto.
  - cbn [forallb] in Hc. apply andb_true_iff in Hc as [Hc Hcs].
    destruct (seen_spared p s c Hs Hp Hc) as [H1 H2].
    destruct (IH (serve s c) (sound_serve s c Hs) H2 Hcs) as [H3 H4].
    unfold serve_all in *. cbn [fold_left flat_map].
    rewrite H3, H1, <- app_assoc. auto.
Qed.

(** X17. an open popup misses no log entry.  A popup that connects is sent
    the cached entries, once for every connect listener that
    [setupPopupListeners] has added, and from then on every entry that is
    logged, once each and in order, until its port goes away or a
    [postMessage] on it throws; with one listener, it is shown the cache
    and then each later entry exactly once.  The port stays in the set all
    the while. *)
Theorem popup_misses_nothing (before after : list call) :
  let s := serve_all createPopupManager before in
  let p := next_port s in
  let s' := serve_all (serve s (PortConnects "popup")) after in
  (1 <= listeners s)%nat ->
  forallb (spares p) after = true ->
  seen p s'
  = (concat (repeat (logCache (manager s)) (listeners s))
     ++ flat_map logged after)%list
  /\ In p (popupPorts s').
Proof.
  cbv zeta. intros Hn Hafter.
  set (s := serve_all createPopupManager before) in *.
  pose proof (sound_serve_all before createPopupManager sound_init) as Hs.
  fold s in Hs.
  pose proof (sound_serve s (PortConnects "popup") Hs) as Hs1.
  assert (Hc : seen (next_port s) (serve s (PortConnects "popup"))
               = concat (repeat (logCache (manager s)) (listeners s))
               /\ In (next_port s) (popupPorts (serve s (PortConnects "popup")))).
  { cbn [serve].
    match goal with
    | |- context [Nat.iter ?n (on_connect "popup" ?q) ?s0] =>
        destruct (seen_connects "popup" q q n s0) as (H1 & _ & _ & H4)
    end.
    cbv zeta in *. cbn [listeners manager] in *.
    rewrite H1, Pos.eqb_refl. cbn [String.eqb andb].
    split; [ | now apply H4 ].
    rewrite seen_fresh; [ reflexivity | ].
    destruct Hs as (_ & _ & _ & _ & _ & _ & Hpn). exact Hpn. }
  destruct Hc as [Hc1 Hc2].
  destruct (seen_spared_all (next_port s) after _ Hs1 Hc2 Hafter) as [H1 H2].
  rewrite H1, Hc1. auto.
Qed.

Lemma popup_misses_nothing_witness :
  exists before after : list call,
    let s := serve_all createPopupManager before in
    let p := next_port s in
    let s' := serve_all (serve s (PortConnects "popup")) after in
    (1 <= listeners s)%nat
    /\ forallb (spares p) after = true
    /\ seen p s'
       = (concat (repeat (logCache (manager s)) (listeners s))
          ++ flat_map logged after)%list.
Proof.
  exists [SetupPopupListeners;
          AddLogEntry (fun _ => false) "2025-01-01T00:00:00.000Z"
            (mkLogData (JStr "info") (JStr "one") JNull (JStr "system"))],
         [AddLogEntry (fun _ => false) "2025-01-01T00:00:01.000Z"
            (mkLogData (JStr "warn") (JStr "two") JNull (JStr "system"));
          PortConnects "other"].
  cbv zeta.
  split; [ vm_compute; lia | ]. split; [ vm_compute; reflexivity | ].
  apply (popup_misses_nothing
           [SetupPopupListeners;
            AddLogEntry (fun _ => false) "2025-01-01T00:00:00.000Z"
              (mkLogData (JStr "info") (JStr "one") JNull (JStr "system"))]
           [AddLogEntry (fun _ => false) "2025-01-01T00:00:01.000Z"
              (mkLogData (JStr "warn") (JStr "two") JNull (JStr "system"));
            PortConnects "other"]).
  - vm_compute. lia.
  - vm_compute. reflexivity.
Defined.

(** *** The cache over the calls of the service *)

(** Trimming early does not change what is left after more entries. *)
Lemma last_entries_app {A : Type} (n : nat) (l r : list A) :
  (0 < n)%nat ->
  last_entries n (last_entries n l ++ r) = last_entries n (l ++ r).
Proof.
  intros Hn. induction r as [| x r IH] using rev_ind.
  - rewrite !app_nil_r. apply LogCache.last_entries_all.
    rewrite LogCache.last_entries_length. lia.
  - rewrite !app_assoc.
    rewrite <- (LogCache.last_entries_snoc n (l ++ r) x Hn).
    rewrite <- (LogCache.last_entries_snoc n (last_entries n l ++ r) x Hn).
    now rewrite IH.
Qed.

Lemma cache_on_connect (name : string) (p : positive) (s : PopupService) :
  logCache (manager (on_connect name p s)) = logCache (manager s).
Proof.
  unfold on_connect. destruct (String.eqb name "popup"); [ | reflexivity ].
  cbn [manager].
  match goal with
  | |- context [sendCachedData p ?s0] =>
      destruct (sendCachedData_spec p s0) as (H1 & _)
  end.
  cbv zeta in H1. now rewrite H1.
Qed.

Lemma cache_connects (name : string) (p : positive) (n : nat)
  (s : PopupService) :
  logCache (manager (Nat.iter n (on_connect name p) s)) = logCache (manager s).
Proof.
  induction n as [|n IH]; [ reflexivity | ].
  now rewrite Nat.iter_succ, cache_on_connect.
Qed.

Lemma cache_addLogEntry (throws : positive -> bool) (now : string)
  (d : LogData) (s : PopupService) :
  maxCacheSize (manager s) = 200 ->
  let s' := snd (Service.addLogEntry throws now d s) in
  fst (Service.addLogEntry throws now d s) = entry_of (now, d)
  /\ (length (logCache (manager s')) <= 200)%nat
  /\ maxCacheSize (manager s') = 200
  /\ logCache (manager s')
     = last_entries 200 (logCache (manager s) ++ [entry_of (now, d)]).
Proof.
  intros Hmax. cbv zeta.
  destruct (addLogEntry_spec throws now d s) as (H1 & _).
  cbv zeta in H1. rewrite H1.
  destruct (cache_bound now d (manager s) Hmax) as (Hb1 & Hb2 & _).
  split; [ | split; [ exact Hb1 | split; [ exact Hb2 | ] ] ].
  - unfold Service.addLogEntry.
    rewrite <- (LogCache.addLogEntry_entry now d (manager s)).
    now destruct (Popup.addLogEntry now d (manager s)).
  - rewrite LogCache.addLogEntry_cache by lia. now rewrite Hmax.
Qed.

(** What a call leaves in the cache: the last 200 of what was there and
    what the call logged. *)
Lemma cache_serve (s : PopupService) (c : call) :
  sound s ->
  logCache (manager (serve s c))
  = last_entries 200 (logCache (manager s) ++ logged c).
Proof.
  intros (Hlen & Hmax & _).
  assert (Hsame : last_entries 200 (logCache (manager s) ++ [])
                  = logCache (manager s))
    by (rewrite app_nil_r; now apply LogCache.last_entries_all).
  destruct c as [ |name|p|throws now d|throws ty now
                |t1 t2 n1 n2 c|throws now a]; cbn [serve logged].
  - now rewrite Hsame.
  - now rewrite cache_connects, Hsame.
  - rewrite disconnects, Hsame.
    now destruct (length (List.filter (Pos.eqb p) (watched s))).
  - now destruct (cache_addLogEntry throws now d s Hmax) as (_ & _ & _ & ->).
  - destruct (updateLastEvent_spec throws ty now s) as (H1 & _).
    cbv zeta in H1. now rewrite H1, Hsame.
  - unfold logNeuroConnection.
    match goal with
    | |- context [updateLastEvent t2 ?ty n2 ?s1] =>
        destruct (updateLastEvent_spec t2 ty n2 s1) as (H1 & _)
    end.
    cbv zeta in H1. rewrite H1.
    match goal with
    | |- context [Service.addLogEntry t1 n1 ?d ?s0] =>
        destruct (cache_addLogEntry t1 n1 d s0 Hmax) as (_ & _ & _ & ->)
    end.
    reflexivity.
  - unfold logDuolingoActivity.
    match goal with
    | |- context [Service.addLogEntry throws now ?d ?s0] =>
        destruct (cache_addLogEntry throws now d s0 Hmax) as (_ & _ & _ & ->)
    end.
    reflexivity.
Qed.

Lemma cache_serve_all (calls : list call) (s : PopupService) :
  sound s ->
  logCache (manager (serve_all s calls))
  = last_entries 200 (logCache (manager s) ++ flat_map logged calls).
Proof.
  unfold serve_all. revert s.
  induction calls as [|c calls IH]; intros s Hs.
  - cbn. rewrite app_nil_r. symmetry. apply LogCache.last_entries_all.
    now destruct Hs.
  - cbn [fold_left flat_map].
    rewrite (IH (serve s c) (sound_serve s c Hs)), (cache_serve s c Hs).
    rewrite last_entries_app by lia. now rewrite app_assoc.
Qed.

(** C10. After every [addLogEntry] the cache holds at most 200 entries: the
    entry goes in last, and when that makes 201 the oldest goes, so the
    cache is always the last 200 entries added (all of them while there are
    fewer), in the order they were added.  This holds of the method of the
    class [PopupManager], and of the method of the object that
    [createPopupManager] builds in the background service, there over every
    series of calls of the service, whichever ports are open and whichever
    fail: the cache is the last 200 of the entries that the calls logged. *)
Theorem log_cache_bounded :
  (forall (now : string) (d : LogData) (pm : PopupManager),
      maxCacheSize pm = 200 ->
      let pm' := snd (Popup.addLogEntry now d pm) in
      (length (logCache pm') <= 200)%nat
      /\ maxCacheSize pm' = 200
      /\ logCache pm'
         = last_entries 200 (logCache pm ++ [fst (Popup.addLogEntry now d pm)]))
  /\ (forall calls : list (string * LogData),
         let pm := addLogEntries calls new_manager in
         (length (logCache pm) <= 200)%nat
         /\ logCache pm = last_entries 200 (map entry_of calls))
  /\ (forall (throws : positive -> bool) (now : string) (d : LogData)
             (s : PopupService),
         maxCacheSize (manager s) = 200 ->
         let s' := snd (Service.addLogEntry throws now d s) in
         (length (logCache (manager s')) <= 200)%nat
         /\ maxCacheSize (manager s') = 200
         /\ logCache (manager s')
            = last_entries 200
                (logCache (manager s)
                 ++ [fst (Service.addLogEntry throws now d s)]))
  /\ (forall calls : list call,
         let s := serve_all createPopupManager calls in
         (length (logCache (manager s)) <= 200)%nat
         /\ logCache (manager s) = last_entries 200 (flat_map logged calls)).
Proof.
  split; [ | split; [ | split ] ].
  - intros now d pm Hmax pm'. subst pm'.
    rewrite LogCache.addLogEntry_cache, LogCache.addLogEntry_max,
      LogCache.addLogEntry_entry, Hmax by lia.
    change (Z.to_nat 200) with 200%nat.
    rewrite LogCache.last_entries_length. repeat split. lia.
  - intros calls pm. subst pm.
    rewrite (LogCache.addLogEntries_cache calls new_manager) by (cbn; lia).
    cbn [new_manager logCache maxCacheSize app].
    change (Z.to_nat 200) with 200%nat.
    rewrite LogCache.last_entries_length. split; [ lia | reflexivity ].
  - intros throws now d s Hmax.
    destruct (cache_addLogEntry throws now d s Hmax) as (He & Hlen & Hm & Hc).
    cbv zeta in *. now rewrite He.
  - intros calls s. subst s.
    rewrite (cache_serve_all calls createPopupManager sound_init).
    cbn [createPopupManager manager new_manager logCache app].
    rewrite LogCache.last_entries_length. split; [ lia | reflexivity ].
Qed.

Lemma log_cache_bounded_witness :
  let s := snd (Service.addLogEntry (fun _ => false) "2025-01-01T00:00:00.000Z"
                  (mkLogData JUndefined (JStr "hello") JNull JUndefined)
                  createPopupManager) in
  (length (logCache (manager s)) <= 200)%nat
  /\ maxCacheSize (manager s) = 200
  /\ map message (logCache (manager s)) = [JStr "hello"].
Proof.
  destruct log_cache_bounded as (_ & _ & Hone & _).
  destruct (Hone (fun _ => false) "2025-01-01T00:00:00.000Z"
                 (mkLogData JUndefined (JStr "hello") JNull JUndefined)
                 createPopupManager eq_refl) as (Hlen & Hmax & Hc).
  split; [ exact Hlen | ]. split; [ exact Hmax | ].
  cbv zeta. rewrite Hc. reflexivity.
Defined.

End Ports.

(* ===================================================================== *)
(** * The pace of the content script *)
(* ===================================================================== *)

Module Pacing.
Import Content.

Lemma chained_snoc (R : Z -> Z -> Prop) (ts : list Z) (t : Z) :
  chained R ts -> (ts = [] \/ R (List.last ts 0) t) -> chained R (ts ++ [t]).
Proof.
  induction ts as [|t1 ts IH]; intros Hc Hl; [ exact I | ].
  destruct ts as [|t2 ts].
  - cbn. destruct Hl as [Hl | Hl]; [ discriminate | ]. auto.
  - destruct Hc as [H12 Hc]. split; [ exact H12 | ].
    apply IH; [ exact Hc | ]. right.
    destruct Hl as [Hl | Hl]; [ discriminate | exact Hl ].
Qed.

Lemma chained_le_bound (t : Z) (ts : list Z) :
  chained Z.le (t :: ts) -> Forall (fun x => t <= x) ts.
Proof.
  revert t. induction ts as [|t1 ts IH]; intros t H; [ constructor | ].
  destruct H as [H1 H2]. constructor; [ exact H1 | ].
  eapply Forall_impl; [ exact (IH t1 H2) | ]. cbn. intros. lia.
Qed.

Lemma last_bound (P : Z -> Prop) (ts : list Z) (d : Z) :
  Forall P ts -> ts <> [] -> P (List.last ts d).
Proof.
  induction ts as [|t1 ts IH]; intros H Hne; [ now destruct Hne | ].
  apply Forall_cons_iff in H as [H1 H2].
  destruct ts as [|t2 ts]; [ exact H1 | ].
  apply IH; [ exact H2 | discriminate ].
Qed.

(** The times of a kind are among the times of the messages. *)
Lemma times_bound (f : list (Z * message) -> list Z) (P : Z -> Prop)
  (box : list (Z * message)) :
  (f = context_times \/ f = registration_times \/ f = answer_times) ->
  Forall (fun tm => P (fst tm)) box -> Forall P (f box).
Proof.
  intros Hf H. induction H as [|[t m] box Htm _ IH].
  - destruct Hf as [-> | [-> | ->]]; constructor.
  - cbn in Htm.
    destruct Hf as [-> | [-> | ->]]; cbn; apply Forall_app; split;
      try exact IH.
    + destruct m as [txt [|]| |l txt]; repeat constructor; exact Htm.
    + destruct m as [txt s| |l txt]; try constructor.
      destruct (_ && _); repeat constructor; exact Htm.
    + destruct m as [txt s| |l txt]; try constructor.
      destruct (_ && _); repeat constructor; exact Htm.
Qed.

Lemma cooled_snoc (box : list (Z * message)) (at_ : Z) (m : message) :
  cooled box ->
  (forall (a : Z) (txt : string),
      In a (answer_times box) -> m = NeuroContext txt false ->
      ANSWER_COOLDOWN_PERIOD <= at_ - a) ->
  cooled (box ++ [(at_, m)]).
Proof.
  intros Hc Hnew before after a c txt Heq Ha Hin.
  destruct after as [|x after _] using rev_ind; [ contradiction | ].
  rewrite app_assoc in Heq. apply app_inj_tail in Heq as [Hbox <-].
  apply in_app_iff in Hin as [Hin | [Hin | []]].
  - exact (Hc before after a c txt Hbox Ha Hin).
  - injection Hin as -> ->. apply (Hnew a txt); [ | reflexivity ].
    rewrite Hbox. unfold answer_times in *. rewrite flat_map_app.
    apply in_app_iff. now left.
Qed.

(** A message that is neither a context of the observer nor one of the
    two marks keeps the page paced. *)
Lemma paced_other (t at_ : Z) (m : message) (pg pg' : Page) :
  paced t pg -> t <= at_ ->
  outbox pg' = (outbox pg ++ [(at_, m)])%list ->
  lastContextSentTime pg' = lastContextSentTime pg ->
  lastActionRegistrationTime pg' = lastActionRegistrationTime pg ->
  lastAnswerSubmittedTime pg' = lastAnswerSubmittedTime pg ->
  context_times [(at_, m)] = [] ->
  registration_times [(at_, m)] = [] ->
  answer_times [(at_, m)] = [] ->
  paced at_ pg'.
Proof.
  intros (Ht & Hbox & Hctx & Hreg & Hans & Hc1 & Hc2 & Hcool) Hle
         Hout H1 H2 H3 Hn1 Hn2 Hn3.
  unfold paced. rewrite Hout, H1, H2, H3.
  unfold context_times, registration_times, answer_times in *.
  rewrite !flat_map_app, Hn1, Hn2, Hn3, !app_nil_r.
  split; [ lia | ].
  split.
  { apply Forall_app. split.
    - eapply Forall_impl; [ exact Hbox | ]. cbn. intros. lia.
    - repeat constructor; cbn; lia. }
  repeat (split; [ assumption | ]).
  apply cooled_snoc; [ exact Hcool | ].
  intros a txt _ ->. discriminate Hn1.
Qed.
Lemma paced_later (t t' : Z) (pg : Page) :
  paced t pg -> t <= t' -> paced t' pg.
Proof.
  intros (Ht & Hbox & Hrest) Hle. split; [ lia | ]. split; [ | exact Hrest ].
  eapply Forall_impl; [ exact Hbox | ]. cbn. intros. lia.
Qed.

(** A context of the observer, sent when its guards allow it. *)
Lemma paced_context (t at_ : Z) (txt : string) (pg pg' : Page) :
  paced t pg -> t <= at_ ->
  outbox pg' = (outbox pg ++ [(at_, NeuroContext txt false)])%list ->
  lastContextSentTime pg' = at_ ->
  lastActionRegistrationTime pg' = lastActionRegistrationTime pg ->
  lastAnswerSubmittedTime pg' = lastAnswerSubmittedTime pg ->
  CONTEXT_CHANGE_THRESHOLD < at_ - lastContextSentTime pg ->
  (lastAnswerSubmittedTime pg = 0
   \/ ANSWER_COOLDOWN_PERIOD <= at_ - lastAnswerSubmittedTime pg) ->
  paced at_ pg'.
Proof.
  intros (Ht & Hbox & Hctx & Hreg & Hans & Hc1 & Hc2 & Hcool) Hle
         Hout H1 H2 H3 Hgap Hcd.
  unfold paced. rewrite Hout, H1, H2, H3.
  assert (Hpos : Forall (fun a => 0 < a) (answer_times (outbox pg))).
  { apply (times_bound answer_times (fun a => 0 < a)); [ tauto | ].
    eapply Forall_impl; [ exact Hbox | ]. cbn. intros. lia. }
  assert (E1 : context_times [(at_, NeuroContext txt false)] = [at_])
    by reflexivity.
  assert (E2 : registration_times [(at_, NeuroContext txt false)] = [])
    by reflexivity.
  assert (E3 : answer_times [(at_, NeuroContext txt false)] = [])
    by reflexivity.
  unfold context_times, registration_times, answer_times in *.
  rewrite !flat_map_app, E1, E2, E3, !app_nil_r.
  split; [ lia | ].
  split.
  { apply Forall_app. split.
    - eapply Forall_impl; [ exact Hbox | ]. cbn. intros. lia.
    - repeat constructor; cbn; lia. }
  split; [ now rewrite last_last | ].
  split; [ exact Hreg | ]. split; [ exact Hans | ].
  split; [ apply chained_snoc; [ exact Hc1 | right; now rewrite <- Hctx ] | ].
  split; [ exact Hc2 | ].
  apply cooled_snoc; [ exact Hcool | ].
  intros a _ Ha _. unfold answer_times in Ha.
  rewrite Forall_forall in Hans, Hpos.
  apply list_elem_of_In in Ha.
  specialize (Hans a Ha). specialize (Hpos a Ha). cbn in *. lia.
Qed.

(** The log line of a registration that [registerActions] lets through. *)
Lemma paced_registration (t at_ : Z) (pg pg' : Page) :
  paced t pg -> t <= at_ ->
  outbox pg'
  = (outbox pg
     ++ [(at_, NeuroLog "info" "[Content] Registering actions with Neuro API")])%list ->
  lastContextSentTime pg' = lastContextSentTime pg ->
  lastActionRegistrationTime pg' = at_ ->
  lastAnswerSubmittedTime pg' = lastAnswerSubmittedTime pg ->
  ACTION_REGISTRATION_THRESHOLD <= at_ - lastActionRegistrationTime pg ->
  paced at_ pg'.
Proof.
  intros (Ht & Hbox & Hctx & Hreg & Hans & Hc1 & Hc2 & Hcool) Hle
         Hout H1 H2 H3 Hgap.
  unfold paced. rewrite Hout, H1, H2, H3.
  assert (E1 : context_times
                 [(at_, NeuroLog "info" "[Content] Registering actions with Neuro API")]
               = []) by reflexivity.
  assert (E2 : registration_times
                 [(at_, NeuroLog "info" "[Content] Registering actions with Neuro API")]
               = [at_]) by reflexivity.
  assert (E3 : answer_times
                 [(at_, NeuroLog "info" "[Content] Registering actions with Neuro API")]
               = []) by reflexivity.
  unfold context_times, registration_times, answer_times in *.
  rewrite !flat_map_app, E1, E2, E3, !app_nil_r.
  split; [ lia | ].
  split.
  { apply Forall_app. split.
    - eapply Forall_impl; [ exact Hbox | ]. cbn. intros. lia.
    - repeat constructor; cbn; lia. }
  split; [ exact Hctx | ].
  split; [ now rewrite last_last | ]. split; [ exact Hans | ].
  split; [ exact Hc1 | ].
  split; [ apply chained_snoc; [ exact Hc2 | right; now rewrite <- Hreg ] | ].
  apply cooled_snoc; [ exact Hcool | ]. intros a txt _ [=].
Qed.

(** The log line of an answer. *)
Lemma paced_answer (t at_ : Z) (pg pg' : Page) :
  paced t pg -> t <= at_ ->
  outbox pg'
  = (outbox pg
     ++ [(at_, NeuroLog "debug" "[Content] Updated last answer submitted time")])%list ->
  lastContextSentTime pg' = lastContextSentTime pg ->
  lastActionRegistrationTime pg' = lastActionRegistrationTime pg ->
  lastAnswerSubmittedTime pg' = at_ ->
  paced at_ pg'.
Proof.
  intros (Ht & Hbox & Hctx & Hreg & Hans & Hc1 & Hc2 & Hcool) Hle
         Hout H1 H2 H3.
  unfold paced. rewrite Hout, H1, H2, H3.
  assert (Hle' : Forall (fun a => a <= at_) (answer_times (outbox pg))).
  { apply (times_bound answer_times (fun a => a <= at_)); [ tauto | ].
    eapply Forall_impl; [ exact Hbox | ]. cbn. intros. lia. }
  assert (E1 : context_times
                 [(at_, NeuroLog "debug" "[Content] Updated last answer submitted time")]
               = []) by reflexivity.
  assert (E2 : registration_times
                 [(at_, NeuroLog "debug" "[Content] Updated last answer submitted time")]
               = []) by reflexivity.
  assert (E3 : answer_times
                 [(at_, NeuroLog "debug" "[Content] Updated last answer submitted time")]
               = [at_]) by reflexivity.
  unfold context_times, registration_times, answer_times in *.
  rewrite !flat_map_app, E1, E2, E3, !app_nil_r.
  split; [ lia | ].
  split.
  { apply Forall_app. split.
    - eapply Forall_impl; [ exact Hbox | ]. cbn. intros. lia.
    - repeat constructor; cbn; lia. }
  split; [ exact Hctx | ]. split; [ exact Hreg | ].
  split; [ apply Forall_app; split; [ exact Hle' | repeat constructor; lia ] | ].
  split; [ exact Hc1 | ]. split; [ exact Hc2 | ].
  apply cooled_snoc; [ exact Hcool | ]. intros a txt _ [=].
Qed.

Lemma paced_registerActions (t now : Z) (pg : Page) :
  paced t pg -> t <= now -> paced now (registerActions now pg).
Proof.
  intros Hp Hle. unfold registerActions.
  destruct (now - lastActionRegistrationTime pg <? ACTION_REGISTRATION_THRESHOLD)%Z
    eqn:E.
  - eapply (paced_other t now); [ exact Hp | exact Hle | reflexivity .. ].
  - apply Z.ltb_ge in E.
    pose proof (paced_registration t now pg
                  (mkPage (lastQuestionHash pg) (lastContextSentTime pg) now
                          (lastAnswerSubmittedTime pg) (awaiting pg) (retrying pg)
                          (outbox pg ++ [(now, NeuroLog "info" "[Content] Registering actions with Neuro API")]))
                  Hp Hle eq_refl eq_refl eq_refl eq_refl E) as H1.
    eapply (paced_other now now NeuroRegisterActions);
      [ exact H1 | apply Z.le_refl | reflexivity .. ].
Qed.

Lemma paced_observe (t now later : Z) (snap : Snapshot) (pg : Page) :
  paced t pg -> t <= now -> now <= later ->
  paced later (observe snap now later pg).
Proof.
  intros Hp H1 H2. unfold observe.
  destruct (has_question snap); cbn [negb].
  2: { apply (paced_later now); [ | exact H2 ].
       now apply (paced_registerActions t). }
  destruct (String.eqb (hash snap) (lastQuestionHash pg)); cbn [negb].
  { apply (paced_later t); [ exact Hp | lia ]. }
  destruct (negb (lastAnswerSubmittedTime pg =? 0)%Z
            && (now - lastAnswerSubmittedTime pg <? ANSWER_COOLDOWN_PERIOD)%Z)
    eqn:Ecd.
  { apply (paced_later now); [ | exact H2 ].
    eapply (paced_other t now); [ exact Hp | exact H1 | reflexivity .. ]. }
  destruct (CONTEXT_CHANGE_THRESHOLD <? now - lastContextSentTime pg)%Z eqn:Egap.
  2: { apply (paced_later t); [ exact Hp | lia ]. }
  apply Z.ltb_lt in Egap.
  assert (Hcd : lastAnswerSubmittedTime pg = 0
                \/ ANSWER_COOLDOWN_PERIOD <= now - lastAnswerSubmittedTime pg).
  { apply andb_false_iff in Ecd as [Ecd | Ecd].
    - left. apply negb_false_iff, Z.eqb_eq in Ecd. exact Ecd.
    - right. now apply Z.ltb_ge in Ecd. }
  apply (paced_registerActions now); [ | exact H2 ].
  pose proof (paced_other t now
                (NeuroLog "info"
                   ("[Content] " ++ "New " ++ contextType snap ++ " question detected"))
                pg
                (mkPage (lastQuestionHash pg) (lastContextSentTime pg)
                        (lastActionRegistrationTime pg)
                        (lastAnswerSubmittedTime pg) (awaiting pg) (retrying pg)
                        (outbox pg
                         ++ [(now, NeuroLog "info"
                                     ("[Content] " ++ "New " ++ contextType snap
                                      ++ " question detected"))]))
                Hp H1 eq_refl eq_refl eq_refl eq_refl eq_refl eq_refl eq_refl)
    as HA.
  eapply (paced_context now now (text snap));
    [ exact HA | apply Z.le_refl | | reflexivity | reflexivity | reflexivity
    | exact Egap | exact Hcd ].
  cbn. reflexivity.
Qed.
Lemma paced_fresh : paced 1 fresh.
Proof.
  unfold paced, fresh. cbn.
  repeat split; try constructor; try lia.
  intros before after a c m Heq Ha _.
  symmetry in Heq. apply app_eq_nil in Heq as [-> _]. contradiction.
Qed.

Lemma paced_react (t : Z) (pg pg' : Page) (ev : event) :
  paced t pg ->
  chained Z.le (t :: readings ev) ->
  react pg ev = Some pg' ->
  paced (List.last (readings ev) t) pg'.
Proof.
  intros Hp Hc Hr.
  destruct ev as [now|snap now later|now|at_|at_|at_]; cbn in Hc, Hr |- *.
  - injection Hr as <-. now apply (paced_registerActions t).
  - injection Hr as <-. destruct Hc as (H1 & H2 & _).
    now apply (paced_observe t).
  - injection Hr as <-. destruct Hc as [H1 _].
    unfold updateLastAnswerSubmittedTime.
    eapply (paced_answer t now); [ exact Hp | exact H1 | reflexivity .. ].
  - destruct Hc as [H1 _].
    destruct (awaiting pg) as [|n]; [ discriminate | ]. injection Hr as <-.
    unfold registration_resolved.
    eapply (paced_other at_ at_); [ | apply Z.le_refl | reflexivity .. ].
    eapply (paced_other t at_); [ exact Hp | exact H1 | reflexivity .. ].
  - destruct Hc as [H1 _].
    destruct (awaiting pg) as [|n]; [ discriminate | ]. injection Hr as <-.
    unfold registration_rejected.
    eapply (paced_other t at_); [ exact Hp | exact H1 | reflexivity .. ].
  - destruct Hc as [H1 _].
    destruct (retrying pg) as [|n]; [ discriminate | ]. injection Hr as <-.
    eapply (paced_other t at_); [ exact Hp | exact H1 | reflexivity .. ].
Qed.

Lemma chained_readings (t : Z) (ev : event) (rest : list Z) :
  chained Z.le (t :: readings ev ++ rest) ->
  chained Z.le (t :: readings ev)
  /\ chained Z.le (List.last (readings ev) t :: rest).
Proof.
  destruct ev as [now|snap now later|now|at_|at_|at_]; cbn;
    destruct rest; cbn; tauto.
Qed.

Lemma paced_play (evs : list event) :
  forall (t : Z) (pg pg' : Page),
    paced t pg ->
    chained Z.le (t :: flat_map readings evs) ->
    play pg evs = Some pg' ->
    exists t' : Z, paced t' pg'.
Proof.
  induction evs as [|ev evs IH]; intros t pg pg' Hp Hc Hplay.
  - injection Hplay as <-. eauto.
  - cbn [play flat_map] in *.
    destruct (react pg ev) as [pg1|] eqn:Hr; [ | discriminate ].
    apply chained_readings in Hc as [Hc1 Hc2].
    exact (IH _ pg1 pg' (paced_react t pg pg1 ev Hp Hc1 Hr) Hc2 Hplay).
Qed.

(** X18. the observer does not flood Neuro.  Over any sequence of events of
    the content script during which the clock does not run backwards, two
    contexts that the observer sends in a row are more than 5000 ms apart,
    and a context is sent at least 3000 ms after every answer submitted
    before it. *)
Theorem contexts_paced (evs : list event) (pg : Page) :
  clocked evs ->
  play fresh evs = Some pg ->
  chained (fun a b => CONTEXT_CHANGE_THRESHOLD < b - a)
          (context_times (outbox pg))
  /\ cooled (outbox pg).
Proof.
  intros Hc Hplay.
  destruct (paced_play evs 1 fresh pg paced_fresh Hc Hplay)
    as (t & _ & _ & _ & _ & _ & H1 & _ & H2).
  split; assumption.
Qed.

Lemma contexts_paced_witness :
  exists pg : Page,
    play fresh
         [RegisterActions 20000;
          Observed (mkSnapshot true "h1" "choice" "New question: uno") 21000 21001;
          AnswerSubmitted 22000;
          Observed (mkSnapshot true "h2" "text" "New question: dos") 24000 24000;
          Observed (mkSnapshot true "h2" "text" "New question: dos") 27000 27000]
    = Some pg
    /\ context_times (outbox pg) = [21000; 27000].
Proof.
  eexists. split; [ vm_compute; reflexivity | ].
  match goal with
  | |- context_times (outbox ?pg) = _ =>
      destruct (contexts_paced
                  [RegisterActions 20000;
                   Observed (mkSnapshot true "h1" "choice" "New question: uno")
                            21000 21001;
                   AnswerSubmitted 22000;
                   Observed (mkSnapshot true "h2" "text" "New question: dos")
                            24000 24000;
                   Observed (mkSnapshot true "h2" "text" "New question: dos")
                            27000 27000] pg) as [_ _]
  end.
  - unfold clocked. cbn. lia.
  - vm_compute. reflexivity.
  - vm_compute. reflexivity.
Defined.

(** X19. registrations are throttled.  Over any sequence of events of the
    content script during which the clock does not run backwards, two
    registrations that [registerActions] lets through in a row are at least
    10000 ms apart, whoever calls it: the script on loading or the observer,
    with or without a question on the page. *)
Theorem registrations_paced (evs : list event) (pg : Page) :
  clocked evs ->
  play fresh evs = Some pg ->
  chained (fun a b => ACTION_REGISTRATION_THRESHOLD <= b - a)
          (registration_times (outbox pg)).
Proof.
  intros Hc Hplay.
  destruct (paced_play evs 1 fresh pg paced_fresh Hc Hplay)
    as (t & _ & _ & _ & _ & _ & _ & H1 & _).
  exact H1.
Qed.

Lemma registrations_paced_witness :
  exists pg : Page,
    play fresh
         [RegisterActions 20000;
          Observed (mkSnapshot false "" "unknown" "") 25000 25000;
          RegistrationRejected 25500;
          RetryFires 26500;
          Observed (mkSnapshot true "h1" "tap" "New question: tres") 30000 30002]
    = Some pg
    /\ registration_times (outbox pg) = [20000; 30002].
Proof.
  eexists. split; [ vm_compute; reflexivity | ].
  match goal with
  | |- registration_times (outbox ?pg) = _ =>
      pose proof (registrations_paced
                    [RegisterActions 20000;
                     Observed (mkSnapshot false "" "unknown" "") 25000 25000;
                     RegistrationRejected 25500;
                     RetryFires 26500;
                     Observed (mkSnapshot true "h1" "tap" "New question: tres")
                              30000 30002] pg) as H
  end.
  assert (Hc : chained (fun a b => ACTION_REGISTRATION_THRESHOLD <= b - a)
                       [20000; 30002]).
  { apply H; [ unfold clocked; cbn; lia | vm_compute; reflexivity ]. }
  vm_compute. reflexivity.
Defined.

End Pacing.

(* ===================================================================== *)
(** * The answers of the content script *)
(* ===================================================================== *)

Module Replies.
Import JS Neuro MessageHandler Actions.
Import Sending.
Local Open Scope list_scope.

#[local] Arguments serialize : simpl never.
#[local] Arguments JSON_parse : simpl never.
#[local] Arguments JSON_valid : simpl never.
#[local] Arguments socket_writes : simpl never.
#[local] Arguments tab_messages : simpl never.
#[local] Arguments stringifies : simpl never.

Lemma results_app (a b : list act) :
  results (a ++ b) = (results a ++ results b)%list.
Proof. unfold results. apply flat_map_app. Qed.

Lemma clicked_app (a b : list act) : clicked (a ++ b) = clicked a || clicked b.
Proof. unfold clicked. apply existsb_app. Qed.

(** What [submit_answer] sends back, by what it finds. *)
Lemma submit_answer_spec (dom : Dom) (parameters id : jsval) :
  let '(r, acts) := submit_answer dom parameters id in
  let answer := answer_of parameters in
  match r with
  | Throw _ =>
      results acts = []
      /\ (clicked acts = true ->
          selection_throws dom answer = false /\ stringifies answer = false)
  | Return _ =>
      stringifies id = true
      /\ if nullish answer
         then results acts
              = [result_message id false "No answer data provided by Neuro"]
              /\ clicked acts = false
         else results acts
              = [result_message id true "Answer submitted successfully"]
              /\ clicked acts = next_button dom
              /\ selection_throws dom answer = false
  end.
Proof.
  unfold submit_answer.
  destruct (stringifies id) eqn:Hid; cbn [negb];
    [ | split; [ reflexivity | discriminate ] ].
  destruct (nullish (answer_of parameters)) eqn:Hn.
  { cbv beta iota zeta. repeat split; reflexivity. }
  destruct (selection_throws dom (answer_of parameters)) eqn:Hs.
  { split; [ reflexivity | discriminate ]. }
  destruct (next_button dom) eqn:Hb.
  - destruct (stringifies (answer_of parameters)) eqn:Ha; cbn [negb];
      cbv beta iota zeta; repeat split; reflexivity.
  - cbv beta iota zeta. repeat split; reflexivity.
Qed.
Lemma get_prop_neuro_action (data : jsval) :
  get_prop (neuro_action data) "type" = Return (JStr "neuro_action")
  /\ get_prop (neuro_action data) "data" = Return data.
Proof. split; reflexivity. Qed.

(** The four ways the listener ends for an action that it has parsed. *)
Lemma routed (dom : Dom) (id name parameters : jsval) (acts : list act) :
  results acts = [] -> clicked acts = false ->
  let '(r, done) :=
    if is_string "submit_answer" name then
      let '(r, done) := submit_answer dom parameters id in (r, acts ++ done)
    else if is_string "get_question_context" name then
      (Return tt, acts ++ get_question_context id)
    else if is_string "continue_lesson" name then
      (Return tt, acts ++ continue_lesson dom id)
    else (Return tt, acts) in
  (length (results done) <= 1)%nat
  /\ (forall m, In m (results done) ->
                exists (success : bool) (text : string),
                  m = result_message id success text)
  /\ match r with
     | Throw _ => results done = []
     | Return _ => True
     end.
Proof.
  intros Hr Hc.
  destruct (is_string "submit_answer" name).
  { pose proof (submit_answer_spec dom parameters id) as H.
    destruct (submit_answer dom parameters id) as [[u|e] done];
      rewrite results_app, Hr; cbn [app].
    - destruct H as [_ H].
      destruct (nullish (answer_of parameters));
        destruct H as [-> _]; cbn;
        (split; [ lia | ]); (split; [ | exact I ]);
        intros m [<- | []]; eauto.
    - destruct H as [-> _]. cbn. split; [ lia | ].
      split; [ intros ? [] | reflexivity ]. }
  destruct (is_string "get_question_context" name).
  { rewrite results_app, Hr. cbn. split; [ lia | ]. split; [ | exact I ].
    intros m [<- | []]. eauto. }
  destruct (is_string "continue_lesson" name).
  { rewrite results_app, Hr. unfold continue_lesson.
    destruct (next_button dom); cbn; (split; [ lia | ]); (split; [ | exact I ]);
      intros m [<- | []]; eauto. }
  rewrite Hr. cbn. split; [ lia | ]. split; [ intros ? [] | exact I ].
Qed.

(** The results that the listener sends are results for the id of the
    request. *)
Lemma results_shape (dom : Dom) (request : jsval) :
  let '(r, acts) := on_message dom request in
  (length (results acts) <= 1)%nat
  /\ (forall m, In m (results acts) ->
                exists (success : bool) (text : string),
                  m = result_message (field "id" (field "data" request))
                                     success text)
  /\ match r with
     | Throw _ => results acts = []
     | Return _ => True
     end.
Proof.
  unfold on_message.
  destruct (get_prop request "type") as [type|e] eqn:Ht;
    [ | cbn; split; [ lia | split; [ intros ? [] | reflexivity ] ] ].
  assert (Hd : get_prop request "data" = Return (field "data" request))
    by (unfold field; destruct request; try discriminate Ht; reflexivity).
  rewrite Hd. set (data := field "data" request).
  destruct (stringifies type); cbn [negb];
    [ | cbn; split; [ lia | split; [ intros ? [] | reflexivity ] ] ].
  destruct (is_string "neuro_action" type && truthy data);
    [ | cbn; split; [ lia | split; [ intros ? [] | exact I ] ] ].
  destruct (stringifies (field "name" data)); cbn [negb];
    [ | cbn; split; [ lia | split; [ intros ? [] | reflexivity ] ] ].
  destruct (field "data" data) as [ | |b|n|text|l|props] eqn:Hp;
    try (apply (routed dom (field "id" data) (field "name" data));
         reflexivity).
  destruct (JSON_parse text) as [v|].
  - apply (routed dom (field "id" data) (field "name" data)); reflexivity.
  - cbn. split; [ lia | ]. split; [ | exact I ].
    intros m [<- | []]. eauto.
Qed.

(** The listener on an action by name: how it ends when the payload is not
    a string or parses, and when it is a string that is not JSON. *)
Lemma on_message_action (dom : Dom) (data : jsval) (name : string) :
  field "name" data = JStr name ->
  let id := field "id" data in
  let payload := field "data" data in
  exists acts : list act,
    results acts = [] /\ clicked acts = false
    /\ (unparsable payload = true ->
        on_message dom (neuro_action data)
        = (Return tt,
           acts ++ [Logged "error" "Failed to parse action data";
                    Sent (result_message id false "Failed to parse action data")]))
    /\ (forall parameters : jsval,
          parameters_of payload = Some parameters ->
          exists more : list act,
            results more = [] /\ clicked more = false
            /\ on_message dom (neuro_action data)
               = if String.eqb name "submit_answer" then
                   let '(r, done) := submit_answer dom parameters id in
                   (r, (acts ++ more) ++ done)
                 else if String.eqb name "get_question_context" then
                   (Return tt, (acts ++ more) ++ get_question_context id)
                 else if String.eqb name "continue_lesson" then
                   (Return tt, (acts ++ more) ++ continue_lesson dom id)
                 else (Return tt, acts ++ more)).
Proof.
  intros Hname. cbv zeta.
  assert (Td : truthy data = true)
    by (destruct data; try discriminate Hname; reflexivity).
  exists [Logged "debug" "Received message type";
          Logged "info" "Executing action"].
  split; [ reflexivity | ]. split; [ reflexivity | ].
  unfold on_message.
  destruct (get_prop_neuro_action data) as [-> ->].
  change (stringifies (JStr "neuro_action")) with true.
  change (is_string "neuro_action" (JStr "neuro_action")) with true.
  rewrite Td, Hname. change (stringifies (JStr name)) with true.
  cbn [negb andb is_string].
  split.
  - intros Hu. destruct (field "data" data) as [ | |b|n|text|l|props];
      try discriminate Hu.
    cbn [unparsable] in Hu. apply negb_true_iff in Hu.
    destruct (JSON_parse text) as [v|] eqn:Hp; [ | reflexivity ].
    rewrite (Codec.JSON_valid_parse text v Hp) in Hu. discriminate Hu.
  - intros parameters Hp.
    destruct (field "data" data) as [ | |b|n|text|l|props];
      try (injection Hp as <-; exists []; rewrite !app_nil_r;
           split; [ reflexivity | ]; split; reflexivity).
    cbn [parameters_of] in Hp. rewrite Hp.
    exists [Logged "debug" "Successfully parsed action parameters"].
    split; [ reflexivity | ]. split; reflexivity.
Qed.

(** X21. the two actions without an answer to give are always answered.
    When the payload of the action is not a string, or is a string that
    [JSON_parse] reads, the listener returns: for [continue_lesson] it has
    sent exactly one result, a success if the next button was on the page
    (and it was clicked) and a failure if not; for [get_question_context]
    exactly one success, and no click; for an action of any other name but
    [submit_answer] nothing at all: Neuro is not answered.  When the payload
    is a string that is not JSON, the listener returns and has sent the one
    failure [Failed to parse action data], whatever the name, and clicked
    nothing.  Of a payload that is JSON outside the fragment that
    [JSON_parse] reads, nothing is stated. *)
Theorem named_actions_answered (dom : Dom) (data : jsval) (name : string) :
  field "name" data = JStr name ->
  String.eqb name "submit_answer" = false ->
  let id := field "id" data in
  let payload := field "data" data in
  let '(r, acts) := on_message dom (neuro_action data) in
  (unparsable payload = true ->
   r = Return tt
   /\ results acts = [result_message id false "Failed to parse action data"]
   /\ clicked acts = false)
  /\ (parameters_of payload <> None ->
      r = Return tt
      /\ if String.eqb name "get_question_context" then
           results acts
           = [result_message id true "Question context retrieved successfully"]
           /\ clicked acts = false
         else if String.eqb name "continue_lesson" then
           results acts
           = [if next_button dom
              then result_message id true "Continued lesson successfully"
              else result_message id false "Continue button not found"]
           /\ clicked acts = next_button dom
         else results acts = [] /\ clicked acts = false).
Proof.
  intros Hname Hsub. cbv zeta.
  destruct (on_message_action dom data name Hname)
    as (acts0 & Hr & Hc & Hbad & Hgood).
  destruct (on_message dom (neuro_action data)) as [r acts] eqn:E.
  split.
  - intros Hu. specialize (Hbad Hu). injection Hbad as -> ->.
    rewrite results_app, clicked_app, Hr, Hc. repeat split.
  - intros Hp.
    destruct (parameters_of (field "data" data)) as [parameters|];
      [ | now destruct Hp ].
    destruct (Hgood parameters eq_refl) as (more & Hr' & Hc' & E').
    rewrite Hsub in E'.
    assert (Hr2 : results (acts0 ++ more) = [])
      by (now rewrite results_app, Hr, Hr').
    assert (Hc2 : clicked (acts0 ++ more) = false)
      by (now rewrite clicked_app, Hc, Hc').
    destruct (String.eqb name "get_question_context").
    { injection E' as -> ->. rewrite results_app, clicked_app, Hr2, Hc2.
      repeat split. }
    destruct (String.eqb name "continue_lesson").
    { injection E' as -> ->. rewrite results_app, clicked_app, Hr2, Hc2.
      unfold continue_lesson. destruct (next_button dom); repeat split. }
    injection E' as -> ->. auto.
Qed.

Lemma named_actions_answered_witness :
  let data := JObj [("id", JStr "a7"); ("name", JStr "continue_lesson")] in
  let dom := mkDom "choice" true false true in
  exists acts : list act,
    on_message dom (neuro_action data) = (Return tt, acts)
    /\ results acts
       = [result_message (JStr "a7") true "Continued lesson successfully"]
    /\ clicked acts = true.
Proof.
  intros data dom.
  pose proof (named_actions_answered dom data "continue_lesson"
                eq_refl eq_refl) as H.
  cbv zeta in H.
  destruct (on_message dom (neuro_action data)) as [r acts].
  destruct H as (_ & H). destruct H as (-> & H1 & H2); [ discriminate | ].
  exists acts. split; [ reflexivity | ]. split; [ exact H1 | exact H2 ].
Defined.



(** *** From Neuro to the page and back *)

(** A result of the content script, as the background passes it on. *)
Lemma relayed_result (id : jsval) (success : bool) (text : string) :
  truthy id = true ->
  relayed (result_message id success text)
  = Some (action_result id success text).
Proof.
  intros Hid. unfold relayed, result_message.
  cbn [field get_prop obj_get String.eqb Ascii.eqb Bool.eqb truthy negb
       is_string].
  change (is_string "neuro_context" (JStr "neuro_action_result")) with false.
  change (is_string "neuro_action_result" (JStr "neuro_action_result"))
    with true.
  cbv beta iota. rewrite Hid. unfold js_or, action_result, frame. cbn [truthy].
  destruct success; destruct (String.eqb text "") eqn:E; cbn [negb];
    try reflexivity.
  all: apply String.eqb_eq in E; subst text; reflexivity.
Qed.

(** X23. an action goes to the page and its result comes back.  For an action
    frame with an id, the background hands [{type: 'neuro_action', data}]
    to every tab found; whatever the page of a tab looks like, each result
    that its listener sends for that request is a result for the id of the
    action, and when the background receives it on a connection with an
    open socket, it writes exactly one [action/result] frame for Neuro,
    with that id and the success and text that the content script gave. *)
Theorem result_reaches_neuro (popup responds : bool) (msg id : jsval)
  (tabs : list tab) (dom : Dom) (w w2 : World) (s : positive) :
  action_id msg = Some id ->
  plain id = true ->
  line w2 = Some s ->
  exists (data : jsval) (r : outcome unit) (w' : World),
    get_prop msg "data" = Return data
    /\ handleAction popup msg (TabsFound tabs) w = (r, w')
    /\ tab_messages (effects w')
       = (tab_messages (effects w)
          ++ map (fun t => (tab_id t, neuro_action data)) tabs)%list
    /\ forall reply : jsval,
        In reply (results (snd (on_message dom (neuro_action data)))) ->
        exists (success : bool) (text : string),
          reply = result_message id success text
          /\ socket_writes
               (effects (world (handleRuntimeMessage popup responds reply w2)))
             = (socket_writes (effects w2)
                ++ [(s, serialize (action_result id success text))])%list.
Proof.
  intros Hid _ Hline.
  destruct (Relay.handleAction_spec popup msg id (TabsFound tabs) w Hid)
    as (data & r & w' & Hd & E & Ht & _).
  exists data, r, w'. split; [ exact Hd | ]. split; [ exact E | ].
  split; [ exact Ht | ].
  destruct (action_id_Some msg id Hid) as (data' & Hd' & Td & Hi & Ti).
  rewrite Hd in Hd'. injection Hd' as <-.
  assert (Hfield : field "id" data = id) by (unfold field; now rewrite Hi).
  intros reply Hin.
  pose proof (results_shape dom (neuro_action data)) as H.
  destruct (on_message dom (neuro_action data)) as [r1 acts].
  destruct H as (_ & H2 & _).
  destruct (H2 reply Hin) as (success & text & ->).
  change (field "data" (neuro_action data)) with data. rewrite Hfield.
  exists success, text. split; [ reflexivity | ].
  destruct (Relay.handleRuntimeMessage_writes popup responds
              (result_message id success text) w2) as [Hw _].
  cbv zeta in Hw. now rewrite Hw, (relayed_result id success text Ti), Hline.
Qed.

Lemma result_reaches_neuro_witness :
  let msg := JObj [("command", JStr "action");
                   ("data", JObj [("id", JStr "a7");
                                  ("name", JStr "continue_lesson")])] in
  let w := match run (init true) [Connect false; SocketOpen 1 1000] with
           | Some w => w
           | None => init true
           end in
  let dom := mkDom "choice" true false false in
  let reply := result_message (JStr "a7") false "Continue button not found" in
  In reply (results (snd (on_message dom
                            (neuro_action (JObj [("id", JStr "a7");
                                                 ("name", JStr "continue_lesson")])))))
  /\ socket_writes (effects (world (handleRuntimeMessage true true reply w)))
     = (socket_writes (effects w)
        ++ [(1%positive,
             serialize (action_result (JStr "a7") false
                                      "Continue button not found"))])%list.
Proof.
  intros msg w dom reply.
  assert (H1 : action_id msg = Some (JStr "a7")) by reflexivity.
  assert (H2 : plain (JStr "a7") = true) by reflexivity.
  assert (H3 : line w = Some 1%positive) by (vm_compute; reflexivity).
  assert (H4 : In reply
                 (results (snd (on_message dom
                                  (neuro_action
                                     (JObj [("id", JStr "a7");
                                            ("name", JStr "continue_lesson")]))))))
    by (left; reflexivity).
  split; [ exact H4 | ].
  destruct (result_reaches_neuro true true msg (JStr "a7")
              [mkTab 7 true] dom (init true) w 1%positive H1 H2 H3)
    as (data & r & w' & Hd & _ & _ & Hall).
  injection Hd as <-.
  destruct (Hall reply H4) as (success & text & Heq & Hw).
  injection Heq as <- <-. exact Hw.
Defined.

End Replies.
